(** * The gas absorption lookup table of ARTS: Adapt and Extract

    A shallow embedding of [src/gas_abs_lookup.cc] (class [GasAbsLookup]):
    the grid locator [find_new_grid_in_old_grid], the table reduction
    [GasAbsLookup::Adapt] and the interpolation [GasAbsLookup::Extract].

    Conventions of the embedding.
    - [Numeric] (the configurable floating point type of [arts.h]) is read as
      an exact ordered field, the rationals [Q]; rounding, infinities and NaN
      are outside the model.  The library function [log] stays a parameter.
    - [Index] is [Z].  Arrays are lists, read with a bounds check.
    - A call ends in one of three ways: it returns ([Ok]), it throws a
      [runtime_error] ([Err], one constructor per message), or it indexes an
      array outside its bounds or violates an [assert] ([Fault]: an abort in a
      build with assertions, undefined behaviour otherwise). *)

From Stdlib Require Import ZArith QArith Qabs List Sorted Bool Lia Psatz.
From Stdlib Require Import Reals Qreals.
Import ListNotations.

Local Open Scope Z_scope.

(** ** Basic types *)

(** [typedef NUMERIC Numeric;] and [typedef INDEX Index;] *)
Abbreviation Numeric := Q (only parsing).
Abbreviation Index := Z (only parsing).

(** The run-time errors of the two operations, named as in the specification. *)
Inductive Error : Type :=
| GridPointNotFound          (* "Cannot find new frequency ..." *)
| EmptySpeciesTable          (* "The lookup table should have at least one species." *)
| DuplicateNonlinearSpecies  (* "The table must not have duplicate nonlinear species." *)
| NonlinearSpeciesOutOfRange (* chk_if_in_range on nonlinear_species[i] *)
| GridNotIncreasing          (* chk_if_increasing *)
| GridNotDecreasing          (* chk_if_decreasing *)
| ReferenceShapeMismatch     (* chk_matrix_nrows, chk_matrix_ncols, chk_vector_length *)
| HumidityPerturbationsMissing (* "The vector nls_pert should contain ..., but it is empty." *)
| ShapeMismatch              (* chk_size on xsec *)
| EmptySpeciesRequest        (* "The list of current species should not be empty." *)
| SpeciesNotFound            (* chk_contains: no occurrence *)
| SpeciesNotUnique           (* chk_contains: more than one occurrence *)
| NoHumidityReferenceSpecies (* "... at least one species must be a H2O species." *)
| TableNotAdapted            (* "... log_p_grid is not initialized." *)
| InsufficientGridForOrder   (* not enough grid points for the interpolation order *)
| DimensionMismatch          (* abs_vmrs has the wrong length *)
| IndexOutOfRange            (* "Frequency index f_index is too high ..." *)
| PressureOutOfRange
| TemperatureOutOfRange
| HumidityOutOfRange.

(** How a run ends: it returns, it throws a [runtime_error], or it leaves
    an array or fails an [assert] ([Fault]).  In the source the last is an
    abort in a build with assertions and undefined behaviour in one
    without; the model follows the run up to the first such access and no
    further, so [Fault] says that the access happens and nothing about
    what comes after it. *)
Inductive result (A : Type) : Type :=
| Ok (a : A)
| Err (e : Error)
| Fault.

Arguments Ok {A} a.
Arguments Err {A} e.
Arguments Fault {A}.

Definition bind {A B : Type} (m : result A) (k : A -> result B) : result B :=
  match m with
  | Ok a => k a
  | Err e => Err e
  | Fault => Fault
  end.

Notation "x <- m ;; k" := (bind m (fun x => k))
  (at level 61, m at next level, right associativity).
Notation "' p <- m ;; k" := (bind m (fun x => match x with p => k end))
  (at level 61, p pattern, m at next level, right associativity).

(** [if (c) throw runtime_error(...)] *)
Definition throw_if (c : bool) (e : Error) : result unit :=
  if c then Err e else Ok tt.

(** [assert(c)] *)
Definition assert (c : bool) : result unit :=
  if c then Ok tt else Fault.

(** ** Arrays *)

(** [x.nelem()] *)
Definition nelem {A : Type} (l : list A) : Index := Z.of_nat (length l).

(** [x[i]] *)
Definition elem {A : Type} (l : list A) (i : Index) : result A :=
  if i <? 0 then Fault
  else match nth_error l (Z.to_nat i) with
       | Some a => Ok a
       | None => Fault
       end.

(** The indices [0 .. n-1] of a [for (Index i=0; i<n; ++i)] loop. *)
Definition upto (n : Index) : list Index := map Z.of_nat (seq 0 (Z.to_nat n)).

(** ** The grid locator: [find_new_grid_in_old_grid] *)

(** The frequency difference the locator tolerates, 1 Hz. *)
Definition tolerance : Numeric := 1%Q.

(** [abs(x - o) > tolerance] *)
Definition off_grid (x o : Numeric) : bool :=
  negb (Qle_bool (Qabs (x - o)) tolerance).

(** The inner [while] loop for one new frequency [x].  [j] is the old grid
    position the scan stands at and [rest] is the old grid from position [j]
    on, so the head of [rest] is [old_grid[j]].  The loop reads
    [old_grid[j]] before it tests anything, and tests [j >= n_old_grid] only
    after an increment. *)
Fixpoint seek (x : Numeric) (j : Index) (rest : list Numeric)
  : result (Index * list Numeric) :=
  match rest with
  | [] => Fault
  | o :: rest' =>
      if off_grid x o
      then match rest' with
           | [] => Err GridPointNotFound
           | _ :: _ => seek x (j + 1) rest'
           end
      else Ok (j, rest)
  end.

(** The outer [for] loop over the new grid; [j] is kept from one new
    frequency to the next. *)
Fixpoint locate (new_grid : list Numeric) (j : Index) (rest : list Numeric)
  : result (list Index) :=
  match new_grid with
  | [] => Ok []
  | x :: new_grid' =>
      ' (j', rest') <- seek x j rest ;;
      pos <- locate new_grid' j' rest' ;;
      Ok (j' :: pos)
  end.

Definition find_new_grid_in_old_grid (old_grid new_grid : list Numeric)
  : result (list Index) :=
  locate new_grid 0 old_grid.

(** ** Monadic loops *)

Fixpoint mapM {A B : Type} (f : A -> result B) (l : list A) : result (list B) :=
  match l with
  | [] => Ok []
  | a :: l' => b <- f a ;; bs <- mapM f l' ;; Ok (b :: bs)
  end.

Fixpoint foldM {A S : Type} (f : S -> A -> result S) (l : list A) (s : S)
  : result S :=
  match l with
  | [] => Ok s
  | a :: l' => s' <- f s a ;; foldM f l' s'
  end.

(** ** Vectors, matrices and tensors

    A [Vector] is a list.  A [Matrix] and a [Tensor4] carry their extents and
    an element function; only positions inside the extents are ever read. *)

Abbreviation Vector := (list Numeric) (only parsing).
Abbreviation ArrayOfIndex := (list Index) (only parsing).

Record Matrix : Type := {
  m_nrows : Index;
  m_ncols : Index;
  m_get : Index -> Index -> Numeric
}.

Record Tensor4 : Type := {
  nbooks : Index;
  npages : Index;
  nrows : Index;
  ncols : Index;
  t4_get : Index -> Index -> Index -> Index -> Numeric
}.

(** [0 <= i < n] *)
Definition in_range (i n : Index) : bool := (0 <=? i) && (i <? n).

(** [Range(start, extent)] stays inside an axis of [n] elements. *)
Definition range_fits (start extent n : Index) : bool :=
  (0 <=? start) && (0 <=? extent) && (start + extent <=? n).

(** [m(r, c)] *)
Definition mat_elem (m : Matrix) (r c : Index) : result Numeric :=
  if in_range r (m_nrows m) && in_range c (m_ncols m)
  then Ok (m_get m r c) else Fault.

(** [is_size(m, r, c)] and [is_size(t, b, p, r, c)] *)
Definition is_size2 (m : Matrix) (r c : Index) : bool :=
  (m_nrows m =? r) && (m_ncols m =? c).

Definition is_size4 (t : Tensor4) (b p r c : Index) : bool :=
  (nbooks t =? b) && (npages t =? p) && (nrows t =? r) && (ncols t =? c).

(** A default constructed (empty) matrix and tensor, and [resize]. *)
Definition empty_matrix : Matrix :=
  {| m_nrows := 0; m_ncols := 0; m_get := fun _ _ => 0%Q |}.

Definition empty_tensor4 : Tensor4 :=
  {| nbooks := 0; npages := 0; nrows := 0; ncols := 0;
     t4_get := fun _ _ _ _ => 0%Q |}.

Definition matrix_resize (r c : Index) : result Matrix :=
  _ <- assert ((0 <=? r) && (0 <=? c)) ;;
  Ok {| m_nrows := r; m_ncols := c; m_get := fun _ _ => 0%Q |}.

Definition tensor4_resize (b p r c : Index) : result Tensor4 :=
  _ <- assert ((0 <=? b) && (0 <=? p) && (0 <=? r) && (0 <=? c)) ;;
  Ok {| nbooks := b; npages := p; nrows := r; ncols := c;
        t4_get := fun _ _ _ _ => 0%Q |}.

(** [x[i] = a] on an array. *)
Fixpoint replace_nth {A : Type} (l : list A) (k : nat) (a : A) : list A :=
  match l, k with
  | [], _ => []
  | _ :: l', O => a :: l'
  | b :: l', S k' => b :: replace_nth l' k' a
  end.

Definition store {A : Type} (l : list A) (i : Index) (a : A) : result (list A) :=
  if in_range i (nelem l) then Ok (replace_nth l (Z.to_nat i) a) else Fault.

(** ** Species tags *)

(** Modelled from the spec: the species identifiers.  [abs_species_tags.h] is
    not among the sources; tag parsing and naming are outside the core.  A tag
    names a species of the species database and one of its variants; a table
    species is a group of tags, and two groups are the same species when they
    are equal. *)
Record SpeciesTag : Type := {
  Species : Index;
  Isotopologue : Index
}.

Abbreviation ArrayOfSpeciesTag := (list SpeciesTag) (only parsing).
Abbreviation ArrayOfArrayOfSpeciesTag := (list ArrayOfSpeciesTag) (only parsing).

Definition SpeciesTag_eq_dec (a b : SpeciesTag) : {a = b} + {a <> b}.
Proof. decide equality; apply Z.eq_dec. Defined.

Definition tag_group_eq_dec (a b : ArrayOfSpeciesTag) : {a = b} + {a <> b} :=
  list_eq_dec SpeciesTag_eq_dec a b.

(** Modelled from the spec: [find_first_species_tg] of [abs_species_tags.cc],
    which is not among the sources.  The humidity reference species is found
    by species identity: the position of the first tag group whose leading
    tag is of species [spec], or [-1]. *)
Fixpoint find_first_from (tgs : ArrayOfArrayOfSpeciesTag) (spec i : Index)
  : Index :=
  match tgs with
  | [] => -1
  | g :: tgs' =>
      match g with
      | t :: _ => if Species t =? spec then i else find_first_from tgs' spec (i + 1)
      | [] => find_first_from tgs' spec (i + 1)
      end
  end.

Definition find_first_species_tg (tgs : ArrayOfArrayOfSpeciesTag) (spec : Index)
  : Index :=
  find_first_from tgs spec 0.

(** ** The input checks of [check_input.cc] and [logic.cc]

    These files are not among the sources; each check is modelled from the
    way Adapt uses it and from the specification. *)

(** Modelled from the spec: [is_unique], no value occurs twice. *)
Fixpoint is_unique (x : ArrayOfIndex) : bool :=
  match x with
  | [] => true
  | a :: x' => negb (existsb (Z.eqb a) x') && is_unique x'
  end.

(** Modelled from the spec: [chk_if_in_range(name, x, low, high)], with both
    ends allowed. *)
Definition chk_if_in_range (x low high : Index) : result unit :=
  throw_if (negb ((low <=? x) && (x <=? high))) NonlinearSpeciesOutOfRange.

(** [x > y] and [x < y] on [Numeric]. *)
Definition Qgtb (x y : Numeric) : bool := negb (Qle_bool x y).
Definition Qltb (x y : Numeric) : bool := negb (Qle_bool y x).

(** Modelled from the spec: [is_increasing] and [is_decreasing], strict. *)
Fixpoint is_increasing (x : Vector) : bool :=
  match x with
  | [] => true
  | a :: x' =>
      match x' with
      | [] => true
      | b :: _ => Qgtb b a && is_increasing x'
      end
  end.

Fixpoint is_decreasing (x : Vector) : bool :=
  match x with
  | [] => true
  | a :: x' =>
      match x' with
      | [] => true
      | b :: _ => Qltb b a && is_decreasing x'
      end
  end.

Definition chk_if_increasing (x : Vector) : result unit :=
  throw_if (negb (is_increasing x)) GridNotIncreasing.

Definition chk_if_decreasing (x : Vector) : result unit :=
  throw_if (negb (is_decreasing x)) GridNotDecreasing.

(** Modelled from the spec: [chk_matrix_nrows], [chk_matrix_ncols],
    [chk_vector_length] and [chk_size], exact extents. *)
Definition chk_matrix_nrows (m : Matrix) (n : Index) : result unit :=
  throw_if (negb (m_nrows m =? n)) ReferenceShapeMismatch.

Definition chk_matrix_ncols (m : Matrix) (n : Index) : result unit :=
  throw_if (negb (m_ncols m =? n)) ReferenceShapeMismatch.

Definition chk_vector_length (x : Vector) (n : Index) : result unit :=
  throw_if (negb (nelem x =? n)) ReferenceShapeMismatch.

Definition chk_size (t : Tensor4) (a b c d : Index) : result unit :=
  throw_if (negb (is_size4 t a b c d)) ShapeMismatch.

(** Modelled from the spec: [chk_contains], which by the comment in Adapt
    "throws a runtime error if the species is not found exactly once".
    [find_all] collects the positions of [what] in [x]. *)
Fixpoint find_all (x : ArrayOfArrayOfSpeciesTag) (what : ArrayOfSpeciesTag)
  (i : Index) : ArrayOfIndex :=
  match x with
  | [] => []
  | g :: x' =>
      if tag_group_eq_dec g what
      then i :: find_all x' what (i + 1)
      else find_all x' what (i + 1)
  end.

Definition chk_contains (x : ArrayOfArrayOfSpeciesTag) (what : ArrayOfSpeciesTag)
  : result Index :=
  match find_all x what 0 with
  | [] => Err SpeciesNotFound
  | [i] => Ok i
  | _ :: _ :: _ => Err SpeciesNotUnique
  end.

(** ** The lookup table *)

(** A grid position for polynomial interpolation: the [order+1] grid indices
    used and their weights. *)
Record GridPosPoly : Type := {
  idx : ArrayOfIndex;
  w : Vector
}.

(** The routines and constants the two operations take from files that are
    not among the sources: [log] of [<cmath>], the Boltzmann constant of
    [constants.cc], the species database index of "H2O", and [gridpos_poly]
    of [interpolation_poly.cc], which may itself stop on an assertion. *)
Record Externals : Type := {
  log : Numeric -> Numeric;
  BOLTZMAN_CONST : Numeric;
  h2o_species : Index;
  gridpos_poly : Vector -> Numeric -> Index -> result GridPosPoly
}.

Record GasAbsLookup : Type := {
  species : ArrayOfArrayOfSpeciesTag;
  nonlinear_species : ArrayOfIndex;
  f_grid : Vector;
  p_grid : Vector;
  log_p_grid : Vector;
  vmrs_ref : Matrix;
  t_ref : Vector;
  t_pert : Vector;
  nls_pert : Vector;
  xsec : Tensor4
}.

(** ** Adapt *)

(** [ArrayOfIndex non_linear(n_species,0);] followed by
    [non_linear[nonlinear_species[s]] = 1] for every [s]. *)
Definition flag_nonlinear (n_species : Index) (nls : ArrayOfIndex)
  : result ArrayOfIndex :=
  foldM (fun non_linear s => store non_linear s 1) nls
        (repeat 0 (Z.to_nat n_species)).

(** The three legal shapes of [xsec]. *)
Definition chk_xsec (self : GasAbsLookup) : result unit :=
  let n_species := nelem (species self) in
  let n_nls := nelem (nonlinear_species self) in
  let n_nls_pert := nelem (nls_pert self) in
  let n_f_grid := nelem (f_grid self) in
  let n_p_grid := nelem (p_grid self) in
  if 0 =? n_nls
  then
    if 0 =? nelem (t_pert self)
    then chk_size (xsec self) 1 n_species n_f_grid n_p_grid
    else chk_size (xsec self) (nelem (t_pert self)) n_species n_f_grid n_p_grid
  else
    let a := nelem (t_pert self) in
    let b := n_species + n_nls * (n_nls_pert - 1) in
    let c := n_f_grid in
    let d := n_p_grid in
    chk_size (xsec self) a b c d.

(** The checks on the lookup table itself, in the order of the source. *)
Definition chk_table (self : GasAbsLookup) : result unit :=
  let n_species := nelem (species self) in
  let n_nls := nelem (nonlinear_species self) in
  let n_nls_pert := nelem (nls_pert self) in
  let n_p_grid := nelem (p_grid self) in
  _ <- throw_if (0 =? n_species) EmptySpeciesTable ;;
  _ <- throw_if (negb (is_unique (nonlinear_species self)))
                DuplicateNonlinearSpecies ;;
  _ <- mapM (fun x => chk_if_in_range x 0 (n_species - 1))
            (nonlinear_species self) ;;
  _ <- chk_if_increasing (f_grid self) ;;
  _ <- chk_if_decreasing (p_grid self) ;;
  _ <- chk_matrix_nrows (vmrs_ref self) n_species ;;
  _ <- chk_matrix_ncols (vmrs_ref self) n_p_grid ;;
  _ <- chk_vector_length (t_ref self) n_p_grid ;;
  _ <- (if 0 =? n_nls
        then chk_vector_length (nls_pert self) 0
        else throw_if (0 =? n_nls_pert) HumidityPerturbationsMissing) ;;
  chk_xsec self.

(** [original_spec_pos_in_xsec]: one scan over the species, the running
    position [sp] advancing by [n_nls_pert] after a nonlinear species and by
    one after any other. *)
Fixpoint spec_pos_in_xsec (non_linear : ArrayOfIndex) (n_nls_pert sp : Index)
  : ArrayOfIndex :=
  match non_linear with
  | [] => []
  | f :: non_linear' =>
      sp :: spec_pos_in_xsec non_linear' n_nls_pert
              (if f =? 0 then sp + 1 else sp + n_nls_pert)
  end.

(** The positions [i] with [current_non_linear[i]] set, as pushed back onto
    [new_table.nonlinear_species]. *)
Fixpoint flagged_from (current_non_linear : ArrayOfIndex) (i : Index)
  : ArrayOfIndex :=
  match current_non_linear with
  | [] => []
  | f :: current_non_linear' =>
      if f =? 0 then flagged_from current_non_linear' (i + 1)
      else i :: flagged_from current_non_linear' (i + 1)
  end.

(** [new(i, joker) = old(k, joker)] *)
Definition copy_row (old : Matrix) (k : Index) (new : Matrix) (i : Index)
  : result Matrix :=
  _ <- assert (in_range i (m_nrows new) && in_range k (m_nrows old)
               && (m_ncols new =? m_ncols old)) ;;
  Ok {| m_nrows := m_nrows new; m_ncols := m_ncols new;
        m_get := fun r c => if r =? i then m_get old k c else m_get new r c |}.

(** [new(joker, Range(sp,n_v), i_f, joker) = old(joker, Range(src,n_v), j, joker)] *)
Definition copy_pages (old : Tensor4) (src j : Index)
  (new : Tensor4) (sp n_v i_f : Index) : result Tensor4 :=
  _ <- assert (range_fits sp n_v (npages new) && in_range i_f (nrows new)
               && range_fits src n_v (npages old) && in_range j (nrows old)
               && (nbooks new =? nbooks old) && (ncols new =? ncols old)) ;;
  Ok {| nbooks := nbooks new; npages := npages new;
        nrows := nrows new; ncols := ncols new;
        t4_get := fun b p r c =>
          if (r =? i_f) && (sp <=? p) && (p <? sp + n_v)
          then t4_get old b (src + (p - sp)) j c
          else t4_get new b p r c |}.

(** The loop "Do species" with its inner loop "Do frequencies"; the state is
    the running position [sp] and the tensor built so far. *)
Definition copy_xsec (old : Tensor4) (n_nls_pert : Index)
  (original_spec_pos_in_xsec i_current_species current_non_linear
     i_current_f_grid : ArrayOfIndex)
  (new : Tensor4) : result (Index * Tensor4) :=
  foldM (fun '(sp, new) i_s =>
           cnl <- elem current_non_linear i_s ;;
           let n_v := if cnl =? 0 then 1 else n_nls_pert in
           new' <- foldM (fun new i_f =>
                            k <- elem i_current_species i_s ;;
                            src <- elem original_spec_pos_in_xsec k ;;
                            j <- elem i_current_f_grid i_f ;;
                            copy_pages old src j new sp n_v i_f)
                         (upto (nelem i_current_f_grid)) new ;;
           Ok (sp + n_v, new'))
        (upto (nelem i_current_species)) (0, new).

(** Everything Adapt does before it touches the table it is called on: the
    checks, the index lists and the local [new_table]. *)
Definition Adapt_new_table (self : GasAbsLookup)
  (current_species : ArrayOfArrayOfSpeciesTag) (current_f_grid : Vector)
  : result GasAbsLookup :=
  let n_current_species := nelem current_species in
  let n_current_f_grid := nelem current_f_grid in
  let n_species := nelem (species self) in
  let n_nls_pert := nelem (nls_pert self) in
  let n_p_grid := nelem (p_grid self) in
  non_linear <- flag_nonlinear n_species (nonlinear_species self) ;;
  _ <- chk_table self ;;
  let original_spec_pos_in_xsec := spec_pos_in_xsec non_linear n_nls_pert 0 in
  _ <- throw_if (0 =? n_current_species) EmptySpeciesRequest ;;
  _ <- chk_if_increasing current_f_grid ;;
  (* 1. the current species in the table *)
  i_current_species <- mapM (chk_contains (species self)) current_species ;;
  (* 1a. which of them are nonlinear *)
  current_non_linear <-
    mapM (fun k => f <- elem non_linear k ;; Ok (if f =? 0 then 0 else 1))
         i_current_species ;;
  let n_current_nonlinear_species :=
    nelem (filter (fun f => negb (f =? 0)) current_non_linear) in
  (* 2. the current frequencies in the table *)
  i_current_f_grid <- find_new_grid_in_old_grid (f_grid self) current_f_grid ;;
  (* 3. the new table *)
  new_species <- mapM (elem (species self)) i_current_species ;;
  let new_nonlinear_species := flagged_from current_non_linear 0 in
  new_f_grid <- mapM (elem (f_grid self)) i_current_f_grid ;;
  new_vmrs_ref0 <- matrix_resize n_current_species n_p_grid ;;
  new_vmrs_ref <-
    foldM (fun new i => k <- elem i_current_species i ;;
                        copy_row (vmrs_ref self) k new i)
          (upto n_current_species) new_vmrs_ref0 ;;
  let new_nls_pert :=
    if 0 =? nelem new_nonlinear_species then [] else nls_pert self in
  new_xsec0 <-
    tensor4_resize (nbooks (xsec self))
                   (n_current_species
                    + n_current_nonlinear_species * (n_nls_pert - 1))
                   n_current_f_grid
                   (ncols (xsec self)) ;;
  ' (_, new_xsec) <-
    copy_xsec (xsec self) n_nls_pert original_spec_pos_in_xsec
              i_current_species current_non_linear i_current_f_grid
              new_xsec0 ;;
  Ok {| species := new_species;
        nonlinear_species := new_nonlinear_species;
        f_grid := new_f_grid;
        p_grid := p_grid self;
        log_p_grid := [];
        vmrs_ref := new_vmrs_ref;
        t_ref := t_ref self;
        t_pert := t_pert self;
        nls_pert := new_nls_pert;
        xsec := new_xsec |}.

(** 5. [log_p_grid.resize(n_p_grid); transform(log_p_grid, log, p_grid);] *)
Definition init_log_p_grid (ext : Externals) (self : GasAbsLookup)
  : GasAbsLookup :=
  {| species := species self;
     nonlinear_species := nonlinear_species self;
     f_grid := f_grid self;
     p_grid := p_grid self;
     log_p_grid := map (log ext) (p_grid self);
     vmrs_ref := vmrs_ref self;
     t_ref := t_ref self;
     t_pert := t_pert self;
     nls_pert := nls_pert self;
     xsec := xsec self |}.

(** Adapt as a method: from the table it is called on to the outcome and the
    table afterwards.  Every [throw] comes before the assignment
    [*this = new_table] of step 4.  With the outcome [Fault] the run is not
    followed to its end: the table given with it is the one the run started
    from, a placeholder and not a statement about the table afterwards. *)
Definition Adapt (ext : Externals)
  (current_species : ArrayOfArrayOfSpeciesTag) (current_f_grid : Vector)
  (self : GasAbsLookup) : result unit * GasAbsLookup :=
  match Adapt_new_table self current_species current_f_grid with
  | Ok new_table =>
      let self := new_table in           (* 4. *this = new_table *)
      let self := init_log_p_grid ext self in
      (Ok tt, self)
  | Err e => (Err e, self)
  | Fault => (Fault, self)
  end.

(** ** Extract *)

(** [number_density] of [physics_funcs.cc], by the comment at its call:
    "n = p/kB/t, ideal gas law". *)
Definition number_density (ext : Externals) (p t : Numeric) : Numeric :=
  (p / BOLTZMAN_CONST ext / t)%Q.

(** Modelled from the spec: [interpweights] of [interpolation_poly.cc] for
    one grid position (the weights themselves) and for two (the tensor
    product of the weights, row index slowest).  [n] is the size [itw] was
    given by [resize]. *)
Definition interpweights1 (n : Index) (tc : GridPosPoly) : result Vector :=
  _ <- assert ((0 <=? n) && (nelem (w tc) =? n)) ;;
  Ok (w tc).

Definition interpweights2 (n : Index) (tr tc : GridPosPoly) : result Vector :=
  _ <- assert ((0 <=? n) && (nelem (w tr) * nelem (w tc) =? n)) ;;
  Ok (flat_map (fun wr => map (fun wc => (wr * wc)%Q) (w tc)) (w tr)).

(** [ArrayOfGridPosPoly tgp(1);] before any [gridpos_poly] call. *)
Definition empty_gridpos : GridPosPoly := {| idx := []; w := [] |}.

(** 2. and 3.: the checks on the table and on the input; returns
    [h2o_index]. *)
Definition Extract_checks (ext : Externals) (self : GasAbsLookup)
  (p_interp_order t_interp_order h2o_interp_order : Index)
  (abs_vmrs : Vector) : result Index :=
  let n_species := nelem (species self) in
  let n_nls := nelem (nonlinear_species self) in
  let n_f_grid := nelem (f_grid self) in
  let n_p_grid := nelem (p_grid self) in
  let n_t_pert := nelem (t_pert self) in
  let n_nls_pert := nelem (nls_pert self) in
  h2o_index <-
    (if (0 <? n_nls)
     then
       let h := find_first_species_tg (species self) (h2o_species ext) in
       _ <- throw_if (h =? -1) NoHumidityReferenceSpecies ;;
       Ok h
     else Ok (-1)) ;;
  _ <- assert (is_size2 (vmrs_ref self) n_species n_p_grid) ;;
  _ <- assert (nelem (t_ref self) =? n_p_grid) ;;
  _ <- (let a := if (0 =? n_t_pert) then 1 else n_t_pert in
        let b := (n_species + n_nls * (n_nls_pert - 1)) in
        let c := n_f_grid in
        let d := n_p_grid in
        assert (is_size4 (xsec self) a b c d)) ;;
  _ <- throw_if (negb (nelem (log_p_grid self) =? n_p_grid)) TableNotAdapted ;;
  _ <- throw_if (n_p_grid <? p_interp_order + 1) InsufficientGridForOrder ;;
  _ <- throw_if (negb (n_nls_pert =? 0)
                 && (n_nls_pert <? h2o_interp_order + 1))
                InsufficientGridForOrder ;;
  _ <- throw_if (negb (n_t_pert =? 0)
                 && (n_t_pert <? t_interp_order + 1))
                InsufficientGridForOrder ;;
  _ <- throw_if (negb (nelem abs_vmrs =? n_species)) DimensionMismatch ;;
  Ok h2o_index.

(** 4. the start and extent of the frequency loop. *)
Definition frequency_range (n_f_grid f_index : Index) : result (Index * Index) :=
  if (f_index <? 0)
  then Ok (0, n_f_grid)
  else
    _ <- throw_if (n_f_grid <=? f_index) IndexOutOfRange ;;
    Ok (f_index, 1).

(** 5. [p] against the pressure grid, which is sorted in decreasing order. *)
Definition pressure_range_check (p_grid : Vector) (p : Numeric) : result unit :=
  let n_p_grid := nelem p_grid in
  p_0 <- elem p_grid 0 ;;
  p_1 <- elem p_grid 1 ;;
  let p_max := (p_0 + 0.5 * (p_0 - p_1))%Q in
  p_last <- elem p_grid (n_p_grid - 1) ;;
  p_before <- elem p_grid (n_p_grid - 2) ;;
  let p_min := (p_last - 0.5 * (p_before - p_last))%Q in
  throw_if (Qgtb p p_max || Qltb p p_min) PressureOutOfRange.

(** The check of a temperature offset against [t_pert] and of a fractional
    VMR against [nls_pert]; the two blocks of the source differ in their
    names and messages only. *)
Definition perturbation_range_check (pert : Vector) (x : Numeric) (e : Error)
  : result unit :=
  let n_pert := nelem pert in
  x_0 <- elem pert 0 ;;
  x_1 <- elem pert 1 ;;
  let x_min := (x_0 - 0.5 * (x_1 - x_0))%Q in
  x_last <- elem pert (n_pert - 1) ;;
  x_before <- elem pert (n_pert - 2) ;;
  let x_max := (x_last + 0.5 * (x_last - x_before))%Q in
  throw_if (Qgtb x x_max || Qltb x x_min) e.

(** The temperature grid position at one pressure level. *)
Definition temperature_position (ext : Externals) (self : GasAbsLookup)
  (t_interp_order : Index) (T : Numeric) (this_p_grid_index : Index)
  : result GridPosPoly :=
  if (nelem (t_pert self) =? 0) then Ok empty_gridpos
  else
    effective_T_ref <- elem (t_ref self) this_p_grid_index ;;
    let T_offset := (T - effective_T_ref)%Q in
    _ <- perturbation_range_check (t_pert self) T_offset TemperatureOutOfRange ;;
    gridpos_poly ext (t_pert self) T_offset t_interp_order.

(** The H2O VMR grid position at one pressure level. *)
Definition humidity_position (ext : Externals) (self : GasAbsLookup)
  (h2o_interp_order h2o_index : Index) (abs_vmrs : Vector)
  (this_p_grid_index : Index) : result GridPosPoly :=
  if (0 <? nelem (nonlinear_species self))
  then
    effective_vmr_ref <- mat_elem (vmrs_ref self) h2o_index this_p_grid_index ;;
    vmr_h2o <- elem abs_vmrs h2o_index ;;
    let VMR_frac := (vmr_h2o / effective_vmr_ref)%Q in
    _ <- perturbation_range_check (nls_pert self) VMR_frac HumidityOutOfRange ;;
    gridpos_poly ext (nls_pert self) VMR_frac h2o_interp_order
  else Ok empty_gridpos.

(** A view [xsec(joker, Range(fpi,n_pages), Range(f_start,f_extent), col)]
    and the read of its element [(b, p, f)]. *)
Definition view_fits (xs : Tensor4) (fpi n_pages f_start f_extent col : Index)
  : bool :=
  range_fits fpi n_pages (npages xs) && range_fits f_start f_extent (nrows xs)
  && in_range col (ncols xs).

Definition view_elem (xs : Tensor4) (fpi n_pages f_start f_extent col : Index)
  (b p f : Index) : result Numeric :=
  if in_range b (nbooks xs) && in_range p n_pages && in_range f f_extent
  then Ok (t4_get xs b (fpi + p) (f_start + f) col)
  else Fault.

(** [res = 0] *)
Definition zeros (n : Index) : Vector := repeat 0%Q (Z.to_nat n).

(** [for (f...) res[f] += itw[iti] * col(f)] *)
Definition add_weighted (itw : Vector) (iti : Index)
  (col : Index -> result Numeric) (res : Vector) : result Vector :=
  mapM (fun '(f, r) =>
          wgt <- elem itw iti ;;
          v <- col f ;;
          Ok (r + wgt * v)%Q)
       (combine (upto (nelem res)) res).

(** 8. the interpolation in T and VMR for one species at one pressure level:
    the four handlers.  [fpi] is the first page of the species in [xsec]. *)
Definition interpolate_species (self : GasAbsLookup)
  (t_interp_order h2o_interp_order f_start f_extent : Index)
  (tgp vgp : GridPosPoly) (this_p_grid_index fpi do_VMR : Index)
  : result Vector :=
  let xs := xsec self in
  let n_nls_pert := nelem (nls_pert self) in
  let do_T := nelem (t_pert self) in
  if negb (do_T =? 0)
  then
    if negb (do_VMR =? 0)
    then
      (* with T and VMR *)
      itw <- interpweights2 ((t_interp_order + 1) * (h2o_interp_order + 1)) tgp vgp ;;
      _ <- assert (view_fits xs fpi n_nls_pert f_start f_extent this_p_grid_index) ;;
      ' (_, res) <-
        foldM (fun st r =>
                 foldM (fun '(iti, res) c =>
                          res' <- add_weighted itw iti
                                    (fun f =>
                                       b <- elem (idx tgp) r ;;
                                       p <- elem (idx vgp) c ;;
                                       view_elem xs fpi n_nls_pert f_start
                                                 f_extent this_p_grid_index b p f)
                                    res ;;
                          Ok ((iti + 1), res'))
                       (upto (h2o_interp_order + 1)) st)
              (upto (t_interp_order + 1)) (0, zeros f_extent) ;;
      Ok res
    else
      (* with T, no VMR *)
      itw <- interpweights1 (t_interp_order + 1) tgp ;;
      _ <- assert (view_fits xs fpi 1 f_start f_extent this_p_grid_index) ;;
      ' (_, res) <-
        foldM (fun '(iti, res) r =>
                 res' <- add_weighted itw iti
                           (fun f =>
                              b <- elem (idx tgp) r ;;
                              view_elem xs fpi 1 f_start f_extent
                                        this_p_grid_index b 0 f)
                           res ;;
                 Ok ((iti + 1), res'))
              (upto (t_interp_order + 1)) (0, zeros f_extent) ;;
      Ok res
  else
    if negb (do_VMR =? 0)
    then
      (* no T, with VMR *)
      itw <- interpweights1 (h2o_interp_order + 1) vgp ;;
      _ <- assert (in_range 0 (nbooks xs)
                   && view_fits xs fpi n_nls_pert f_start f_extent
                                this_p_grid_index) ;;
      ' (_, res) <-
        foldM (fun '(iti, res) c =>
                 res' <- add_weighted itw iti
                           (fun f =>
                              p <- elem (idx vgp) c ;;
                              view_elem xs fpi n_nls_pert f_start f_extent
                                        this_p_grid_index 0 p f)
                           res ;;
                 Ok ((iti + 1), res'))
              (upto (h2o_interp_order + 1)) (0, zeros f_extent) ;;
      Ok res
    else
      (* no T, no VMR: a plain copy *)
      _ <- assert (in_range 0 (nbooks xs)
                   && view_fits xs fpi 1 f_start f_extent this_p_grid_index) ;;
      mapM (fun f => view_elem xs fpi 1 f_start f_extent this_p_grid_index 0 0 f)
           (upto f_extent).

(** 7. the loop over the species at one pressure level; the state is [fpi]
    and the results so far, one vector over the frequencies per species. *)
Definition species_loop (self : GasAbsLookup)
  (t_interp_order h2o_interp_order f_start f_extent : Index)
  (non_linear : ArrayOfIndex) (tgp vgp : GridPosPoly)
  (this_p_grid_index : Index) : result (list Vector) :=
  ' (fpi, plane) <-
    foldM (fun '(fpi, plane) si =>
             do_VMR <- elem non_linear si ;;
             res <- interpolate_species self t_interp_order h2o_interp_order
                      f_start f_extent tgp vgp this_p_grid_index fpi do_VMR ;;
             Ok ((if negb (do_VMR =? 0)
                  then fpi + nelem (nls_pert self) else fpi + 1),
                 plane ++ [res]))
          (upto (nelem (species self))) (0, []) ;;
  _ <- assert (fpi =? npages (xsec self)) ;;
  Ok plane.

(** 6. one pressure level of the pressure interpolation. *)
Definition level (ext : Externals) (self : GasAbsLookup)
  (t_interp_order h2o_interp_order f_start f_extent h2o_index : Index)
  (T : Numeric) (abs_vmrs : Vector) (non_linear : ArrayOfIndex)
  (pgp : GridPosPoly) (pi : Index) : result (list Vector) :=
  this_p_grid_index <- elem (idx pgp) pi ;;
  tgp <- temperature_position ext self t_interp_order T this_p_grid_index ;;
  vgp <- humidity_position ext self h2o_interp_order h2o_index abs_vmrs
                           this_p_grid_index ;;
  species_loop self t_interp_order h2o_interp_order f_start f_extent
               non_linear tgp vgp this_p_grid_index.

(** The pressure interpolation and the final scaling: element [(f, si)] of
    [sga].  [sga] starts at zero, every level is multiplied by its weight and
    added, and the column of species [si] is multiplied by [n * abs_vmrs[si]].
    [pre] holds, per level and per species, the vector over the frequencies;
    its extents are those given by [resize], so the reads stay inside. *)
Definition sga_elem (pre : list (list Vector)) (pitw : Vector) (n : Numeric)
  (abs_vmrs : Vector) (f si : Index) : Numeric :=
  (fold_left (fun acc '(plane, wgt) =>
               (acc + nth (Z.to_nat f) (nth (Z.to_nat si) plane []) 0 * wgt)%Q)
            (combine pre pitw) 0%Q
  * (n * nth (Z.to_nat si) abs_vmrs 0))%Q.

Definition Extract (ext : Externals) (self : GasAbsLookup)
  (p_interp_order t_interp_order h2o_interp_order f_index : Index)
  (p T : Numeric) (abs_vmrs : Vector) : result Matrix :=
  let n_species := nelem (species self) in
  let n_f_grid := nelem (f_grid self) in
  h2o_index <- Extract_checks ext self p_interp_order t_interp_order
                              h2o_interp_order abs_vmrs ;;
  ' (f_start, f_extent) <- frequency_range n_f_grid f_index ;;
  non_linear <- flag_nonlinear n_species (nonlinear_species self) ;;
  let n := number_density ext p T in
  _ <- pressure_range_check (p_grid self) p ;;
  pgp <- gridpos_poly ext (log_p_grid self) (log ext p) p_interp_order ;;
  pitw <- interpweights1 (p_interp_order + 1) pgp ;;
  pre <- mapM (level ext self t_interp_order h2o_interp_order f_start f_extent
                     h2o_index T abs_vmrs non_linear pgp)
              (upto (p_interp_order + 1)) ;;
  Ok {| m_nrows := f_extent;
        m_ncols := n_species;
        m_get := sga_elem pre pitw n abs_vmrs |}.

(** The accessors. *)
Definition GetFgrid (self : GasAbsLookup) : Vector := f_grid self.
Definition GetPgrid (self : GasAbsLookup) : Vector := p_grid self.

(** ** A reference instance of the external routines

    Used to run the operations on concrete tables. *)

Section ReferenceInstance.

Local Open Scope Q_scope.

(** The grid interval [x] falls into, for a grid sorted either way: the
    number of inner grid points not beyond [x]. *)
Definition passed (ascending : bool) (x g : Numeric) : bool :=
  if ascending then Qle_bool g x else Qle_bool x g.

Definition interval (grid : Vector) (x : Numeric) : Index :=
  match grid with
  | g0 :: g1 :: _ =>
      let inner := removelast (tl grid) in
      nelem (filter (passed (Qle_bool g0 g1) x) inner)
  | _ => 0%Z
  end.

(** The Lagrange weight of point [i] among the points [pts] at [x]. *)
Definition lagrange_weight (pts : Vector) (x : Numeric) (i : nat) : Numeric :=
  let xi := nth i pts 0 in
  let others := firstn i pts ++ skipn (S i) pts in
  fold_left (fun acc g => acc * (x - g)) others 1
  / fold_left (fun acc g => acc * (xi - g)) others 1.

(** Modelled from the spec: [gridpos_poly] of [interpolation_poly.cc],
    which is not among the sources.  Local polynomial interpolation of the
    given order: [order+1] consecutive grid points bracketing [x], with
    their Lagrange weights; at order 0 the nearer end of the interval.  The
    grid needs at least [order+1] points. *)
Definition gridpos_poly_model (grid : Vector) (x : Numeric) (order : Index)
  : result GridPosPoly :=
  let m := (order + 1)%Z in
  let n_old := nelem grid in
  _ <- assert ((1 <=? m)%Z && (m <=? n_old)%Z) ;;
  let j := interval grid x in
  let j := if (m =? 1)%Z
              && Qltb (Qabs (x - nth (Z.to_nat (j + 1)) grid x))
                      (Qabs (x - nth (Z.to_nat j) grid x))
           then (j + 1)%Z else j in
  let k := Z.min (Z.max (j - (m - 1) / 2) 0) (n_old - m) in
  let pts := firstn (Z.to_nat m) (skipn (Z.to_nat k) grid) in
  Ok {| idx := map (fun i => (k + i)%Z) (upto m);
        w := map (lagrange_weight pts x) (seq 0 (Z.to_nat m)) |}.

(** A stand-in for [log] that keeps the order of its arguments. *)
Definition log_model (x : Numeric) : Numeric := x - 1.

Definition reference_externals : Externals :=
  {| log := log_model;
     BOLTZMAN_CONST := 1380662 # 100000000000000000000000000000;
     h2o_species := 0%Z;
     gridpos_poly := gridpos_poly_model |}.

End ReferenceInstance.

(** ** Tables to run the operations on *)

Definition tag_H2O : SpeciesTag := {| Species := 0; Isotopologue := 0 |}.
Definition tag_O3 : SpeciesTag := {| Species := 2; Isotopologue := 0 |}.
Definition tag_N2 : SpeciesTag := {| Species := 21; Isotopologue := 0 |}.

(** A table with a humidity axis and no temperature axis: one nonlinear
    species with one humidity perturbation, and [books] books in [xsec]. *)
Definition humidity_only_table (books : Index) : GasAbsLookup :=
  {| species := [[tag_H2O]];
     nonlinear_species := [0];
     f_grid := [100%Q];
     p_grid := [1000%Q];
     log_p_grid := [];
     vmrs_ref := {| m_nrows := 1; m_ncols := 1; m_get := fun _ _ => 0.01%Q |};
     t_ref := [250%Q];
     t_pert := [];
     nls_pert := [1%Q];
     xsec := {| nbooks := books; npages := 1; nrows := 1; ncols := 1;
                t4_get := fun _ _ _ _ => 1%Q |} |}.

(** An adapted table with a single pressure level and no optional axis. *)
Definition single_level_table (ext : Externals) : GasAbsLookup :=
  init_log_p_grid ext
    {| species := [[tag_O3]];
       nonlinear_species := [];
       f_grid := [100%Q];
       p_grid := [1000%Q];
       log_p_grid := [];
       vmrs_ref := {| m_nrows := 1; m_ncols := 1; m_get := fun _ _ => 0.01%Q |};
       t_ref := [250%Q];
       t_pert := [];
       nls_pert := [];
       xsec := {| nbooks := 1; npages := 1; nrows := 1; ncols := 1;
                  t4_get := fun _ _ _ _ => 1%Q |} |}.

(** A table with both optional axes: three species, the first one nonlinear,
    three frequencies, three pressure levels, three temperature and three
    humidity perturbations; [xsec] has 3 + 1 * (3 - 1) = 5 pages.  The
    coefficient at (b, p, r, c) is 1000 b + 100 p + 10 r + c. *)
Definition full_table : GasAbsLookup :=
  {| species := [[tag_H2O]; [tag_O3]; [tag_N2]];
     nonlinear_species := [0];
     f_grid := [100%Q; 200%Q; 300%Q];
     p_grid := [1000%Q; 500%Q; 100%Q];
     log_p_grid := [];
     vmrs_ref := {| m_nrows := 3; m_ncols := 3;
                    m_get := fun r c => (inject_Z (1 + r + c) / 100)%Q |};
     t_ref := [290%Q; 270%Q; 220%Q];
     t_pert := [(-10)%Q; 0%Q; 10%Q];
     nls_pert := [0.5%Q; 1%Q; 2%Q];
     xsec := {| nbooks := 3; npages := 5; nrows := 3; ncols := 3;
                t4_get := fun b p r c =>
                  inject_Z (1000 * b + 100 * p + 10 * r + c) |} |}.

(** [full_table] adapted to two of its species and two of its frequencies. *)
Definition adapted_table : GasAbsLookup :=
  snd (Adapt reference_externals [[tag_H2O]; [tag_O3]] [100.4%Q; 299.6%Q]
             full_table).

(** The table of the order-0 scenario: pressures 1000, 500 and 100 Pa, one
    species, no temperature and no humidity axis, and for every frequency
    [f] the coefficients [v0 f], [v1 f], [v2 f] at the three pressures.  The
    frequency grid and the reference profiles are left open. *)
Definition order0_table (ext : Externals) (sp : ArrayOfSpeciesTag)
  (fg : Vector) (vref : Index -> Index -> Numeric) (tr0 tr1 tr2 : Numeric)
  (v0 v1 v2 : Index -> Numeric) : GasAbsLookup :=
  init_log_p_grid ext
    {| species := [sp];
       nonlinear_species := [];
       f_grid := fg;
       p_grid := [1000%Q; 500%Q; 100%Q];
       log_p_grid := [];
       vmrs_ref := {| m_nrows := 1; m_ncols := 3; m_get := vref |};
       t_ref := [tr0; tr1; tr2];
       t_pert := [];
       nls_pert := [];
       xsec := {| nbooks := 1; npages := 1; nrows := nelem fg; ncols := 3;
                  t4_get := fun _ _ f k =>
                    nth (Z.to_nat k) [v0 f; v1 f; v2 f] 0%Q |} |}.

(** A table without any frequency: it passes every check Adapt makes on the
    table itself. *)
Definition no_frequency_table : GasAbsLookup :=
  {| species := [[tag_O3]];
     nonlinear_species := [];
     f_grid := [];
     p_grid := [1000%Q; 500%Q];
     log_p_grid := [];
     vmrs_ref := {| m_nrows := 1; m_ncols := 2; m_get := fun _ _ => 0.01%Q |};
     t_ref := [250%Q; 240%Q];
     t_pert := [];
     nls_pert := [];
     xsec := {| nbooks := 1; npages := 1; nrows := 0; ncols := 2;
                t4_get := fun _ _ _ _ => 1%Q |} |}.

(** ** The predicates the properties are stated with *)

(** [o] is within the tolerance of [x]. *)
Definition near (x o : Numeric) : Prop := (Qabs (x - o) <= 1)%Q.

(** A grid sorted in ascending order. *)
Definition ascending (grid : Vector) : Prop := StronglySorted Qle grid.

(** Positions that never step back: the scan is one forward pass. *)
Definition nondecreasing (pos : ArrayOfIndex) : Prop := StronglySorted Z.le pos.

(** A flag array of [n] entries, each 0 or 1, set exactly at [nls]. *)
Definition flags_of (n : Index) (nls flags : ArrayOfIndex) : Prop :=
  nelem flags = n
  /\ forall i, 0 <= i < n ->
       nth (Z.to_nat i) flags 0 = (if existsb (Z.eqb i) nls then 1 else 0).

(** [current_non_linear] from [non_linear] and the species positions. *)
Definition current_flags (non_linear i_current_species : ArrayOfIndex)
  : result ArrayOfIndex :=
  mapM (fun k => f <- elem non_linear k ;; Ok (if f =? 0 then 0 else 1))
       i_current_species.

(** The number of entries set in a flag array. *)
Definition count_set (flags : ArrayOfIndex) : Index :=
  nelem (filter (fun f => negb (f =? 0)) flags).

(** The first extent [chk_xsec] asks for: [t_pert.nelem()], except that a
    table without nonlinear species and without temperature perturbations
    has one book. *)
Definition expected_books (self : GasAbsLookup) : Index :=
  if (0 =? nelem (nonlinear_species self)) && (0 =? nelem (t_pert self))
  then 1 else nelem (t_pert self).

(** The second extent [chk_xsec] asks for: one page for each species and
    [n_nls_pert - 1] more for each nonlinear one. *)
Definition expected_pages (self : GasAbsLookup) : Index :=
  nelem (species self)
  + nelem (nonlinear_species self) * (nelem (nls_pert self) - 1).

(** The copy loops change no extent. *)
Definition same_extents (s t : Tensor4) : Prop :=
  nbooks s = nbooks t /\ npages s = npages t
  /\ nrows s = nrows t /\ ncols s = ncols t.

(** What [current_non_linear] holds: the flag of the table species each
    current species was found at. *)
Definition is_nonlinear (nls : ArrayOfIndex) (k : Index) : Index :=
  if existsb (Z.eqb k) nls then 1 else 0.

(** Invariant 5 of the data model: the extents of [coefficients] follow from
    the other fields of the same table. *)
Definition shape_invariant (t : GasAbsLookup) : Prop :=
  is_size4 (xsec t)
           (Z.max (nelem (t_pert t)) 1)
           (nelem (species t)
            + nelem (nonlinear_species t) * (nelem (nls_pert t) - 1))
           (nelem (f_grid t))
           (nelem (p_grid t)) = true.

(** The three configurations of the optional axes: none, temperature only,
    temperature and humidity. *)
Definition valid_configuration (t : GasAbsLookup) : Prop :=
  nelem (nonlinear_species t) = 0 \/ nelem (t_pert t) <> 0.

(** The bounds of the pressure check, from the grid spacing next to each
    end of the grid. *)
Definition p_max (p_grid : list Q) : Q :=
  (nth 0 p_grid 0 + 0.5 * (nth 0 p_grid 0 - nth 1 p_grid 0))%Q.

(** The lower bound, from the last two grid points. *)
Definition p_min (p_grid : list Q) : Q :=
  (nth (length p_grid - 1) p_grid 0
   - 0.5 * (nth (length p_grid - 2) p_grid 0
            - nth (length p_grid - 1) p_grid 0))%Q.

(** The reading of the specification: the same interval taken in log
    space, on the logarithms of the pressures. *)
Definition in_log_space_interval (p_grid : list Q) (p : Q) : Prop :=
  let l (k : nat) := ln (Q2R (nth k p_grid 0%Q)) in
  let n := length p_grid in
  (l (n - 1)%nat - / 2 * (l (n - 2)%nat - l (n - 1)%nat) <= ln (Q2R p)
   /\ ln (Q2R p) <= l 0%nat + / 2 * (l 0%nat - l 1%nat))%R.

(** A flag array holding only 0 and 1. *)
Definition binary (flags : list Z) : Prop :=
  Forall (fun f => f = 0 \/ f = 1) flags.

(** What a successful scan leaves between one new frequency and the next:
    the old grid value [v] the scan stands at either is the value the next
    new frequency [x] is matched to, or is off the grid for [x]. *)
Fixpoint chain (v : Q) (new_grid vals : list Q) : Prop :=
  match new_grid, vals with
  | x :: new_grid', v' :: vals' =>
      (v' = v \/ ~ near x v) /\ chain v' new_grid' vals'
  | _, _ => True
  end.

(** The same with every match on a later old grid point: no old grid
    point is matched twice. *)
Fixpoint strict_chain (v : Q) (new_grid vals : list Q) : Prop :=
  match new_grid, vals with
  | x :: new_grid', v' :: vals' => ~ near x v /\ strict_chain v' new_grid' vals'
  | _, _ => True
  end.

(** The running position of the species loop: one page for a species whose
    flag is not set, [n_pert] pages for one whose flag is set. *)
Definition advance (n_pert sp f : Z) : Z :=
  if f =? 0 then sp + 1 else sp + n_pert.

(** The position the species loop has reached before species [m]. *)
Definition pages_upto (flags : list Z) (n_pert : Z) (m : nat) : Z :=
  fold_left (advance n_pert) (firstn m flags) 0.

(** Two matrices, two tensors, two tables with the same content: equal
    extents, equal elements inside the extents, and all other fields equal. *)
Definition same_matrix (a b : Matrix) : Prop :=
  m_nrows a = m_nrows b /\ m_ncols a = m_ncols b
  /\ forall r c, 0 <= r < m_nrows a -> 0 <= c < m_ncols a ->
                 m_get a r c = m_get b r c.

(** The same for the four extents of a tensor. *)
Definition same_tensor4 (a b : Tensor4) : Prop :=
  same_extents a b
  /\ forall k p r c,
       0 <= k < nbooks a -> 0 <= p < npages a ->
       0 <= r < nrows a -> 0 <= c < ncols a ->
       t4_get a k p r c = t4_get b k p r c.

(** Field by field, with the two array fields compared inside their
    extents. *)
Definition same_table (s t : GasAbsLookup) : Prop :=
  species s = species t
  /\ nonlinear_species s = nonlinear_species t
  /\ f_grid s = f_grid t
  /\ p_grid s = p_grid t
  /\ log_p_grid s = log_p_grid t
  /\ same_matrix (vmrs_ref s) (vmrs_ref t)
  /\ t_ref s = t_ref t
  /\ t_pert s = t_pert t
  /\ nls_pert s = nls_pert t
  /\ same_tensor4 (xsec s) (xsec t).

(** The pages a species takes in [xsec], and the first of them: the pages
    of the species before it, counted together. *)
Definition pages_of (t : GasAbsLookup) (i : Index) : Index :=
  if existsb (Z.eqb i) (nonlinear_species t) then nelem (nls_pert t) else 1.

Definition first_page (t : GasAbsLookup) (i : Index) : Index :=
  fold_left Z.add (map (pages_of t) (upto i)) 0.

(** The bounds of the temperature and humidity checks, from the spacing of
    the perturbation grid next to each end. *)
Definition pert_min (pert : list Q) : Q :=
  (nth 0 pert 0 - 0.5 * (nth 1 pert 0 - nth 0 pert 0))%Q.

Definition pert_max (pert : list Q) : Q :=
  (nth (length pert - 1) pert 0
   + 0.5 * (nth (length pert - 1) pert 0 - nth (length pert - 2) pert 0))%Q.

(** A sum of products, added up from the left as the loops of Extract do. *)
Definition weighted_sum (itw vals : list Q) : Q :=
  fold_left (fun acc '(wgt, v) => (acc + wgt * v)%Q) (combine itw vals) 0%Q.

(** What one of the four handlers of Extract leaves for the table
    frequency [f] at the pressure level [lvl], for a species with first page
    [fpi] and flag [do_VMR], from the grid positions [tgp] and [vgp]. *)
Definition handler_value (self : GasAbsLookup)
  (t_interp_order h2o_interp_order : Z) (tgp vgp : GridPosPoly)
  (lvl f fpi do_VMR : Z) : Q :=
  let xs := xsec self in
  let tb r := nth (Z.to_nat r) (idx tgp) 0 in
  let vp c := nth (Z.to_nat c) (idx vgp) 0 in
  if nelem (t_pert self) =? 0
  then
    if do_VMR =? 0
    then t4_get xs 0 fpi f lvl
    else weighted_sum (w vgp)
           (map (fun c => t4_get xs 0 (fpi + vp c) f lvl)
                (upto (h2o_interp_order + 1)))
  else
    if do_VMR =? 0
    then weighted_sum (w tgp)
           (map (fun r => t4_get xs (tb r) fpi f lvl)
                (upto (t_interp_order + 1)))
    else weighted_sum
           (flat_map (fun wr => map (fun wc => (wr * wc)%Q) (w vgp)) (w tgp))
           (map (fun rc => t4_get xs (tb (fst rc)) (fpi + vp (snd rc)) f lvl)
                (list_prod (upto (t_interp_order + 1))
                           (upto (h2o_interp_order + 1)))).

(** What Extract interpolates in temperature and humidity for species
    [si]: the handler for it, at its first page. *)
Definition interpolated (self : GasAbsLookup)
  (t_interp_order h2o_interp_order : Z) (tgp vgp : GridPosPoly)
  (lvl f si : Z) : Q :=
  handler_value self t_interp_order h2o_interp_order tgp vgp lvl f
                (first_page self si)
                (is_nonlinear (nonlinear_species self) si).

(** The pressure interpolation: the values at the pressure levels used,
    each times its weight, added up from the left. *)
Definition pressure_sum (vals pitw : list Q) : Q :=
  fold_left (fun acc '(v, wgt) => (acc + v * wgt)%Q) (combine vals pitw) 0%Q.

(** The grid positions Extract works with at one of the pressure levels of
    the pressure interpolation: the index of the level in the pressure
    grid, and the temperature and humidity positions found there. *)
Record LevelPositions : Type := {
  lp_level : Z;
  lp_tgp : GridPosPoly;
  lp_vgp : GridPosPoly
}.

(** The consistency of a table that Extract relies on: the nonlinear
    species are listed once and are species of the table, and the extents
    of the reference profiles and of the coefficients are the ones Extract
    asserts. *)
Definition table_consistent (t : GasAbsLookup) : Prop :=
  is_unique (nonlinear_species t) = true
  /\ Forall (fun s => 0 <= s < nelem (species t)) (nonlinear_species t)
  /\ is_size2 (vmrs_ref t) (nelem (species t)) (nelem (p_grid t)) = true
  /\ nelem (t_ref t) = nelem (p_grid t)
  /\ is_size4 (xsec t)
              (if 0 =? nelem (t_pert t) then 1 else nelem (t_pert t))
              (nelem (species t)
               + nelem (nonlinear_species t) * (nelem (nls_pert t) - 1))
              (nelem (f_grid t)) (nelem (p_grid t)) = true.

(** A grid position of the given order in a grid of [n] points: [order + 1]
    indices into the grid and as many weights. *)
Definition positions_in (g : GridPosPoly) (order n : Z) : Prop :=
  nelem (idx g) = order + 1
  /\ nelem (w g) = order + 1
  /\ Forall (fun i => 0 <= i < n) (idx g).

(** What is taken for granted of [gridpos_poly]: what it returns is a grid
    position of the order asked for in the grid given. *)
Definition gridpos_poly_well_formed (ext : Externals) : Prop :=
  forall grid x order g,
    gridpos_poly ext grid x order = Ok g ->
    positions_in g order (nelem grid).

(** And that it does not stop on an assertion of its own when the grid has
    enough points for the order. *)
Definition gridpos_poly_total (ext : Externals) : Prop :=
  forall grid x order,
    0 <= order -> order + 1 <= nelem grid ->
    gridpos_poly ext grid x order <> Fault.

(** A table with a humidity axis and no temperature axis that Adapt accepts:
    two species, the first one nonlinear with two humidity perturbations,
    2 + 1 * (2 - 1) = 3 pages, and no book in [xsec]. *)
Definition humidity_without_books_table : GasAbsLookup :=
  {| species := [[tag_H2O]; [tag_O3]];
     nonlinear_species := [0];
     f_grid := [100%Q];
     p_grid := [1000%Q; 500%Q];
     log_p_grid := [];
     vmrs_ref := {| m_nrows := 2; m_ncols := 2; m_get := fun _ _ => 0.01%Q |};
     t_ref := [250%Q; 240%Q];
     t_pert := [];
     nls_pert := [0.5%Q; 1%Q];
     xsec := {| nbooks := 0; npages := 3; nrows := 1; ncols := 2;
                t4_get := fun _ _ _ _ => 1%Q |} |}.

(** [full_table] with a nonlinear species index that is no species of the
    table: it has three species, at the indices 0, 1 and 2. *)
Definition stray_index_table : GasAbsLookup :=
  {| species := species full_table;
     nonlinear_species := [3];
     f_grid := f_grid full_table;
     p_grid := p_grid full_table;
     log_p_grid := [];
     vmrs_ref := vmrs_ref full_table;
     t_ref := t_ref full_table;
     t_pert := t_pert full_table;
     nls_pert := nls_pert full_table;
     xsec := xsec full_table |}.

(** * Properties *)

(** ** The result monad and array reads *)

Lemma bind_Ok_inv {A B} (m : result A) (k : A -> result B) (b : B) :
  bind m k = Ok b -> exists a, m = Ok a /\ k a = Ok b.
Proof. destruct m; simpl; intros H; try discriminate; eauto. Qed.

Lemma throw_if_Ok (c : bool) (e : Error) (u : unit) :
  throw_if c e = Ok u -> c = false.
Proof. destruct c; simpl; intros H; [discriminate | reflexivity]. Qed.

Lemma assert_Ok (c : bool) (u : unit) : assert c = Ok u -> c = true.
Proof. destruct c; simpl; intros H; [reflexivity | discriminate]. Qed.

Lemma nelem_nonneg {A} (l : list A) : 0 <= nelem l.
Proof. unfold nelem; lia. Qed.

Lemma elem_Ok_iff {A} (l : list A) (i : Index) (a : A) :
  elem l i = Ok a <-> 0 <= i /\ nth_error l (Z.to_nat i) = Some a.
Proof.
  unfold elem. destruct (Z.ltb_spec i 0).
  - split; [discriminate | lia].
  - destruct (nth_error l (Z.to_nat i)) eqn:E; split; intros H1.
    + inversion H1; subst; auto.
    + destruct H1 as [_ H1]; inversion H1; reflexivity.
    + discriminate.
    + destruct H1; discriminate.
Qed.

Lemma elem_in_range {A} (l : list A) (i : Index) :
  0 <= i < nelem l -> exists a, elem l i = Ok a.
Proof.
  intros [H0 H1]. unfold elem.
  destruct (Z.ltb_spec i 0); [lia|].
  destruct (nth_error l (Z.to_nat i)) eqn:E; [eauto|].
  apply nth_error_None in E. unfold nelem in H1. lia.
Qed.

Lemma elem_of_nat {A} (l : list A) (k : nat) :
  elem l (Z.of_nat k) = match nth_error l k with Some a => Ok a | None => Fault end.
Proof.
  unfold elem. destruct (Z.ltb_spec (Z.of_nat k) 0); [lia|].
  now rewrite Nat2Z.id.
Qed.

Lemma mapM_Ok_length {A B} (f : A -> result B) (l : list A) (bs : list B) :
  mapM f l = Ok bs -> length bs = length l.
Proof.
  revert bs; induction l as [|a l IH]; simpl; intros bs H.
  - inversion H; reflexivity.
  - apply bind_Ok_inv in H as [b [_ H]].
    apply bind_Ok_inv in H as [bs' [H1 H]].
    inversion H; subst; simpl; f_equal; auto.
Qed.

Lemma mapM_Ok_Forall2 {A B} (f : A -> result B) (l : list A) (bs : list B) :
  mapM f l = Ok bs -> Forall2 (fun a b => f a = Ok b) l bs.
Proof.
  revert bs; induction l as [|a l IH]; simpl; intros bs H.
  - inversion H; constructor.
  - apply bind_Ok_inv in H as [b [Hb H]].
    apply bind_Ok_inv in H as [bs' [H1 H]].
    inversion H; subst; constructor; auto.
Qed.

(** ** The grid locator *)

Section GridLocator.

Local Open Scope Q_scope.

Lemma off_grid_false (x o : Numeric) : off_grid x o = false <-> near x o.
Proof.
  unfold off_grid, near, tolerance. rewrite negb_false_iff.
  apply Qle_bool_iff.
Qed.

Lemma off_grid_true (x o : Numeric) : off_grid x o = true <-> ~ near x o.
Proof.
  unfold off_grid, near, tolerance. rewrite negb_true_iff.
  rewrite <- Qle_bool_iff. destruct (Qle_bool (Qabs (x - o)) 1); split; congruence.
Qed.

Lemma near_bounds (x o : Numeric) : near x o <-> o - 1 <= x /\ x <= o + 1.
Proof.
  unfold near. rewrite Qabs_Qle_condition. split; intros [H1 H2]; split; lra.
Qed.

Lemma ascending_app_inv (pre rest : Vector) :
  ascending (pre ++ rest) ->
  ascending rest /\ forall a b, In a pre -> In b rest -> a <= b.
Proof.
  unfold ascending. induction pre as [|c pre IH]; simpl; intros H.
  - split; [assumption | intros a b []].
  - apply StronglySorted_inv in H as [H Hc].
    destruct (IH H) as [Hrest Hle]. split; [assumption|].
    intros a b [<- | Ha] Hb; [|auto].
    rewrite Forall_forall in Hc. apply Hc, in_or_app. right; assumption.
Qed.

(** The inner loop on a grid that is not yet exhausted: it stops at the
    first grid point within the tolerance, or throws when there is none. *)
Lemma seek_spec (x : Numeric) (rest : Vector) :
  rest <> [] ->
  forall j : Index,
    (exists skipped o rest',
        rest = skipped ++ o :: rest'
        /\ Forall (fun s => ~ near x s) skipped
        /\ near x o
        /\ seek x j rest = Ok ((j + nelem skipped)%Z, o :: rest'))
    \/ (Forall (fun s => ~ near x s) rest
        /\ seek x j rest = Err GridPointNotFound).
Proof.
  induction rest as [|o rest IH]; intros Hne j; [congruence|].
  simpl. destruct (off_grid x o) eqn:Hoff.
  - apply off_grid_true in Hoff.
    destruct rest as [|o' rest'].
    + right. split; [repeat constructor; assumption | reflexivity].
    + destruct (IH ltac:(discriminate) (j + 1)%Z)
        as [(skipped & o1 & rest1 & Hsplit & Hsk & Hnear & Hseek) | [Hall Hseek]].
      * left. exists (o :: skipped), o1, rest1.
        split; [now rewrite Hsplit|].
        split; [constructor; assumption|].
        split; [assumption|].
        rewrite Hseek. unfold nelem. simpl length.
        do 2 f_equal. lia.
      * right. split; [constructor; assumption | assumption].
  - apply off_grid_false in Hoff.
    left. exists [], o, rest. simpl.
    split; [reflexivity|]. split; [constructor|]. split; [assumption|].
    unfold nelem; simpl. do 2 f_equal. lia.
Qed.

(** The outer loop, with the old grid split into the part [pre] already
    passed and the part [rest] ahead.  Everything passed lies below the
    tolerance window of every new frequency still to come. *)
Lemma locate_spec (new_grid : Vector) :
  ascending new_grid ->
  forall (pre rest : Vector),
    ascending (pre ++ rest) ->
    rest <> [] ->
    Forall (fun s => Forall (fun x => s + 1 < x) new_grid) pre ->
    (exists pos,
        locate new_grid (nelem pre) rest = Ok pos
        /\ Forall2 (fun x q => exists o, elem (pre ++ rest) q = Ok o /\ near x o)
                   new_grid pos
        /\ Forall (fun q => (nelem pre <= q)%Z) pos
        /\ nondecreasing pos)
    \/ (locate new_grid (nelem pre) rest = Err GridPointNotFound
        /\ exists x, In x new_grid
                     /\ forall o, In o (pre ++ rest) -> ~ near x o).
Proof.
  induction new_grid as [|x new_grid IH]; intros Hnew pre rest Hold Hne Hpre.
  - left. exists []. simpl. repeat split; constructor.
  - apply StronglySorted_inv in Hnew as [Hnew Hx].
    simpl.
    destruct (seek_spec x rest Hne (nelem pre))
      as [(skipped & o & rest' & Hsplit & Hsk & Hnear & Hseek) | [Hall Hseek]].
    + rewrite Hseek. simpl.
      assert (Hlen : (nelem pre + nelem skipped)%Z = nelem (pre ++ skipped))
        by (unfold nelem; rewrite length_app; lia).
      rewrite Hlen.
      assert (Hold' : pre ++ rest = (pre ++ skipped) ++ o :: rest')
        by (rewrite Hsplit, app_assoc; reflexivity).
      assert (Hlow : Forall (fun s => s + 1 < x) skipped).
      { rewrite Forall_forall. intros s Hs.
        assert (Hso : s <= o).
        { rewrite Hsplit in Hold.
          apply ascending_app_inv in Hold as [Hold _].
          apply ascending_app_inv in Hold as [_ Hold].
          apply Hold; [assumption | left; reflexivity]. }
        rewrite Forall_forall in Hsk. specialize (Hsk s Hs).
        rewrite near_bounds in Hsk, Hnear.
        destruct (Qlt_le_dec (s + 1) x) as [Hlt|Hge]; [assumption|].
        exfalso. apply Hsk. split; lra. }
      destruct (IH Hnew (pre ++ skipped) (o :: rest'))
        as [(pos & Hloc & Hpos & Hge & Hmono) | (Hloc & x' & Hin & Hnone)].
      * rewrite <- Hold'. assumption.
      * discriminate.
      * apply Forall_app. split.
        -- rewrite Forall_forall in Hpre |- *. intros s Hs.
           specialize (Hpre s Hs). apply Forall_inv_tail in Hpre. assumption.
        -- rewrite Forall_forall in Hlow |- *. intros s Hs.
           specialize (Hlow s Hs).
           rewrite Forall_forall in Hx |- *. intros x' Hx'.
           specialize (Hx x' Hx'). lra.
      * left. exists (nelem (pre ++ skipped) :: pos).
        rewrite Hloc. simpl. split; [reflexivity|].
        split; [|split].
        -- constructor.
           ++ exists o. split; [|assumption].
              rewrite Hold'. unfold nelem. rewrite elem_of_nat.
              rewrite nth_error_app2 by lia.
              now rewrite Nat.sub_diag.
           ++ rewrite Hold'. assumption.
        -- constructor.
           ++ unfold nelem. rewrite length_app. lia.
           ++ eapply Forall_impl; [|exact Hge].
              intros q. unfold nelem. rewrite length_app. simpl. lia.
        -- constructor; assumption.
      * right. rewrite Hloc. simpl. split; [reflexivity|].
        exists x'. split; [right; assumption|].
        rewrite Hold'. assumption.
    + right. rewrite Hseek. simpl. split; [reflexivity|].
      exists x. split; [left; reflexivity|].
      intros o Ho. apply in_app_or in Ho as [Ho|Ho].
      * rewrite Forall_forall in Hpre. specialize (Hpre o Ho).
        apply Forall_inv in Hpre. rewrite near_bounds. lra.
      * rewrite Forall_forall in Hall. apply Hall. assumption.
Qed.

(** On an old grid with at least one point the locator does what its
    contract says: for grids sorted in ascending order it returns, in one
    forward pass, a position within the tolerance for every new grid point,
    or throws because some new grid point has no old grid point within the
    tolerance. *)
Lemma find_new_grid_in_nonempty_old_grid (old_grid new_grid : Vector) :
  old_grid <> [] -> ascending old_grid -> ascending new_grid ->
  (exists pos,
      find_new_grid_in_old_grid old_grid new_grid = Ok pos
      /\ Forall2 (fun x q => exists o, elem old_grid q = Ok o /\ near x o)
                 new_grid pos
      /\ nondecreasing pos)
  \/ (find_new_grid_in_old_grid old_grid new_grid = Err GridPointNotFound
      /\ exists x, In x new_grid /\ forall o, In o old_grid -> ~ near x o).
Proof.
  intros Hne Hold Hnew.
  destruct (locate_spec new_grid Hnew [] old_grid Hold Hne (Forall_nil _))
    as [(pos & Hloc & Hpos & _ & Hmono) | H].
  - left. exists pos. auto.
  - right. exact H.
Qed.

(** The tolerance scenario of the specification. *)
Example find_new_grid_scenario_found :
  find_new_grid_in_old_grid [100.0; 200.0; 300.0] [100.4; 299.6] = Ok [0; 2]%Z.
Proof. reflexivity. Qed.

Example find_new_grid_scenario_not_found :
  find_new_grid_in_old_grid [100.0; 200.0; 300.0] [250.0]
  = Err GridPointNotFound.
Proof. reflexivity. Qed.

(** C4: the grid locator is to return positions within the tolerance or to
    fail with GridPointNotFound, for every sorted old and new grid.  On an
    old grid without any point the scan reads [old_grid[0]] before its
    first test of [j >= n_old_grid]: the call neither returns nor throws,
    it indexes the old grid outside its bounds. *)
Theorem find_new_grid_in_empty_old_grid (x : Numeric) (new_grid : Vector) :
  ascending ([] : Vector) /\
  find_new_grid_in_old_grid [] (x :: new_grid) = Fault.
Proof. split; [constructor | reflexivity]. Qed.

(** The same read, reached from Adapt: a table without frequencies passes
    the checks on the table, and the first requested frequency is then
    looked for in the empty grid. *)
Example Adapt_reads_empty_frequency_grid (ext : Externals) :
  chk_table no_frequency_table = Ok tt
  /\ fst (Adapt ext [[tag_O3]] [100] no_frequency_table) = Fault.
Proof. split; reflexivity. Qed.

End GridLocator.

(** ** Loops and stores *)

(** Linear arithmetic over array sizes. *)
Ltac zlia :=
  unfold nelem in *; lia.

Lemma upto_length (n : Index) : length (upto n) = Z.to_nat n.
Proof. unfold upto. now rewrite length_map, length_seq. Qed.

Lemma upto_In (n i : Index) : In i (upto n) <-> 0 <= i < n.
Proof.
  unfold upto. rewrite in_map_iff. split.
  - intros [k [<- Hk]]. apply in_seq in Hk. lia.
  - intros Hi. exists (Z.to_nat i). split; [lia|]. apply in_seq. lia.
Qed.

Lemma upto_nelem_S {A} (a : A) (l : list A) :
  upto (nelem (a :: l)) = 0 :: map Z.succ (upto (nelem l)).
Proof.
  unfold upto, nelem. rewrite !Nat2Z.id. simpl. f_equal.
  rewrite <- seq_shift, !map_map. apply map_ext. intros k. lia.
Qed.

Lemma foldM_app {A S} (f : S -> A -> result S) (l1 l2 : list A) (s : S) :
  foldM f (l1 ++ l2) s = bind (foldM f l1 s) (foldM f l2).
Proof.
  revert s. induction l1 as [|a l1 IH]; intros s; simpl; [reflexivity|].
  destruct (f s a); simpl; auto.
Qed.

(** An invariant of a loop that ends well. *)
Lemma foldM_invariant {A S} (f : S -> A -> result S) (P : S -> Prop) (l : list A) :
  (forall s a s', In a l -> P s -> f s a = Ok s' -> P s') ->
  forall s s', P s -> foldM f l s = Ok s' -> P s'.
Proof.
  induction l as [|a l IH]; simpl; intros Hstep s s' Hs H.
  - inversion H; subst; assumption.
  - apply bind_Ok_inv in H as [s1 [H1 H]].
    eapply IH; [ | | exact H]; eauto.
Qed.

Lemma replace_nth_length {A} (l : list A) (k : nat) (a : A) :
  length (replace_nth l k a) = length l.
Proof.
  revert k; induction l as [|b l IH]; intros [|k]; simpl; auto.
Qed.

Lemma replace_nth_nth {A} (l : list A) (k i : nat) (a d : A) :
  (k < length l)%nat ->
  nth i (replace_nth l k a) d = if Nat.eqb i k then a else nth i l d.
Proof.
  revert k i; induction l as [|b l IH]; intros [|k] [|i] Hk; simpl in *;
    try lia; auto.
  apply IH. lia.
Qed.

Lemma in_range_true (i n : Index) : in_range i n = true <-> 0 <= i < n.
Proof. unfold in_range. rewrite andb_true_iff, Z.leb_le, Z.ltb_lt. tauto. Qed.

Lemma range_fits_true (s e n : Index) :
  range_fits s e n = true <-> 0 <= s /\ 0 <= e /\ s + e <= n.
Proof.
  unfold range_fits. rewrite !andb_true_iff, !Z.leb_le. tauto.
Qed.

Lemma store_Ok {A} (l l' : list A) (i : Index) (a : A) :
  store l i a = Ok l' ->
  0 <= i < nelem l /\ l' = replace_nth l (Z.to_nat i) a.
Proof.
  unfold store. destruct (in_range i (nelem l)) eqn:E; [|discriminate].
  apply in_range_true in E. intros H; inversion H; auto.
Qed.

(** ** The logical array of the nonlinear species *)

Lemma flag_nonlinear_spec (n : Index) (nls flags : ArrayOfIndex) :
  0 <= n ->
  flag_nonlinear n nls = Ok flags ->
  flags_of n nls flags /\ Forall (fun s => 0 <= s < n) nls.
Proof.
  intros Hn. unfold flag_nonlinear.
  assert (Hgen : forall done todo start,
             flags_of n done start ->
             foldM (fun non_linear s => store non_linear s 1) todo start = Ok flags ->
             flags_of n (done ++ todo) flags /\ Forall (fun s => 0 <= s < n) todo).
  { intros done todo. revert done.
    induction todo as [|s todo IH]; intros done start [Hlen Hget] H; simpl in H.
    - injection H as <-. rewrite app_nil_r.
      split; [split; assumption | constructor].
    - apply bind_Ok_inv in H as [start' [Hst H]].
      apply store_Ok in Hst as [Hs ->].
      assert (Hs' : 0 <= s < n) by zlia.
      destruct (IH (done ++ [s]) (replace_nth start (Z.to_nat s) 1)) as [Hfl Hall].
      + split.
        * unfold nelem. rewrite replace_nth_length. exact Hlen.
        * intros i Hi. rewrite replace_nth_nth by zlia.
          rewrite existsb_app. simpl. rewrite orb_false_r.
          rewrite (Hget i Hi).
          destruct (Nat.eqb_spec (Z.to_nat i) (Z.to_nat s)) as [E|E].
          -- assert (i = s) by lia. subst. rewrite Z.eqb_refl, orb_true_r. reflexivity.
          -- assert (Hne : i <> s) by (intros ->; apply E; reflexivity).
             apply Z.eqb_neq in Hne. rewrite Hne, orb_false_r. reflexivity.
      + exact H.
      + rewrite <- app_assoc in Hfl. simpl in Hfl.
        split; [assumption | constructor; assumption]. }
  intros H. apply (Hgen [] nls _) in H; [exact H|].
  split.
  - unfold nelem. rewrite repeat_length. lia.
  - intros i Hi. simpl. apply nth_repeat_lt. lia.
Qed.

(** ** Adapt: what a successful run has established *)

(** From here on the external routines are fixed. *)
Section WithExternals.

Variable ext : Externals.

Lemma Adapt_new_table_Ok (self : GasAbsLookup)
  (current_species : ArrayOfArrayOfSpeciesTag) (current_f_grid : Vector)
  (new_table : GasAbsLookup) :
  Adapt_new_table self current_species current_f_grid = Ok new_table ->
  exists non_linear i_current_species current_non_linear i_current_f_grid
         vmrs0 xsec0 sp,
    flag_nonlinear (nelem (species self)) (nonlinear_species self) = Ok non_linear
    /\ chk_table self = Ok tt
    /\ nelem current_species <> 0
    /\ is_increasing current_f_grid = true
    /\ mapM (chk_contains (species self)) current_species = Ok i_current_species
    /\ current_flags non_linear i_current_species = Ok current_non_linear
    /\ find_new_grid_in_old_grid (f_grid self) current_f_grid = Ok i_current_f_grid
    /\ mapM (elem (species self)) i_current_species = Ok (species new_table)
    /\ nonlinear_species new_table = flagged_from current_non_linear 0
    /\ mapM (elem (f_grid self)) i_current_f_grid = Ok (f_grid new_table)
    /\ p_grid new_table = p_grid self
    /\ log_p_grid new_table = []
    /\ t_ref new_table = t_ref self
    /\ t_pert new_table = t_pert self
    /\ nls_pert new_table
       = (if 0 =? nelem (flagged_from current_non_linear 0)
          then [] else nls_pert self)
    /\ matrix_resize (nelem current_species) (nelem (p_grid self)) = Ok vmrs0
    /\ foldM (fun new i => k <- elem i_current_species i ;;
                           copy_row (vmrs_ref self) k new i)
             (upto (nelem current_species)) vmrs0 = Ok (vmrs_ref new_table)
    /\ tensor4_resize (nbooks (xsec self))
         (nelem current_species
          + count_set current_non_linear * (nelem (nls_pert self) - 1))
         (nelem current_f_grid) (ncols (xsec self)) = Ok xsec0
    /\ copy_xsec (xsec self) (nelem (nls_pert self))
         (spec_pos_in_xsec non_linear (nelem (nls_pert self)) 0)
         i_current_species current_non_linear i_current_f_grid xsec0
       = Ok (sp, xsec new_table).
Proof.
  unfold Adapt_new_table. intros H.
  apply bind_Ok_inv in H as [non_linear [Hflags H]].
  apply bind_Ok_inv in H as [[] [Hchk H]].
  apply bind_Ok_inv in H as [[] [Hreq H]]. apply throw_if_Ok in Hreq.
  apply bind_Ok_inv in H as [[] [Hinc H]]. apply throw_if_Ok in Hinc.
  apply bind_Ok_inv in H as [i_cs [Hics H]].
  apply bind_Ok_inv in H as [cnl [Hcnl H]].
  apply bind_Ok_inv in H as [i_cf [Hicf H]].
  apply bind_Ok_inv in H as [new_species [Hsp H]].
  apply bind_Ok_inv in H as [new_f_grid [Hfg H]].
  apply bind_Ok_inv in H as [vmrs0 [Hv0 H]].
  apply bind_Ok_inv in H as [vmrs [Hv H]].
  apply bind_Ok_inv in H as [xsec0 [Hx0 H]].
  apply bind_Ok_inv in H as [[sp xs] [Hx H]].
  injection H as <-. simpl.
  exists non_linear, i_cs, cnl, i_cf, vmrs0, xsec0, sp.
  apply Z.eqb_neq in Hreq. apply negb_false_iff in Hinc.
  repeat split; auto.
Qed.

Lemma is_size4_true (t : Tensor4) (a b c d : Index) :
  is_size4 t a b c d = true
  <-> nbooks t = a /\ npages t = b /\ nrows t = c /\ ncols t = d.
Proof.
  unfold is_size4. rewrite !andb_true_iff, !Z.eqb_eq. tauto.
Qed.

Lemma chk_size_Ok (t : Tensor4) (a b c d : Index) :
  chk_size t a b c d = Ok tt <-> is_size4 t a b c d = true.
Proof.
  unfold chk_size, throw_if. destruct (is_size4 t a b c d); simpl;
    split; congruence.
Qed.

Lemma chk_size_outcome (t : Tensor4) (a b c d : Index) :
  chk_size t a b c d = Ok tt \/ chk_size t a b c d = Err ShapeMismatch.
Proof.
  unfold chk_size, throw_if. destruct (is_size4 t a b c d); simpl; auto.
Qed.

Lemma chk_xsec_Ok (self : GasAbsLookup) :
  chk_xsec self = Ok tt
  <-> is_size4 (xsec self) (expected_books self) (expected_pages self)
               (nelem (f_grid self)) (nelem (p_grid self)) = true.
Proof.
  unfold chk_xsec, expected_books, expected_pages.
  destruct (Z.eqb_spec 0 (nelem (nonlinear_species self))) as [E|E].
  - rewrite <- E, Z.mul_0_l, Z.add_0_r.
    destruct (0 =? nelem (t_pert self)); simpl; apply chk_size_Ok.
  - simpl. apply chk_size_Ok.
Qed.

Lemma chk_xsec_outcome (self : GasAbsLookup) :
  chk_xsec self = Ok tt \/ chk_xsec self = Err ShapeMismatch.
Proof.
  unfold chk_xsec.
  destruct (0 =? nelem (nonlinear_species self));
    [destruct (0 =? nelem (t_pert self))|]; apply chk_size_outcome.
Qed.

Lemma chk_table_Ok (self : GasAbsLookup) :
  chk_table self = Ok tt ->
  nelem (species self) <> 0
  /\ is_unique (nonlinear_species self) = true
  /\ Forall (fun x => 0 <= x <= nelem (species self) - 1) (nonlinear_species self)
  /\ is_increasing (f_grid self) = true
  /\ is_decreasing (p_grid self) = true
  /\ m_nrows (vmrs_ref self) = nelem (species self)
  /\ m_ncols (vmrs_ref self) = nelem (p_grid self)
  /\ nelem (t_ref self) = nelem (p_grid self)
  /\ (nelem (nonlinear_species self) = 0 <-> nelem (nls_pert self) = 0)
  /\ chk_xsec self = Ok tt.
Proof.
  unfold chk_table. intros H.
  apply bind_Ok_inv in H as [[] [H1 H]]. apply throw_if_Ok, Z.eqb_neq in H1.
  apply bind_Ok_inv in H as [[] [H2 H]]. apply throw_if_Ok, negb_false_iff in H2.
  apply bind_Ok_inv in H as [us [H3 H]].
  apply bind_Ok_inv in H as [[] [H4 H]]. apply throw_if_Ok, negb_false_iff in H4.
  apply bind_Ok_inv in H as [[] [H5 H]]. apply throw_if_Ok, negb_false_iff in H5.
  apply bind_Ok_inv in H as [[] [H6 H]].
  apply throw_if_Ok, negb_false_iff, Z.eqb_eq in H6.
  apply bind_Ok_inv in H as [[] [H7 H]].
  apply throw_if_Ok, negb_false_iff, Z.eqb_eq in H7.
  apply bind_Ok_inv in H as [[] [H8 H]].
  apply throw_if_Ok, negb_false_iff, Z.eqb_eq in H8.
  apply bind_Ok_inv in H as [[] [H9 H]].
  repeat split; auto.
  - apply mapM_Ok_Forall2 in H3. clear - H3.
    induction H3 as [|x u l us Hx _ IH]; constructor; [|assumption].
    unfold chk_if_in_range in Hx.
    apply throw_if_Ok, negb_false_iff, andb_true_iff in Hx as [Ha Hb].
    apply Z.leb_le in Ha, Hb. lia.
  - intros E. rewrite E in H9. simpl in H9.
    now apply throw_if_Ok, negb_false_iff, Z.eqb_eq in H9.
  - intros E. destruct (Z.eqb_spec 0 (nelem (nonlinear_species self))) as [E'|E'];
      [auto|].
    apply throw_if_Ok, Z.eqb_neq in H9. congruence.
Qed.

Lemma copy_pages_extents (old : Tensor4) (src j : Index) (new new' : Tensor4)
  (sp n_v i_f : Index) :
  copy_pages old src j new sp n_v i_f = Ok new' -> same_extents new' new.
Proof.
  unfold copy_pages. intros H. apply bind_Ok_inv in H as [[] [_ H]].
  injection H as <-. repeat split.
Qed.

Lemma copy_xsec_extents (old : Tensor4) (n_nls_pert : Index)
  (orig i_cs cnl i_cf : ArrayOfIndex) (new new' : Tensor4) (sp : Index) :
  copy_xsec old n_nls_pert orig i_cs cnl i_cf new = Ok (sp, new') ->
  same_extents new' new.
Proof.
  unfold copy_xsec. intros H.
  apply (foldM_invariant _ (fun st => same_extents (snd st) new)) in H;
    [exact H | | repeat split].
  intros [sp0 t0] i_s [sp1 t1] _ Ht0 Hstep. simpl in *.
  apply bind_Ok_inv in Hstep as [f [_ Hstep]].
  apply bind_Ok_inv in Hstep as [t2 [Hin Hstep]].
  injection Hstep as <- <-.
  apply (foldM_invariant _ (fun t => same_extents t new)) in Hin;
    [exact Hin | | exact Ht0].
  intros s a s' _ Hs Hcp.
  apply bind_Ok_inv in Hcp as [k [_ Hcp]].
  apply bind_Ok_inv in Hcp as [src [_ Hcp]].
  apply bind_Ok_inv in Hcp as [j [_ Hcp]].
  apply copy_pages_extents in Hcp.
  unfold same_extents in *. intuition congruence.
Qed.

Lemma tensor4_resize_Ok (b p r c : Index) (t : Tensor4) :
  tensor4_resize b p r c = Ok t ->
  nbooks t = b /\ npages t = p /\ nrows t = r /\ ncols t = c
  /\ 0 <= b /\ 0 <= p /\ 0 <= r /\ 0 <= c.
Proof.
  unfold tensor4_resize. intros H. apply bind_Ok_inv in H as [[] [Ha H]].
  apply assert_Ok in Ha. rewrite !andb_true_iff, !Z.leb_le in Ha.
  injection H as <-. simpl. intuition.
Qed.

(** The positions pushed onto [nonlinear_species] are as many as the flags
    that are set. *)
Lemma flagged_from_length (flags : ArrayOfIndex) (i : Index) :
  nelem (flagged_from flags i) = count_set flags.
Proof.
  unfold count_set, nelem. f_equal. revert i.
  induction flags as [|f flags IH]; intros i; simpl; [reflexivity|].
  destruct (f =? 0); simpl; rewrite IH; reflexivity.
Qed.

Lemma locate_length (new_grid : Vector) (j : Index) (rest : Vector)
  (pos : ArrayOfIndex) :
  locate new_grid j rest = Ok pos -> length pos = length new_grid.
Proof.
  revert j rest pos. induction new_grid as [|x new_grid IH];
    intros j rest pos; simpl; intros H.
  - injection H as <-. reflexivity.
  - apply bind_Ok_inv in H as [[j' rest'] [_ H]].
    apply bind_Ok_inv in H as [pos' [H1 H]].
    injection H as <-. simpl. f_equal. eauto.
Qed.

Lemma flags_of_elem (n : Index) (nls flags : ArrayOfIndex) (k v : Index) :
  flags_of n nls flags -> elem flags k = Ok v -> v = is_nonlinear nls k.
Proof.
  intros [Hlen Hget] Hk. apply elem_Ok_iff in Hk as [H0 Hk].
  assert (Hlt : (Z.to_nat k < length flags)%nat)
    by (apply nth_error_Some; congruence).
  unfold is_nonlinear. rewrite <- (Hget k) by zlia.
  symmetry. apply nth_error_nth. exact Hk.
Qed.

Lemma current_flags_eq (n : Index) (nls non_linear ics cnl : ArrayOfIndex) :
  flags_of n nls non_linear ->
  current_flags non_linear ics = Ok cnl ->
  cnl = map (is_nonlinear nls) ics.
Proof.
  intros Hfl. unfold current_flags. revert cnl.
  induction ics as [|k ics IH]; simpl; intros cnl H.
  - injection H as <-. reflexivity.
  - apply bind_Ok_inv in H as [f [Hf H]].
    apply bind_Ok_inv in H as [cnl' [Hc H]].
    injection H as <-.
    apply bind_Ok_inv in Hf as [v [Hv Hf]]. injection Hf as <-.
    rewrite (IH cnl' Hc). f_equal.
    rewrite (flags_of_elem _ _ _ _ _ Hfl Hv).
    unfold is_nonlinear. destruct (existsb (Z.eqb k) nls); reflexivity.
Qed.

(** ** The shape of the adapted table *)

Lemma Adapt_Ok (cs : ArrayOfArrayOfSpeciesTag) (cf : Vector)
  (self : GasAbsLookup) :
  fst (Adapt ext cs cf self) = Ok tt ->
  exists new_table,
    Adapt_new_table self cs cf = Ok new_table
    /\ snd (Adapt ext cs cf self) = init_log_p_grid ext new_table.
Proof.
  unfold Adapt. destruct (Adapt_new_table self cs cf) as [nt|e|]; simpl;
    intros H; try discriminate.
  exists nt. auto.
Qed.

Lemma Adapt_new_table_extents (self : GasAbsLookup)
  (cs : ArrayOfArrayOfSpeciesTag) (cf : Vector) (nt : GasAbsLookup) :
  Adapt_new_table self cs cf = Ok nt ->
  nbooks (xsec nt) = nbooks (xsec self)
  /\ npages (xsec nt)
     = nelem (species nt)
       + nelem (nonlinear_species nt) * (nelem (nls_pert self) - 1)
  /\ nrows (xsec nt) = nelem (f_grid nt)
  /\ ncols (xsec nt) = ncols (xsec self)
  /\ nelem (species nt) = nelem cs
  /\ nelem (f_grid nt) = nelem cf.
Proof.
  intros H. apply Adapt_new_table_Ok in H
    as (nl & ics & cnl & icf & v0 & x0 & sp & Hnl & Hchk & Hcs & Hcf & Hics
        & Hcnl & Hicf & Hsp & Hnls & Hfg & Hp & Hlog & Htr & Htp & Hnp & Hv0
        & Hv & Hx0 & Hx).
  apply copy_xsec_extents in Hx as (Hb & Hpg & Hr & Hc).
  apply tensor4_resize_Ok in Hx0 as (Hb0 & Hp0 & Hr0 & Hc0 & _).
  assert (Hlen_sp : nelem (species nt) = nelem cs).
  { apply mapM_Ok_length in Hsp, Hics. unfold nelem. congruence. }
  assert (Hlen_fg : nelem (f_grid nt) = nelem cf).
  { apply mapM_Ok_length in Hfg. apply locate_length in Hicf.
    unfold nelem. congruence. }
  rewrite Hnls, flagged_from_length.
  repeat split; congruence.
Qed.

(** A table produced by a successful Adapt from a table in one of the
    three valid configurations (no optional axis, temperature axis only,
    temperature and humidity axes) satisfies the shape invariant of
    [coefficients] with respect to its own fields: the second extent is
    n_species + |nonlinearSpecies| * (n_hpert - 1) and the first is
    max(n_tpert, 1); it is again in a valid configuration, and when the
    requested species leave no nonlinear species its humidity perturbations
    are empty. *)
Theorem Adapt_shape_invariant
  (cs : ArrayOfArrayOfSpeciesTag) (cf : Vector) (self : GasAbsLookup) :
  valid_configuration self ->
  fst (Adapt ext cs cf self) = Ok tt ->
  shape_invariant (snd (Adapt ext cs cf self))
  /\ valid_configuration (snd (Adapt ext cs cf self))
  /\ (nonlinear_species (snd (Adapt ext cs cf self)) = []
      -> nls_pert (snd (Adapt ext cs cf self)) = []).
Proof.
  intros Hvalid Hok.
  destruct (Adapt_Ok cs cf self Hok) as [nt [Hnt ->]].
  pose proof (Adapt_new_table_extents self cs cf nt Hnt)
    as (Hb & Hpg & Hr & Hc & _ & _).
  apply Adapt_new_table_Ok in Hnt
    as (nl & ics & cnl & icf & v0 & x0 & sp & Hnl & Hchk & _ & _ & _
        & Hcnl & _ & _ & Hnls & _ & Hp & _ & _ & Htp & Hnp & _).
  apply chk_table_Ok in Hchk as (_ & _ & _ & _ & _ & _ & _ & _ & Hpert & Hxs).
  apply chk_xsec_Ok, is_size4_true in Hxs as (Hxb & _ & _ & Hxc).
  unfold shape_invariant, valid_configuration. simpl.
  rewrite <- Hnls in Hnp.
  split; [|split].
  - apply is_size4_true. rewrite Htp, Hp.
    split; [|split; [|split]].
    + rewrite Hb, Hxb. unfold expected_books.
      pose proof (nelem_nonneg (t_pert self)) as Hge.
      destruct (Z.eqb_spec 0 (nelem (t_pert self))) as [E|E].
      * destruct Hvalid as [Hv|Hv]; [|congruence].
        rewrite Hv, <- E. reflexivity.
      * rewrite andb_false_r. lia.
    + rewrite Hpg, Hnp.
      destruct (Z.eqb_spec 0 (nelem (nonlinear_species nt))) as [E|E];
        [rewrite <- E; lia | reflexivity].
    + exact Hr.
    + congruence.
  - rewrite Htp. destruct Hvalid as [Hv|Hv]; [|right; exact Hv].
    left. rewrite Hnls, flagged_from_length.
    (* no nonlinear species in the table: no flag is set *)
    destruct (nonlinear_species self) as [|s l] eqn:Enl; [|discriminate].
    apply flag_nonlinear_spec in Hnl as [Hfl _]; [|apply nelem_nonneg].
    rewrite (current_flags_eq _ _ _ _ _ Hfl Hcnl). simpl.
    unfold count_set. clear. induction ics; simpl; auto.
  - intros E. rewrite Hnp, E. reflexivity.
Qed.

(** C2: not every table produced by a successful Adapt satisfies the shape
    invariant.  A table with nonlinear species and no temperature
    perturbations is accepted when [xsec] has no book (the branch of the
    full case asks for [t_pert.nelem()] = 0 books), and the new [xsec] is
    resized to the books of the old one.  When the request drops the
    nonlinear species, the new table has no optional axis at all, a valid
    configuration, and still no book, where the invariant asks for
    max(n_tpert, 1) = 1; Extract fails its assertion on it. *)
Theorem Adapt_breaks_shape_invariant :
  fst (Adapt ext [[tag_O3]] [100%Q] humidity_without_books_table) = Ok tt
  /\ nonlinear_species
       (snd (Adapt ext [[tag_O3]] [100%Q] humidity_without_books_table)) = []
  /\ t_pert
       (snd (Adapt ext [[tag_O3]] [100%Q] humidity_without_books_table)) = []
  /\ nls_pert
       (snd (Adapt ext [[tag_O3]] [100%Q] humidity_without_books_table)) = []
  /\ valid_configuration
       (snd (Adapt ext [[tag_O3]] [100%Q] humidity_without_books_table))
  /\ nbooks
       (xsec (snd (Adapt ext [[tag_O3]] [100%Q] humidity_without_books_table)))
     = 0
  /\ ~ shape_invariant
         (snd (Adapt ext [[tag_O3]] [100%Q] humidity_without_books_table))
  /\ Extract ext
       (snd (Adapt ext [[tag_O3]] [100%Q] humidity_without_books_table))
       0 0 0 (-1) 750%Q 250%Q [0.01%Q] = Fault.
Proof.
  split; [reflexivity|]. split; [reflexivity|]. split; [reflexivity|].
  split; [reflexivity|]. split; [left; reflexivity|].
  split; [reflexivity|]. split; [|reflexivity].
  unfold shape_invariant. intros H. vm_compute in H. discriminate H.
Qed.

(** ** The nonlinear species of the adapted table *)

Lemma existsb_eqb_In (k : Index) (l : ArrayOfIndex) :
  existsb (Z.eqb k) l = true <-> In k l.
Proof.
  rewrite existsb_exists. split.
  - intros [x [Hx E]]. apply Z.eqb_eq in E. subst. assumption.
  - intros H. exists k. split; [assumption | apply Z.eqb_refl].
Qed.

Lemma is_nonlinear_set (nls : ArrayOfIndex) (k : Index) :
  is_nonlinear nls k <> 0 <-> In k nls.
Proof.
  unfold is_nonlinear. rewrite <- existsb_eqb_In.
  destruct (existsb (Z.eqb k) nls); split; intros H; congruence || lia.
Qed.

Lemma flagged_from_spec (flags : ArrayOfIndex) (i0 : Index) :
  StronglySorted Z.lt (flagged_from flags i0)
  /\ forall q, In q (flagged_from flags i0)
               <-> i0 <= q < i0 + nelem flags
                   /\ nth (Z.to_nat (q - i0)) flags 0 <> 0.
Proof.
  revert i0. induction flags as [|f flags IH]; intros i0; simpl.
  - split; [constructor|]. intros q. unfold nelem; simpl. split; [tauto | lia].
  - destruct (IH (i0 + 1)) as [Hsorted Hin].
    assert (Hstep : forall q,
               i0 + 1 <= q < i0 + 1 + nelem flags
               /\ nth (Z.to_nat (q - (i0 + 1))) flags 0 <> 0
               <-> i0 < q /\ i0 <= q < i0 + nelem (f :: flags)
                   /\ nth (Z.to_nat (q - i0)) (f :: flags) 0 <> 0).
    { intros q. unfold nelem. simpl length.
      split.
      - intros [Hq Hn]. split; [lia|]. split; [lia|].
        replace (Z.to_nat (q - i0)) with (S (Z.to_nat (q - (i0 + 1)))) by lia.
        exact Hn.
      - intros (Hlt & Hq & Hn). split; [lia|].
        replace (Z.to_nat (q - i0)) with (S (Z.to_nat (q - (i0 + 1)))) in Hn by lia.
        exact Hn. }
    destruct (Z.eqb_spec f 0) as [E|E].
    + split; [assumption|]. intros q. rewrite Hin, Hstep.
      split; [tauto|]. intros [Hq Hn]. split; [|tauto].
      destruct (Z.eq_dec q i0) as [->|]; [|lia].
      rewrite Z.sub_diag in Hn. simpl in Hn. congruence.
    + split.
      * constructor; [assumption|].
        apply Forall_forall. intros q Hq. apply Hin in Hq. lia.
      * intros q. simpl. rewrite Hin, Hstep. split.
        -- intros [<- | H]; [|tauto].
           rewrite Z.sub_diag. simpl. unfold nelem; simpl length.
           split; [lia | assumption].
        -- intros [Hq Hn].
           destruct (Z.eq_dec q i0) as [->|]; [left; reflexivity | right].
           split; [lia | tauto].
Qed.

Lemma flag_nonlinear_total (n : Index) (nls : ArrayOfIndex) :
  0 <= n -> Forall (fun s => 0 <= s < n) nls ->
  exists flags, flag_nonlinear n nls = Ok flags.
Proof.
  intros Hn Hall. unfold flag_nonlinear.
  assert (Hgen : forall start, nelem start = n ->
             exists flags,
               foldM (fun non_linear s => store non_linear s 1) nls start
               = Ok flags).
  { induction Hall as [|s nls Hs _ IH]; intros start Hlen; simpl.
    - eauto.
    - unfold store at 1.
      replace (in_range s (nelem start)) with true
        by (symmetry; apply in_range_true; zlia).
      simpl. apply IH. unfold nelem. rewrite replace_nth_length. exact Hlen. }
  apply Hgen. unfold nelem. rewrite repeat_length. lia.
Qed.

(** The scan of the positions in [xsec] is strictly increasing as soon as a
    nonlinear species takes at least one page. *)
Lemma spec_pos_in_xsec_increasing (flags : ArrayOfIndex) (n_pert sp : Index) :
  (Exists (fun f => f <> 0) flags -> 1 <= n_pert) ->
  StronglySorted Z.lt (spec_pos_in_xsec flags n_pert sp)
  /\ Forall (fun o => sp <= o) (spec_pos_in_xsec flags n_pert sp).
Proof.
  revert sp. induction flags as [|f flags IH]; intros sp Hpert; simpl.
  - split; constructor.
  - assert (Hsp : sp < (if f =? 0 then sp + 1 else sp + n_pert)).
    { destruct (Z.eqb_spec f 0); [lia|].
      assert (1 <= n_pert) by (apply Hpert; left; assumption). lia. }
    destruct (IH (if f =? 0 then sp + 1 else sp + n_pert)) as [Hs Hge].
    { intros H. apply Hpert. right. assumption. }
    split.
    + constructor; [assumption|].
      eapply Forall_impl; [|exact Hge]. simpl. intros o Ho.
      eapply Z.lt_le_trans; [exact Hsp | exact Ho].
    + constructor; [apply Z.le_refl|].
      eapply Forall_impl; [|exact Hge]. simpl. intros o Ho.
      apply Z.lt_le_incl. eapply Z.lt_le_trans; [exact Hsp | exact Ho].
Qed.

Lemma spec_pos_in_xsec_length (flags : ArrayOfIndex) (n_pert sp : Index) :
  nelem (spec_pos_in_xsec flags n_pert sp) = nelem flags.
Proof.
  unfold nelem. f_equal. revert sp.
  induction flags as [|f flags IH]; intros sp; simpl; [reflexivity|].
  now rewrite IH.
Qed.

Lemma Forall2_nth_error {A B} (R : A -> B -> Prop) (l1 : list A) (l2 : list B) :
  Forall2 R l1 l2 ->
  forall (k : nat) (a : A),
    nth_error l1 k = Some a -> exists b, nth_error l2 k = Some b /\ R a b.
Proof.
  induction 1 as [|x y l1 l2 Hxy _ IH]; intros [|k] a; simpl;
    try discriminate.
  - intros E. injection E as <-. eauto.
  - apply IH.
Qed.

Lemma Forall2_elem {A B} (R : A -> B -> Prop) (l1 : list A) (l2 : list B)
  (i : Index) (a : A) :
  Forall2 R l1 l2 -> elem l1 i = Ok a -> exists b, elem l2 i = Ok b /\ R a b.
Proof.
  intros HF Ha. apply elem_Ok_iff in Ha as [H0 Ha].
  destruct (Forall2_nth_error R l1 l2 HF _ _ Ha) as [b [Hb HR]].
  exists b. split; [|assumption]. apply elem_Ok_iff. auto.
Qed.

Lemma elem_map {A B} (f : A -> B) (l : list A) (i : Index) :
  elem (map f l) i
  = match elem l i with Ok a => Ok (f a) | Err e => Err e | Fault => Fault end.
Proof.
  unfold elem. destruct (i <? 0); [reflexivity|].
  rewrite nth_error_map. destruct (nth_error l (Z.to_nat i)); reflexivity.
Qed.

Lemma elem_nth {A} (l : list A) (i : Index) (a d : A) :
  elem l i = Ok a -> nth (Z.to_nat i) l d = a.
Proof.
  intros H. apply elem_Ok_iff in H as [_ H]. now apply nth_error_nth.
Qed.

(** C10: in a table produced by a successful Adapt the nonlinear species
    list is strictly increasing; position i is in it exactly when the i-th
    requested species is found in the original table at a nonlinear species;
    and the positions of the species in the expanded species axis, computed
    by one scan in which a nonlinear species advances the position by n_hpert
    and any other species by one, are well defined, one per species, and
    strictly increasing. *)
Theorem Adapt_nonlinear_species_ordered
  (cs : ArrayOfArrayOfSpeciesTag) (cf : Vector) (self : GasAbsLookup) :
  fst (Adapt ext cs cf self) = Ok tt ->
  StronglySorted Z.lt (nonlinear_species (snd (Adapt ext cs cf self)))
  /\ (forall i,
        In i (nonlinear_species (snd (Adapt ext cs cf self)))
        <-> exists g k, elem cs i = Ok g
                        /\ chk_contains (species self) g = Ok k
                        /\ In k (nonlinear_species self))
  /\ exists non_linear,
       flag_nonlinear (nelem (species (snd (Adapt ext cs cf self))))
                      (nonlinear_species (snd (Adapt ext cs cf self)))
       = Ok non_linear
       /\ nelem (spec_pos_in_xsec non_linear
                   (nelem (nls_pert (snd (Adapt ext cs cf self)))) 0)
          = nelem (species (snd (Adapt ext cs cf self)))
       /\ StronglySorted Z.lt
            (spec_pos_in_xsec non_linear
               (nelem (nls_pert (snd (Adapt ext cs cf self)))) 0).
Proof.
  intros Hok.
  destruct (Adapt_Ok cs cf self Hok) as [nt [Hnt ->]].
  pose proof (Adapt_new_table_extents self cs cf nt Hnt)
    as (_ & _ & _ & _ & Hlen & _).
  apply Adapt_new_table_Ok in Hnt
    as (nl & ics & cnl & icf & v0 & x0 & sp & Hnl & Hchk & _ & _ & Hics
        & Hcnl & _ & _ & Hnls & _ & _ & _ & _ & _ & Hnp & _).
  apply chk_table_Ok in Hchk as (_ & _ & _ & _ & _ & _ & _ & _ & Hpert & _).
  apply flag_nonlinear_spec in Hnl as [Hfl _]; [|apply nelem_nonneg].
  pose proof (current_flags_eq _ _ _ _ _ Hfl Hcnl) as Ecnl.
  simpl. rewrite Hnls.
  destruct (flagged_from_spec cnl 0) as [Hsorted Hin].
  assert (Hlen_cnl : nelem cnl = nelem cs).
  { rewrite Ecnl. apply mapM_Ok_length in Hics.
    unfold nelem. rewrite length_map. congruence. }
  assert (Hmem : forall i,
             In i (flagged_from cnl 0)
             <-> exists g k, elem cs i = Ok g
                             /\ chk_contains (species self) g = Ok k
                             /\ In k (nonlinear_species self)).
  { intros i. rewrite Hin, Z.sub_0_r. apply mapM_Ok_Forall2 in Hics. split.
    - intros [Hi Hset].
      destruct (elem_in_range cs i) as [g Hg]; [zlia|].
      destruct (Forall2_elem _ _ _ _ _ Hics Hg) as [k [Hk Hfound]].
      exists g, k. split; [assumption|]. split; [assumption|].
      apply is_nonlinear_set.
      rewrite Ecnl in Hset.
      assert (Hm : elem (map (is_nonlinear (nonlinear_species self)) ics) i
                   = Ok (is_nonlinear (nonlinear_species self) k))
        by (rewrite elem_map, Hk; reflexivity).
      rewrite (elem_nth _ _ _ 0 Hm) in Hset. exact Hset.
    - intros (g & k & Hg & Hfound & Hk).
      destruct (Forall2_elem _ _ _ _ _ Hics Hg) as [k' [Hk' Hfound']].
      assert (k' = k) by congruence. subst k'.
      apply elem_Ok_iff in Hg as Hg'. destruct Hg' as [Hi0 Hgn].
      assert (Hlt : (Z.to_nat i < length cs)%nat)
        by (apply nth_error_Some; congruence).
      split; [zlia|].
      rewrite Ecnl.
      assert (Hm : elem (map (is_nonlinear (nonlinear_species self)) ics) i
                   = Ok (is_nonlinear (nonlinear_species self) k))
        by (rewrite elem_map, Hk'; reflexivity).
      rewrite (elem_nth _ _ _ 0 Hm). apply is_nonlinear_set. exact Hk. }
  split; [exact Hsorted|]. split; [exact Hmem|].
  destruct (flag_nonlinear_total (nelem (species nt)) (flagged_from cnl 0))
    as [flags Hflags].
  { apply nelem_nonneg. }
  { apply Forall_forall. intros q Hq. apply Hin in Hq. zlia. }
  exists flags. split; [exact Hflags|].
  apply flag_nonlinear_spec in Hflags as [[Hfl_len Hfl_get] _];
    [|apply nelem_nonneg].
  split; [rewrite spec_pos_in_xsec_length; exact Hfl_len|].
  apply spec_pos_in_xsec_increasing.
  intros Hex.
  (* a flag is set, so the new table keeps a nonlinear species and with it
     the humidity perturbations of the original table, which are not empty *)
  assert (Hne : flagged_from cnl 0 <> []).
  { apply Exists_exists in Hex as [f [Hf Hf0]].
    apply In_nth with (d := 0) in Hf as [m [Hm Em]].
    specialize (Hfl_get (Z.of_nat m) ltac:(zlia)).
    rewrite Nat2Z.id, Em in Hfl_get.
    destruct (existsb (Z.eqb (Z.of_nat m)) (flagged_from cnl 0)) eqn:Eex;
      [|congruence].
    apply existsb_eqb_In in Eex. intros E. rewrite E in Eex. destruct Eex. }
  assert (Hcount : nelem (flagged_from cnl 0) <> 0).
  { destruct (flagged_from cnl 0); [congruence | unfold nelem; simpl; lia]. }
  rewrite Hnp.
  replace (0 =? nelem (flagged_from cnl 0)) with false
    by (symmetry; apply Z.eqb_neq; congruence).
  destruct (flagged_from cnl 0) as [|q l] eqn:Eq; [congruence|].
  assert (Hq : In q (q :: l)) by (left; reflexivity).
  apply Hmem in Hq as (g & k & _ & _ & Hk).
  assert (Hn : nelem (nonlinear_species self) <> 0).
  { destruct (nonlinear_species self); [destruct Hk | unfold nelem; simpl; lia]. }
  pose proof (nelem_nonneg (nls_pert self)).
  assert (nelem (nls_pert self) <> 0) by (intros E; apply Hn, Hpert, E).
  lia.
Qed.

(** ** Adapt leaves the table alone until it has built the new one *)

Lemma find_all_nil (x : list (list SpeciesTag)) (what : list SpeciesTag)
  (i : Z) :
  ~ In what x -> find_all x what i = [].
Proof.
  revert i. induction x as [|g x IH]; intros i Hn; simpl; [reflexivity|].
  destruct (tag_group_eq_dec g what) as [E|E].
  - exfalso. apply Hn. left. exact E.
  - apply IH. intros H. apply Hn. right. exact H.
Qed.

Lemma mapM_app_Err {A B} (f : A -> result B) (l1 l2 : list A) (a : A)
  (bs : list B) (e : Error) :
  mapM f l1 = Ok bs -> f a = Err e -> mapM f (l1 ++ a :: l2) = Err e.
Proof.
  revert bs. induction l1 as [|x l1 IH]; simpl; intros bs H Ha.
  - now rewrite Ha.
  - apply bind_Ok_inv in H as [b [Hb H]].
    apply bind_Ok_inv in H as [bs' [H1 _]].
    rewrite Hb. simpl. now rewrite (IH bs' H1 Ha).
Qed.

(** C3: when Adapt does not succeed the table it was called on keeps every
    field; when it succeeds the table afterwards is the complete new table
    with its [log_p_grid] initialised, never a mixture.  A requested species
    that is absent from the table (the ones before it being found) makes
    Adapt fail with SpeciesNotFound, the table unchanged. *)
Theorem Adapt_is_atomic
  (cs : ArrayOfArrayOfSpeciesTag) (cf : Vector) (self : GasAbsLookup) :
  (fst (Adapt ext cs cf self) <> Ok tt -> snd (Adapt ext cs cf self) = self)
  /\ (fst (Adapt ext cs cf self) = Ok tt ->
      exists new_table,
        Adapt_new_table self cs cf = Ok new_table
        /\ snd (Adapt ext cs cf self) = init_log_p_grid ext new_table)
  /\ (forall found absent rest non_linear positions,
        flag_nonlinear (nelem (species self)) (nonlinear_species self)
        = Ok non_linear ->
        chk_table self = Ok tt ->
        is_increasing cf = true ->
        mapM (chk_contains (species self)) found = Ok positions ->
        ~ In absent (species self) ->
        Adapt ext (found ++ absent :: rest) cf self = (Err SpeciesNotFound, self)).
Proof.
  split; [|split].
  - unfold Adapt. destruct (Adapt_new_table self cs cf) as [nt|e|]; simpl;
      [intros H; exfalso; apply H; reflexivity | reflexivity | reflexivity].
  - apply Adapt_Ok.
  - intros found absent rest nl positions Hnl Hchk Hcf Hfound Habsent.
    assert (Hne : (0 =? nelem (found ++ absent :: rest)) = false).
    { apply Z.eqb_neq. unfold nelem. rewrite length_app. simpl. lia. }
    unfold Adapt, Adapt_new_table, chk_if_increasing.
    rewrite Hnl, Hchk, Hne, Hcf. cbn [bind throw_if negb].
    rewrite (mapM_app_Err _ found rest absent positions SpeciesNotFound Hfound).
    + reflexivity.
    + unfold chk_contains. now rewrite find_all_nil.
Qed.

(** The species-not-found scenario on a concrete table. *)
Example Adapt_species_not_found :
  Adapt ext [[tag_O3]; [{| Species := 7; Isotopologue := 0 |}]]
        [100%Q; 300%Q] full_table
  = (Err SpeciesNotFound, full_table).
Proof. reflexivity. Qed.

(** ** The shapes Adapt accepts *)

(** C7: a table with nonlinear species and no temperature perturbations is
    taken through the branch of the full case, which asks for
    [t_pert.nelem()] = 0 books.  Adapt accepts such a table when [xsec] has
    no book at all, so the first extent of an accepted table is not always
    max(n_tpert, 1) and the shape is none of the three legal ones; the same
    table with the one book that Extract asserts is refused. *)
Theorem Adapt_accepts_xsec_without_books :
  fst (Adapt ext [[tag_H2O]] [100%Q] (humidity_only_table 0)) = Ok tt
  /\ nbooks (xsec (humidity_only_table 0))
     <> Z.max (nelem (t_pert (humidity_only_table 0))) 1
  /\ fst (Adapt ext [[tag_H2O]] [100%Q] (humidity_only_table 1))
     = Err ShapeMismatch.
Proof.
  split; [reflexivity|]. split; [discriminate | reflexivity].
Qed.

(** Extract asserts one book for a table without temperature perturbations:
    on the table Adapt has accepted without books the assertion fails. *)
Example Extract_asserts_one_book :
  fst (Adapt reference_externals [[tag_H2O]] [100%Q] (humidity_only_table 0))
  = Ok tt
  /\ Extract reference_externals
       (snd (Adapt reference_externals [[tag_H2O]] [100%Q]
                   (humidity_only_table 0)))
       0 0 0 (-1) 1000%Q 250%Q [0.01%Q] = Fault.
Proof. split; reflexivity. Qed.

(** What Adapt accepts in general: the shape [chk_xsec] computes, and
    otherwise a ShapeMismatch. *)
Lemma Adapt_accepted_shape
  (cs : ArrayOfArrayOfSpeciesTag) (cf : Vector) (self : GasAbsLookup) :
  fst (Adapt ext cs cf self) = Ok tt ->
  is_size4 (xsec self) (expected_books self) (expected_pages self)
           (nelem (f_grid self)) (nelem (p_grid self)) = true.
Proof.
  intros Hok. destruct (Adapt_Ok cs cf self Hok) as [nt [Hnt _]].
  apply Adapt_new_table_Ok in Hnt
    as (nl & ics & cnl & icf & v0 & x0 & sp & _ & Hchk & _).
  apply chk_table_Ok in Hchk as (_ & _ & _ & _ & _ & _ & _ & _ & _ & Hxs).
  now apply chk_xsec_Ok.
Qed.

(** ** Extract: the range checks and their array reads *)

Lemma pressure_range_check_single_level (p_grid : list Q) (p : Q) :
  nelem p_grid = 1 -> pressure_range_check p_grid p = Fault.
Proof.
  destruct p_grid as [|p0 [|p1 rest]]; unfold nelem; simpl; intros H;
    try lia; reflexivity.
Qed.

Lemma perturbation_range_check_single_point (pert : list Q) (x : Q) (e : Error) :
  nelem pert = 1 -> perturbation_range_check pert x e = Fault.
Proof.
  destruct pert as [|x0 [|x1 rest]]; unfold nelem; simpl; intros H;
    try lia; reflexivity.
Qed.

(** With two grid points or more the four reads of a range check stay inside
    the grid. *)
Lemma pressure_range_check_in_bounds (p_grid : list Q) (p : Q) :
  2 <= nelem p_grid -> pressure_range_check p_grid p <> Fault.
Proof.
  intros Hn. unfold pressure_range_check.
  destruct (elem_in_range p_grid 0) as [a0 ->]; [lia|].
  destruct (elem_in_range p_grid 1) as [a1 ->]; [lia|].
  destruct (elem_in_range p_grid (nelem p_grid - 1)) as [a2 ->]; [lia|].
  destruct (elem_in_range p_grid (nelem p_grid - 2)) as [a3 ->]; [lia|].
  cbn [bind]. unfold throw_if.
  match goal with |- (if ?c then _ else _) <> _ => destruct c end; discriminate.
Qed.

Lemma perturbation_range_check_in_bounds (pert : list Q) (x : Q) (e : Error) :
  2 <= nelem pert -> perturbation_range_check pert x e <> Fault.
Proof.
  intros Hn. unfold perturbation_range_check.
  destruct (elem_in_range pert 0) as [a0 ->]; [lia|].
  destruct (elem_in_range pert 1) as [a1 ->]; [lia|].
  destruct (elem_in_range pert (nelem pert - 1)) as [a2 ->]; [lia|].
  destruct (elem_in_range pert (nelem pert - 2)) as [a3 ->]; [lia|].
  cbn [bind]. unfold throw_if.
  match goal with |- (if ?c then _ else _) <> _ => destruct c end; discriminate.
Qed.

(** The reads of the range checks are inside the grid exactly when the
    grid has two points or more: with one point they are outside, whatever
    the value checked. *)
Lemma range_checks_in_bounds (grid : list Q) (x : Q) (e : Error) :
  1 <= nelem grid ->
  (2 <= nelem grid
   <-> pressure_range_check grid x <> Fault
       /\ perturbation_range_check grid x e <> Fault).
Proof.
  intros H1. split.
  - intros H2. split;
      [apply pressure_range_check_in_bounds
      | apply perturbation_range_check_in_bounds]; exact H2.
  - intros [Hp _]. destruct (Z.le_gt_cases 2 (nelem grid)) as [H|H]; [exact H|].
    exfalso. apply Hp. apply pressure_range_check_single_level. lia.
Qed.

(** C9: the range checks are to read inside their grids whenever the
    interpolation order checks pass.  A table with one pressure level passes
    the order check at order 0 (1 >= 0 + 1), and the pressure range check
    then reads [p_grid[1]] and [p_grid[n_p_grid - 2]], which do not exist:
    whatever the pressure, the temperature and the frequency selection,
    Extract indexes the pressure grid outside its bounds. *)
Theorem Extract_single_pressure_level_out_of_bounds
  (t_interp_order h2o_interp_order : Z) (p T vmr : Q) :
  Extract_checks ext (single_level_table ext) 0 t_interp_order
                 h2o_interp_order [vmr] = Ok (-1)
  /\ Extract ext (single_level_table ext) 0 t_interp_order h2o_interp_order
             (-1) p T [vmr] = Fault
  /\ Extract ext (single_level_table ext) 0 t_interp_order h2o_interp_order
             0 p T [vmr] = Fault.
Proof. repeat split; reflexivity. Qed.

(** The same reads on an active perturbation axis with a single point. *)
Lemma temperature_position_single_perturbation
  (self : GasAbsLookup) (t_interp_order : Z) (T : Q) (level_index : Z) :
  nelem (t_pert self) = 1 ->
  0 <= level_index < nelem (t_ref self) ->
  temperature_position ext self t_interp_order T level_index = Fault.
Proof.
  intros Hn Hl. unfold temperature_position. rewrite Hn. simpl.
  destruct (elem_in_range (t_ref self) level_index Hl) as [tr ->].
  cbn [bind].
  now rewrite perturbation_range_check_single_point.
Qed.

Lemma humidity_position_single_perturbation
  (self : GasAbsLookup) (h2o_interp_order h2o_index : Z) (abs_vmrs : list Q)
  (level_index : Z) (gp : GridPosPoly) :
  0 < nelem (nonlinear_species self) ->
  nelem (nls_pert self) = 1 ->
  humidity_position ext self h2o_interp_order h2o_index abs_vmrs level_index
  <> Ok gp.
Proof.
  intros Hnls Hn. unfold humidity_position.
  apply Z.ltb_lt in Hnls. rewrite Hnls.
  destruct (mat_elem (vmrs_ref self) h2o_index level_index); try discriminate.
  destruct (elem abs_vmrs h2o_index); try discriminate.
  cbn [bind]. now rewrite perturbation_range_check_single_point.
Qed.

(** ** Extract: the frequency selection *)

(** C5: for a call that passes the checks on the table and on the input, a
    frequency index at or beyond n_freq fails with IndexOutOfRange, and every
    result is a matrix with one column per species and with n_freq rows for a
    negative frequency index, one row for an index inside the grid. *)
Theorem Extract_frequency_selection (self : GasAbsLookup)
  (p_interp_order t_interp_order h2o_interp_order f_index : Z)
  (p T : Q) (abs_vmrs : list Q) (h2o_index : Z) :
  Extract_checks ext self p_interp_order t_interp_order h2o_interp_order
                 abs_vmrs = Ok h2o_index ->
  (nelem (f_grid self) <= f_index ->
   Extract ext self p_interp_order t_interp_order h2o_interp_order f_index
           p T abs_vmrs = Err IndexOutOfRange)
  /\ (forall sga,
        Extract ext self p_interp_order t_interp_order h2o_interp_order f_index
                p T abs_vmrs = Ok sga ->
        m_ncols sga = nelem (species self)
        /\ (f_index < 0 -> m_nrows sga = nelem (f_grid self))
        /\ (0 <= f_index ->
            f_index < nelem (f_grid self) /\ m_nrows sga = 1)).
Proof.
  intros Hchk. unfold Extract. rewrite Hchk. cbn [bind].
  unfold frequency_range. split.
  - intros Hhigh. pose proof (nelem_nonneg (f_grid self)).
    destruct (Z.ltb_spec f_index 0); [lia|].
    destruct (Z.leb_spec (nelem (f_grid self)) f_index); [reflexivity | lia].
  - intros sga H.
    destruct (Z.ltb_spec f_index 0) as [Hneg|Hpos].
    + cbn [bind] in H.
      apply bind_Ok_inv in H as [nl [_ H]].
      apply bind_Ok_inv in H as [[] [_ H]].
      apply bind_Ok_inv in H as [pgp [_ H]].
      apply bind_Ok_inv in H as [pitw [_ H]].
      apply bind_Ok_inv in H as [pre [_ H]].
      injection H as <-. simpl. split; [reflexivity|]. split; [auto | lia].
    + destruct (Z.leb_spec (nelem (f_grid self)) f_index) as [Hhigh|Hin];
        [discriminate|].
      cbn [bind throw_if] in H.
      apply bind_Ok_inv in H as [nl [_ H]].
      apply bind_Ok_inv in H as [[] [_ H]].
      apply bind_Ok_inv in H as [pgp [_ H]].
      apply bind_Ok_inv in H as [pitw [_ H]].
      apply bind_Ok_inv in H as [pre [_ H]].
      injection H as <-. simpl. split; [reflexivity|]. split; [lia | auto].
Qed.

(** ** Extract: the pressure range *)

Lemma Qgtb_true (x y : Q) : Qgtb x y = true <-> (y < x)%Q.
Proof.
  unfold Qgtb. rewrite negb_true_iff. split.
  - intros H. apply Qnot_le_lt. intros Hle.
    apply Qle_bool_iff in Hle. congruence.
  - intros H. destruct (Qle_bool x y) eqn:E; [|reflexivity].
    apply Qle_bool_iff in E. exfalso. apply (Qlt_not_le _ _ H E).
Qed.

Lemma Qltb_true (x y : Q) : Qltb x y = true <-> (x < y)%Q.
Proof. unfold Qltb. apply (Qgtb_true y x). Qed.

Lemma Qgtb_false (x y : Q) : Qgtb x y = false <-> (x <= y)%Q.
Proof.
  unfold Qgtb. rewrite negb_false_iff. apply Qle_bool_iff.
Qed.

Lemma Qltb_false (x y : Q) : Qltb x y = false <-> (y <= x)%Q.
Proof. unfold Qltb. apply (Qgtb_false y x). Qed.

Lemma is_decreasing_nth (l : list Q) :
  is_decreasing l = true ->
  forall i j, (i < j < length l)%nat -> (nth j l 0 < nth i l 0)%Q.
Proof.
  induction l as [|a l IH]; intros Hd i j Hij; simpl in Hij; [lia|].
  cbn [is_decreasing] in Hd.
  destruct l as [|b l]; [simpl in Hij; lia|].
  apply andb_true_iff in Hd as [Hba Hd]. apply Qltb_true in Hba.
  destruct j as [|j]; [lia|].
  destruct i as [|i].
  - cbn [nth].
    destruct j as [|j]; [exact Hba|].
    apply Qlt_trans with (y := b); [|exact Hba].
    apply (IH Hd 0%nat (S j)). simpl in *. lia.
  - cbn [nth]. apply (IH Hd i j). simpl in *. lia.
Qed.

Lemma pressure_range_check_unfold (p_grid : list Q) (p : Q) :
  2 <= nelem p_grid ->
  pressure_range_check p_grid p
  = throw_if (Qgtb p (p_max p_grid) || Qltb p (p_min p_grid)) PressureOutOfRange.
Proof.
  intros Hn. unfold pressure_range_check, p_max, p_min.
  assert (Hlen : (2 <= length p_grid)%nat) by zlia.
  assert (Hget : forall k, (k < length p_grid)%nat ->
                           elem p_grid (Z.of_nat k) = Ok (nth k p_grid 0%Q)).
  { intros k Hk. rewrite elem_of_nat.
    now rewrite (nth_error_nth' p_grid 0%Q Hk). }
  change 0 with (Z.of_nat 0). change 1 with (Z.of_nat 1).
  rewrite (Hget 0%nat), (Hget 1%nat) by lia. cbn [bind].
  replace (nelem p_grid - Z.of_nat 1) with (Z.of_nat (length p_grid - 1)) by zlia.
  replace (nelem p_grid - 2) with (Z.of_nat (length p_grid - 2)) by zlia.
  rewrite !Hget by lia. reflexivity.
Qed.

Lemma pressure_range_check_Ok (p_grid : list Q) (p : Q) :
  2 <= nelem p_grid ->
  (pressure_range_check p_grid p = Ok tt
   <-> (p_min p_grid <= p /\ p <= p_max p_grid)%Q)
  /\ (pressure_range_check p_grid p = Err PressureOutOfRange
      <-> (p_max p_grid < p \/ p < p_min p_grid)%Q).
Proof.
  intros Hn. rewrite (pressure_range_check_unfold p_grid p Hn).
  unfold throw_if.
  destruct (Qgtb p (p_max p_grid)) eqn:Ehi;
    [apply Qgtb_true in Ehi | apply Qgtb_false in Ehi].
  - cbn [orb]. split; split; intros H; try discriminate; auto.
    destruct H as [_ H]. exfalso. lra.
  - destruct (Qltb p (p_min p_grid)) eqn:Elo;
      [apply Qltb_true in Elo | apply Qltb_false in Elo]; cbn [orb].
    + split; split; intros H; try discriminate; auto.
      destruct H as [H _]. exfalso. lra.
    + split; split; intros H; try discriminate; auto.
      destruct H as [H|H]; exfalso; lra.
Qed.

Lemma p_min_le_p_max (p_grid : list Q) :
  2 <= nelem p_grid -> is_decreasing p_grid = true ->
  (p_min p_grid <= p_max p_grid)%Q.
Proof.
  intros Hn Hd. pose proof (is_decreasing_nth p_grid Hd) as Hnth.
  assert (Hlen : (2 <= length p_grid)%nat) by zlia.
  unfold p_min, p_max.
  pose proof (Hnth 0%nat 1%nat ltac:(lia)) as H01.
  pose proof (Hnth (length p_grid - 2)%nat (length p_grid - 1)%nat ltac:(lia))
    as Hlast.
  assert (H0l : (nth (length p_grid - 1) p_grid 0 <= nth 0 p_grid 0)%Q).
  { apply Qlt_le_weak. apply Hnth. lia. }
  lra.
Qed.

(** C6, as the code has it: for a table with at least two pressure levels,
    in decreasing order, a pressure equal to
    p_grid[0] + 0.5 * (p_grid[0] - p_grid[1]) passes the pressure range check
    and any pressure beyond it fails with PressureOutOfRange; the allowed
    interval is [p_grid[last] - 0.5 * (p_grid[last-1] - p_grid[last]),
    p_grid[0] + 0.5 * (p_grid[0] - p_grid[1])], taken on the pressures
    themselves, with the grid spacing next to each end.  A call that has
    passed the earlier checks fails with PressureOutOfRange outside this
    interval. *)
Theorem pressure_range_is_linear (self : GasAbsLookup)
  (p_interp_order t_interp_order h2o_interp_order f_index : Z)
  (p T : Q) (abs_vmrs : list Q) :
  2 <= nelem (p_grid self) ->
  is_decreasing (p_grid self) = true ->
  ((p == p_max (p_grid self))%Q ->
   pressure_range_check (p_grid self) p = Ok tt)
  /\ ((p_max (p_grid self) < p)%Q ->
      pressure_range_check (p_grid self) p = Err PressureOutOfRange)
  /\ (pressure_range_check (p_grid self) p = Ok tt
      <-> (p_min (p_grid self) <= p /\ p <= p_max (p_grid self))%Q)
  /\ (forall h2o_index f_range non_linear,
        Extract_checks ext self p_interp_order t_interp_order h2o_interp_order
                       abs_vmrs = Ok h2o_index ->
        frequency_range (nelem (f_grid self)) f_index = Ok f_range ->
        flag_nonlinear (nelem (species self)) (nonlinear_species self)
        = Ok non_linear ->
        (p_max (p_grid self) < p \/ p < p_min (p_grid self))%Q ->
        Extract ext self p_interp_order t_interp_order h2o_interp_order
                f_index p T abs_vmrs = Err PressureOutOfRange).
Proof.
  intros Hn Hd.
  destruct (pressure_range_check_Ok (p_grid self) p Hn) as [Hok Herr].
  pose proof (p_min_le_p_max (p_grid self) Hn Hd) as Hle.
  split; [|split; [|split]].
  - intros E. apply Hok. rewrite E. split; [exact Hle | apply Qle_refl].
  - intros H. apply Herr. left. exact H.
  - exact Hok.
  - intros h fr nl Hchk Hfr Hnl Hout.
    unfold Extract. rewrite Hchk. cbn [bind]. rewrite Hfr.
    destruct fr as [f_start f_extent]. cbn [bind]. rewrite Hnl. cbn [bind].
    apply Herr in Hout. rewrite Hout. reflexivity.
Qed.

(** C6 as stated puts the allowed interval in log space.  On the grid
    [1000, 500, 100] Pa the pressure 1300 Pa lies inside the log-space
    interval (1300^2 * 500 < 1000^3) and is refused by the check, which
    compares the pressures themselves (1300 > 1250). *)
Lemma pressure_range_not_in_log_space :
  ~ (forall (p_grid : list Q) (p : Q),
        2 <= nelem p_grid ->
        is_decreasing p_grid = true ->
        (pressure_range_check p_grid p = Ok tt
         <-> in_log_space_interval p_grid p)).
Proof.
  intros Hclaim.
  specialize (Hclaim [1000%Q; 500%Q; 100%Q] 1300%Q ltac:(vm_compute; discriminate)
                eq_refl).
  assert (Hin : in_log_space_interval [1000%Q; 500%Q; 100%Q] 1300%Q).
  { unfold in_log_space_interval. cbn [length Nat.sub nth].
    replace (Q2R 100) with 100%R by (unfold Q2R; simpl; lra).
    replace (Q2R 500) with 500%R by (unfold Q2R; simpl; lra).
    replace (Q2R 1000) with 1000%R by (unfold Q2R; simpl; lra).
    replace (Q2R 1300) with 1300%R by (unfold Q2R; simpl; lra).
    assert (Hup : (ln (1300 * 1300 * 500) < ln (1000 * 1000 * 1000))%R)
      by (apply ln_increasing; lra).
    assert (Hlo : (ln (100 * 100 * 100) < ln (1300 * 1300 * 500))%R)
      by (apply ln_increasing; lra).
    rewrite !ln_mult in Hup, Hlo by lra.
    split; lra. }
  apply Hclaim in Hin. vm_compute in Hin. discriminate.
Qed.

(** ** Extract at a tabulated pressure, order 0 *)

(** Evaluates [nelem] on the lists that are written out. *)
Ltac nelem_concrete :=
  repeat match goal with
         | |- context [@nelem ?A ?l] =>
             lazymatch l with
             | nil => change (@nelem A l) with 0
             | cons _ _ =>
                 let v := eval cbv in (@nelem A l) in
                 change (@nelem A l) with v
             end
         end.

Lemma mapM_total {A B} (f : A -> result B) (g : A -> B) (l : list A) :
  (forall a, In a l -> f a = Ok (g a)) -> mapM f l = Ok (map g l).
Proof.
  induction l as [|a l IH]; simpl; intros H; [reflexivity|].
  rewrite (H a) by (left; reflexivity). cbn [bind].
  rewrite IH by (intros b Hb; apply H; right; exact Hb). reflexivity.
Qed.

Lemma nth_map_upto {B} (g : Z -> B) (n f : Z) (d : B) :
  0 <= f < n -> nth (Z.to_nat f) (map g (upto n)) d = g f.
Proof.
  intros Hf. unfold upto. rewrite map_map.
  rewrite (nth_indep _ d (g (Z.of_nat 0)))
    by (rewrite length_map, length_seq; lia).
  rewrite (map_nth (fun k => g (Z.of_nat k)) (seq 0 (Z.to_nat n)) 0%nat).
  rewrite seq_nth by lia. simpl. f_equal. lia.
Qed.

(** C1 (relative to the contract of [gridpos_poly], which is not among the
    sources: at order 0 it places log(500) in the log pressure grid at
    position 1 with weight 1): for the table with pressures 1000, 500 and
    100 Pa, one species, no temperature perturbations and no nonlinear
    species, and coefficients v0, v1, v2 at each frequency, Extract at
    pressure order 0, p = 500 Pa and any T > 0 returns, for every selected
    frequency, v1 * number_density(500, T) * vmr[0], where number_density is
    p / kB / T. *)
Theorem Extract_order0_at_grid_pressure
  (sp : list SpeciesTag) (fg : list Q) (vref : Z -> Z -> Q) (tr0 tr1 tr2 : Q)
  (v0 v1 v2 : Z -> Q)
  (t_interp_order h2o_interp_order f_index : Z) (T vmr0 : Q) :
  gridpos_poly ext (map (log ext) [1000%Q; 500%Q; 100%Q]) (log ext 500%Q) 0
  = Ok {| idx := [1]; w := [1%Q] |} ->
  (0 < T)%Q ->
  f_index < nelem fg ->
  exists sga,
    Extract ext (order0_table ext sp fg vref tr0 tr1 tr2 v0 v1 v2)
            0 t_interp_order h2o_interp_order f_index 500%Q T [vmr0] = Ok sga
    /\ m_ncols sga = 1
    /\ m_nrows sga = (if f_index <? 0 then nelem fg else 1)
    /\ (forall f, 0 <= f < m_nrows sga ->
          (m_get sga f 0
           == v1 ((if f_index <? 0 then 0 else f_index) + f)%Z
              * number_density ext 500 T * vmr0)%Q)
    /\ (number_density ext 500 T == / BOLTZMAN_CONST ext * (500 / T))%Q.
Proof.
  intros Hgp HT Hf.
  set (tab := order0_table ext sp fg vref tr0 tr1 tr2 v0 v1 v2).
  remember (if f_index <? 0 then 0 else f_index) as f_start eqn:Estart.
  remember (if f_index <? 0 then nelem fg else 1) as f_extent eqn:Eextent.
  pose proof (nelem_nonneg fg) as Hfg.
  assert (Hchk : Extract_checks ext tab 0 t_interp_order h2o_interp_order [vmr0]
                 = Ok (-1)).
  { unfold Extract_checks, tab, order0_table, init_log_p_grid.
    cbn [species nonlinear_species f_grid p_grid log_p_grid vmrs_ref t_ref
         t_pert nls_pert xsec map].
    nelem_concrete. cbn -[nelem].
    unfold is_size4. cbn -[nelem]. rewrite Z.eqb_refl. reflexivity. }
  assert (Hfr : frequency_range (nelem (f_grid tab)) f_index
                = Ok (f_start, f_extent)).
  { unfold frequency_range. subst f_start f_extent.
    cbn [tab order0_table init_log_p_grid f_grid].
    destruct (Z.ltb_spec f_index 0); [reflexivity|].
    destruct (Z.leb_spec (nelem fg) f_index); [lia | reflexivity]. }
  assert (Hrange : 0 <= f_start /\ 0 <= f_extent /\ f_start + f_extent <= nelem fg).
  { subst f_start f_extent. destruct (Z.ltb_spec f_index 0); lia. }
  assert (Hlevel :
            level ext tab t_interp_order h2o_interp_order f_start f_extent (-1)
                  T [vmr0] [0] {| idx := [1]; w := [1%Q] |} 0
            = Ok [map (fun f => v1 (f_start + f)) (upto f_extent)]).
  { unfold level, temperature_position, humidity_position, species_loop,
      interpolate_species, tab, order0_table, init_log_p_grid.
    cbn [species nonlinear_species f_grid p_grid log_p_grid vmrs_ref t_ref
         t_pert nls_pert xsec map idx w].
    nelem_concrete. change (upto 1) with [0].
    cbn -[nelem upto view_fits view_elem mapM].
    match goal with
    | |- context [assert ?c] =>
        replace c with true
          by (symmetry; unfold view_fits, range_fits, in_range; cbn -[nelem];
              rewrite !andb_true_iff, !Z.leb_le; lia)
    end.
    cbn [assert bind].
    rewrite (mapM_total _ (fun f => v1 (f_start + f))).
    - reflexivity.
    - intros f Hin. apply upto_In in Hin. unfold view_elem.
      replace (in_range f f_extent) with true
        by (symmetry; apply in_range_true; exact Hin).
      reflexivity. }
  eexists. split.
  - unfold Extract. rewrite Hchk. cbn [bind]. rewrite Hfr. cbn [bind].
    change (flag_nonlinear (nelem (species tab)) (nonlinear_species tab))
      with (Ok [0] : result (list Z)).
    cbn [bind].
    change (pressure_range_check (p_grid tab) 500%Q) with (Ok tt : result unit).
    cbn [bind].
    change (log_p_grid tab) with (map (log ext) [1000%Q; 500%Q; 100%Q]).
    rewrite Hgp. cbn [bind].
    change (interpweights1 (0 + 1) {| idx := [1]; w := [1%Q] |})
      with (Ok [1%Q] : result (list Q)).
    cbn [bind].
    change (upto (0 + 1)) with [0]. cbn [mapM].
    rewrite Hlevel. cbn [bind]. reflexivity.
  - cbn [m_ncols m_nrows m_get]. split; [reflexivity|]. split; [reflexivity|].
    split.
    + intros f Hfin. unfold sga_elem. cbn [combine fold_left nth Z.to_nat].
      rewrite nth_map_upto by exact Hfin.
      ring.
    + unfold number_density, Qdiv. ring.
Qed.

(** ** Adapting twice *)

Lemma upto_succ (n : Z) : 0 <= n -> upto (n + 1) = upto n ++ [n].
Proof.
  intros Hn. unfold upto.
  replace (Z.to_nat (n + 1)) with (S (Z.to_nat n)) by lia.
  rewrite seq_S, map_app. simpl. do 2 f_equal. lia.
Qed.

Lemma elem_upto (n i : Z) : 0 <= i < n -> elem (upto n) i = Ok i.
Proof.
  intros Hi. apply elem_Ok_iff. split; [lia|].
  unfold upto. rewrite nth_error_map, nth_error_seq.
  destruct (Nat.ltb_spec (Z.to_nat i) (Z.to_nat n)); [|lia].
  simpl. f_equal. lia.
Qed.

(** A loop that produces the entries of [l] one by one produces [l]. *)
Lemma mapM_upto_nth {B} (f : Z -> result B) (l : list B) (d : B) :
  (forall i, 0 <= i < nelem l -> f i = Ok (nth (Z.to_nat i) l d)) ->
  mapM f (upto (nelem l)) = Ok l.
Proof.
  intros H. rewrite (mapM_total f (fun i => nth (Z.to_nat i) l d)).
  - f_equal. unfold upto, nelem. rewrite Nat2Z.id, map_map.
    apply nth_ext with (d := d) (d' := d).
    + now rewrite length_map, length_seq.
    + intros k Hk. rewrite length_map, length_seq in Hk.
      rewrite (nth_indep _ d (nth (Z.to_nat (Z.of_nat 0)) l d))
        by (rewrite length_map, length_seq; exact Hk).
      rewrite (map_nth (fun k => nth (Z.to_nat (Z.of_nat k)) l d)).
      rewrite seq_nth by exact Hk. simpl. now rewrite Nat2Z.id.
  - intros i Hi. apply upto_In in Hi. auto.
Qed.

Lemma mapM_elem_upto {A} (l : list A) : mapM (elem l) (upto (nelem l)) = Ok l.
Proof.
  destruct l as [|a l]; [reflexivity|].
  apply (mapM_upto_nth _ _ a). intros i Hi.
  apply elem_Ok_iff. split; [lia|].
  apply nth_error_nth'. zlia.
Qed.

(** *** The species found again *)

Lemma find_all_In (x : list (list SpeciesTag)) (what : list SpeciesTag)
  (i0 k : Z) :
  In k (find_all x what i0)
  <-> exists m, k = i0 + Z.of_nat m /\ nth_error x m = Some what.
Proof.
  revert i0. induction x as [|g x IH]; intros i0; simpl.
  - split; [intros [] | intros [[|m] [_ H]]; discriminate].
  - destruct (tag_group_eq_dec g what) as [E|E].
    + simpl. rewrite IH. split.
      * intros [<- | [m [-> Hm]]].
        -- exists 0%nat. split; [lia | simpl; congruence].
        -- exists (S m). split; [lia | exact Hm].
      * intros [[|m] [-> Hm]].
        -- left. lia.
        -- right. exists m. split; [lia | exact Hm].
    + rewrite IH. split.
      * intros [m [-> Hm]]. exists (S m). split; [lia | exact Hm].
      * intros [[|m] [-> Hm]].
        -- simpl in Hm. congruence.
        -- exists m. split; [lia | exact Hm].
Qed.

Lemma chk_contains_elem (x : list (list SpeciesTag)) (what : list SpeciesTag)
  (k : Z) :
  chk_contains x what = Ok k -> elem x k = Ok what.
Proof.
  unfold chk_contains.
  destruct (find_all x what 0) as [|i [|i' l]] eqn:E; try discriminate.
  intros H. injection H as <-.
  assert (Hin : In i (find_all x what 0)) by (rewrite E; left; reflexivity).
  apply find_all_In in Hin as [m [-> Hm]].
  simpl. rewrite elem_of_nat, Hm. reflexivity.
Qed.

Lemma find_all_once (pre post : list (list SpeciesTag))
  (what : list SpeciesTag) (i0 : Z) :
  ~ In what pre -> ~ In what post ->
  find_all (pre ++ what :: post) what i0 = [i0 + nelem pre].
Proof.
  revert i0. induction pre as [|g pre IH]; intros i0 Hpre Hpost; simpl.
  - destruct (tag_group_eq_dec what what) as [_|E]; [|congruence].
    rewrite find_all_nil by exact Hpost. unfold nelem. simpl. f_equal. lia.
  - destruct (tag_group_eq_dec g what) as [E|E].
    + exfalso. apply Hpre. left. exact E.
    + rewrite IH; [|intros H; apply Hpre; right; exact H | exact Hpost].
      unfold nelem. simpl length. f_equal. lia.
Qed.

(** Looking up the species of a list without repetitions in that list
    itself gives every position in turn. *)
Lemma chk_contains_self (l : list (list SpeciesTag)) :
  NoDup l -> mapM (chk_contains l) l = Ok (upto (nelem l)).
Proof.
  intros Hnd.
  assert (Hgen : forall post pre,
             l = pre ++ post ->
             mapM (chk_contains l) post
             = Ok (map (fun i => nelem pre + i) (upto (nelem post)))).
  { induction post as [|a post IH]; intros pre Hl; [reflexivity|].
    cbn [mapM].
    assert (Ha : chk_contains l a = Ok (nelem pre)).
    { unfold chk_contains. rewrite Hl.
      rewrite Hl in Hnd. apply NoDup_remove_2 in Hnd.
      rewrite find_all_once.
      - f_equal.
      - intros H. apply Hnd, in_or_app. left. exact H.
      - intros H. apply Hnd, in_or_app. right. exact H. }
    rewrite Ha. cbn [bind].
    rewrite (IH (pre ++ [a])) by (rewrite <- app_assoc; exact Hl).
    cbn [bind]. f_equal.
    rewrite upto_nelem_S. cbn [map]. f_equal; [lia|].
    rewrite map_map. apply map_ext. intros i.
    unfold nelem. rewrite length_app. simpl. lia. }
  rewrite (Hgen l []) by reflexivity.
  f_equal. rewrite <- (map_id (upto (nelem l))) at 2.
  apply map_ext. intros i. unfold nelem. simpl. lia.
Qed.

(** The species list of the new table is the list that was asked for. *)
Lemma adapted_species (x cs : list (list SpeciesTag)) (ics : list Z)
  (new_species : list (list SpeciesTag)) :
  mapM (chk_contains x) cs = Ok ics ->
  mapM (elem x) ics = Ok new_species ->
  new_species = cs.
Proof.
  revert ics new_species. induction cs as [|g cs IH]; intros ics sp H1 H2.
  - cbn in H1. injection H1 as <-. cbn in H2. injection H2 as <-. reflexivity.
  - cbn [mapM] in H1.
    apply bind_Ok_inv in H1 as [k [Hk H1]].
    apply bind_Ok_inv in H1 as [ics' [Hics H1]]. injection H1 as <-.
    cbn [mapM] in H2.
    apply bind_Ok_inv in H2 as [g' [Hg H2]].
    apply bind_Ok_inv in H2 as [sp' [Hsp H2]]. injection H2 as <-.
    apply chk_contains_elem in Hk. rewrite Hk in Hg. injection Hg as <-.
    f_equal. eapply IH; eassumption.
Qed.

(** *** The flags found again *)

Lemma is_nonlinear_binary (nls ics : list Z) :
  binary (map (is_nonlinear nls) ics).
Proof.
  unfold binary. apply Forall_forall. intros f Hf.
  apply in_map_iff in Hf as [k [<- _]]. unfold is_nonlinear.
  destruct (existsb (Z.eqb k) nls); auto.
Qed.

Lemma flag_nonlinear_flagged (flags : list Z) :
  binary flags ->
  flag_nonlinear (nelem flags) (flagged_from flags 0) = Ok flags.
Proof.
  intros Hbin.
  destruct (flagged_from_spec flags 0) as [_ Hin].
  destruct (flag_nonlinear_total (nelem flags) (flagged_from flags 0))
    as [flags' Hflags'].
  { apply nelem_nonneg. }
  { apply Forall_forall. intros q Hq. apply Hin in Hq. lia. }
  rewrite Hflags'. f_equal.
  apply flag_nonlinear_spec in Hflags' as [[Hlen Hget] _];
    [|apply nelem_nonneg].
  apply nth_ext with (d := 0) (d' := 0); [zlia|].
  intros k Hk.
  specialize (Hget (Z.of_nat k) ltac:(zlia)). rewrite Nat2Z.id in Hget.
  rewrite Hget.
  assert (Hf : In (nth k flags 0) flags) by (apply nth_In; zlia).
  unfold binary in Hbin. rewrite Forall_forall in Hbin.
  specialize (Hin (Z.of_nat k)).
  rewrite Z.sub_0_r, Nat2Z.id in Hin.
  destruct (existsb (Z.eqb (Z.of_nat k)) (flagged_from flags 0)) eqn:E.
  - apply existsb_eqb_In, Hin in E as [_ E].
    destruct (Hbin _ Hf); congruence.
  - destruct (Hbin _ Hf) as [H0|H1]; [congruence|].
    assert (Hq : In (Z.of_nat k) (flagged_from flags 0)).
    { apply Hin. split; [zlia | lia]. }
    apply existsb_eqb_In in Hq. congruence.
Qed.

Lemma current_flags_self (flags : list Z) :
  binary flags -> current_flags flags (upto (nelem flags)) = Ok flags.
Proof.
  intros Hbin. unfold current_flags.
  apply (mapM_upto_nth _ _ 0). intros i Hi.
  destruct (elem_in_range flags i Hi) as [f Hf].
  rewrite Hf. cbn [bind]. f_equal.
  rewrite (elem_nth _ _ _ 0 Hf).
  apply elem_Ok_iff in Hf as [_ Hf]. apply nth_error_In in Hf.
  unfold binary in Hbin. rewrite Forall_forall in Hbin.
  destruct (Hbin f Hf) as [-> | ->]; reflexivity.
Qed.

Lemma strictly_sorted_is_unique (l : list Z) :
  StronglySorted Z.lt l -> is_unique l = true.
Proof.
  induction 1 as [|a l Hs IH Ha]; simpl; [reflexivity|].
  rewrite IH, andb_true_r. apply negb_true_iff.
  destruct (existsb (Z.eqb a) l) eqn:E; [|reflexivity].
  apply existsb_eqb_In in E. rewrite Forall_forall in Ha.
  specialize (Ha a E). lia.
Qed.

Lemma chk_if_in_range_all (l : list Z) (n : Z) :
  Forall (fun x => 0 <= x < n) l ->
  exists us, mapM (fun x => chk_if_in_range x 0 (n - 1)) l = Ok us.
Proof.
  induction 1 as [|x l Hx _ [us IH]]; simpl; [eauto|].
  unfold chk_if_in_range at 1.
  replace ((0 <=? x) && (x <=? n - 1)) with true
    by (symmetry; apply andb_true_iff; rewrite !Z.leb_le; lia).
  cbn [negb throw_if bind]. rewrite IH. cbn [bind]. eauto.
Qed.

(** *** The frequencies found again *)

Lemma locate_chain (new_grid : list Q) :
  forall (j : Z) (v : Q) (rest : list Q) (pos : list Z) (pre : list Q),
    locate new_grid j (v :: rest) = Ok pos ->
    nelem pre = j ->
    exists vals,
      Forall2 (fun q u => elem (pre ++ v :: rest) q = Ok u) pos vals
      /\ Forall2 near new_grid vals
      /\ chain v new_grid vals.
Proof.
  induction new_grid as [|x new_grid IH]; intros j v rest pos pre Hloc Hj.
  - cbn in Hloc. injection Hloc as <-. exists []. repeat split; constructor.
  - cbn [locate] in Hloc.
    destruct (seek_spec x (v :: rest) ltac:(discriminate) j)
      as [(skipped & o & rest' & Hsplit & Hsk & Hnear & Hseek) | [_ Hseek]];
      rewrite Hseek in Hloc; [|discriminate].
    cbn [bind] in Hloc.
    apply bind_Ok_inv in Hloc as [pos' [Hloc Hpos]]. injection Hpos as <-.
    destruct (IH _ o rest' pos' (pre ++ skipped) Hloc) as (vals & Hel & Hn & Hc).
    { unfold nelem in *. rewrite length_app. lia. }
    exists (o :: vals). split; [|split].
    + constructor.
      * rewrite Hsplit. rewrite <- Hj. unfold nelem.
        rewrite <- Nat2Z.inj_add, elem_of_nat.
        rewrite app_assoc, nth_error_app2 by (rewrite length_app; lia).
        rewrite length_app, Nat.sub_diag. reflexivity.
      * rewrite Hsplit, app_assoc. exact Hel.
    + constructor; assumption.
    + cbn [chain]. split; [|exact Hc].
      destruct skipped as [|s skipped].
      * left. cbn in Hsplit. congruence.
      * right. cbn in Hsplit. injection Hsplit as <- _.
        apply Forall_inv in Hsk. exact Hsk.
Qed.

(** The same for the whole scan: the values the new frequencies were
    matched to, in order. *)
Lemma find_new_grid_values (old_grid new_grid : list Q) (pos : list Z) :
  find_new_grid_in_old_grid old_grid new_grid = Ok pos ->
  exists vals,
    Forall2 (fun q u => elem old_grid q = Ok u) pos vals
    /\ Forall2 near new_grid vals
    /\ match new_grid, vals with
       | _ :: new_grid', v :: vals' => chain v new_grid' vals'
       | _, _ => True
       end.
Proof.
  unfold find_new_grid_in_old_grid. intros Hloc.
  destruct new_grid as [|x new_grid].
  - cbn in Hloc. injection Hloc as <-. exists []. repeat split; constructor.
  - cbn [locate] in Hloc.
    destruct old_grid as [|o0 old_grid]; [discriminate|].
    destruct (seek_spec x (o0 :: old_grid) ltac:(discriminate) 0)
      as [(skipped & o & rest' & Hsplit & Hsk & Hnear & Hseek) | [_ Hseek]];
      rewrite Hseek in Hloc; [|discriminate].
    cbn [bind] in Hloc.
    apply bind_Ok_inv in Hloc as [pos' [Hloc Hpos]]. injection Hpos as <-.
    destruct (locate_chain new_grid _ o rest' pos' skipped Hloc)
      as (vals & Hel & Hn & Hc); [lia|].
    exists (o :: vals). rewrite Hsplit. split; [|split].
    + constructor; [|exact Hel].
      unfold nelem. rewrite elem_of_nat.
      rewrite nth_error_app2 by lia. now rewrite Nat.sub_diag.
    + constructor; assumption.
    + exact Hc.
Qed.

Lemma is_increasing_cons (a b : Q) (l : list Q) :
  is_increasing (a :: b :: l) = true ->
  (a < b)%Q /\ is_increasing (b :: l) = true.
Proof.
  cbn [is_increasing]. intros H. apply andb_true_iff in H as [H1 H2].
  apply Qgtb_true in H1. auto.
Qed.

Lemma chain_strict (v : Q) (new_grid vals : list Q) :
  is_increasing (v :: vals) = true ->
  chain v new_grid vals -> strict_chain v new_grid vals.
Proof.
  revert v vals. induction new_grid as [|x new_grid IH]; intros v vals Hinc Hc;
    [exact I|].
  destruct vals as [|v' vals]; [exact I|].
  cbn [chain] in Hc. destruct Hc as [Hv Hc].
  apply is_increasing_cons in Hinc as [Hlt Hinc].
  cbn [strict_chain]. split; [|apply IH; assumption].
  destruct Hv as [-> | Hv]; [|exact Hv].
  exfalso. apply (Qlt_irrefl v Hlt).
Qed.

(** Scanning the matched values themselves: with the scan standing at [v],
    every new frequency steps over one value and stops at the next. *)
Lemma second_scan (new_grid : list Q) :
  forall (vals : list Q) (v : Q) (j : Z),
    Forall2 near new_grid vals ->
    strict_chain v new_grid vals ->
    locate new_grid j (v :: vals)
    = Ok (map (fun i => j + 1 + i) (upto (nelem new_grid))).
Proof.
  induction new_grid as [|x new_grid IH]; intros vals v j Hnear Hc.
  - reflexivity.
  - inversion Hnear as [|x' v' new' vals' Hxv Hrest]; subst.
    cbn [strict_chain] in Hc. destruct Hc as [Hoff Hc].
    cbn [locate seek].
    apply off_grid_true in Hoff. rewrite Hoff.
    apply off_grid_false in Hxv. rewrite Hxv. cbn [bind].
    rewrite (IH vals' v' (j + 1) Hrest Hc). cbn [bind].
    rewrite upto_nelem_S. cbn [map]. rewrite map_map.
    f_equal. f_equal; [lia|]. apply map_ext. intros i. lia.
Qed.

(** The frequency grid of the adapted table, when it is strictly
    increasing, holds the requested frequencies at the positions 0, 1, ... *)
Lemma find_new_grid_again (old_grid new_grid : list Q) (pos : list Z)
  (new_f_grid : list Q) :
  find_new_grid_in_old_grid old_grid new_grid = Ok pos ->
  mapM (elem old_grid) pos = Ok new_f_grid ->
  is_increasing new_f_grid = true ->
  find_new_grid_in_old_grid new_f_grid new_grid = Ok (upto (nelem new_grid)).
Proof.
  intros Hloc Hsel Hinc.
  destruct (find_new_grid_values old_grid new_grid pos Hloc)
    as (vals & Hel & Hnear & Hc).
  assert (new_f_grid = vals).
  { apply mapM_Ok_Forall2 in Hsel. clear - Hsel Hel.
    revert new_f_grid Hsel. induction Hel as [|q u pos vals Hq _ IH];
      intros fg Hsel; inversion Hsel; subst; [reflexivity|].
    f_equal; [congruence | auto]. }
  subst new_f_grid.
  unfold find_new_grid_in_old_grid.
  destruct Hnear as [|x v new_grid' vals' Hxv Hrest]; [reflexivity|].
  cbn [locate seek]. apply off_grid_false in Hxv. rewrite Hxv. cbn [bind].
  rewrite (second_scan new_grid' vals' v 0 Hrest (chain_strict _ _ _ Hinc Hc)).
  cbn [bind]. rewrite upto_nelem_S. cbn [map]. do 2 f_equal.
  apply map_ext. intros i. lia.
Qed.

(** *** The reference profiles copied again *)

Lemma nelem_upto (n : Z) : 0 <= n -> nelem (upto n) = n.
Proof. intros Hn. unfold nelem. rewrite upto_length. lia. Qed.

Lemma copy_rows_identity (old new0 : Matrix) (n : Z) :
  m_nrows old = n -> m_nrows new0 = n -> m_ncols new0 = m_ncols old ->
  forall m : nat,
    Z.of_nat m <= n ->
    exists new,
      foldM (fun new i => k <- elem (upto n) i ;; copy_row old k new i)
            (upto (Z.of_nat m)) new0 = Ok new
      /\ m_nrows new = n /\ m_ncols new = m_ncols old
      /\ forall r c, 0 <= r < Z.of_nat m -> m_get new r c = m_get old r c.
Proof.
  intros Hold Hnew Hcols.
  induction m as [|m IH]; intros Hm.
  - exists new0. cbn. repeat split; auto. intros r c Hr. lia.
  - destruct IH as (new & Hrun & Hr & Hc & Hget); [lia|].
    rewrite Nat2Z.inj_succ, <- Z.add_1_r, upto_succ by lia.
    rewrite foldM_app, Hrun. cbn [bind foldM].
    rewrite elem_upto by lia. cbn [bind]. unfold copy_row.
    replace (in_range (Z.of_nat m) (m_nrows new)
             && in_range (Z.of_nat m) (m_nrows old)
             && (m_ncols new =? m_ncols old)) with true.
    2:{ symmetry. rewrite !andb_true_iff, !in_range_true, Z.eqb_eq. lia. }
    cbn [assert bind]. eexists. split; [reflexivity|]. cbn.
    split; [exact Hr|]. split; [exact Hc|].
    intros r c Hrc. destruct (Z.eqb_spec r (Z.of_nat m)) as [->|Hne];
      [reflexivity|]. apply Hget. lia.
Qed.

(** *** The coefficients copied again *)

Lemma spec_pos_in_xsec_nth (flags : list Z) (n_pert : Z) :
  forall (sp0 : Z) (m : nat),
    (m < length flags)%nat ->
    nth_error (spec_pos_in_xsec flags n_pert sp0) m
    = Some (fold_left (advance n_pert) (firstn m flags) sp0).
Proof.
  induction flags as [|f flags IH]; intros sp0 m Hm; simpl in Hm; [lia|].
  destruct m as [|m]; [reflexivity|].
  cbn [spec_pos_in_xsec nth_error firstn fold_left].
  apply IH. lia.
Qed.

Lemma firstn_succ {A} (l : list A) (m : nat) (d : A) :
  (m < length l)%nat -> firstn (S m) l = firstn m l ++ [nth m l d].
Proof.
  revert m. induction l as [|a l IH]; intros m Hm; simpl in Hm; [lia|].
  destruct m as [|m]; [reflexivity|].
  cbn [firstn nth app]. f_equal. apply IH. lia.
Qed.

Lemma pages_upto_succ (flags : list Z) (n_pert : Z) (m : nat) :
  (m < length flags)%nat ->
  pages_upto flags n_pert (S m)
  = advance n_pert (pages_upto flags n_pert m) (nth m flags 0).
Proof.
  intros Hm. unfold pages_upto.
  rewrite (firstn_succ flags m 0 Hm), fold_left_app. reflexivity.
Qed.

Lemma fold_advance_total (flags : list Z) (n_pert sp0 : Z) :
  fold_left (advance n_pert) flags sp0
  = sp0 + nelem flags + count_set flags * (n_pert - 1).
Proof.
  revert sp0. induction flags as [|f flags IH]; intros sp0.
  - unfold nelem, count_set, nelem. simpl. lia.
  - cbn [fold_left]. rewrite IH. unfold advance, count_set, nelem.
    cbn [filter length].
    destruct (Z.eqb_spec f 0); cbn [negb length]; lia.
Qed.

Lemma fold_advance_ge (flags : list Z) (n_pert sp0 : Z) :
  0 <= n_pert -> sp0 <= fold_left (advance n_pert) flags sp0.
Proof.
  intros Hp. revert sp0. induction flags as [|f flags IH]; intros sp0;
    [apply Z.le_refl|].
  cbn [fold_left]. specialize (IH (advance n_pert sp0 f)).
  unfold advance in *. destruct (f =? 0); lia.
Qed.

Lemma pages_upto_le_total (flags : list Z) (n_pert : Z) (m : nat) :
  0 <= n_pert ->
  pages_upto flags n_pert m
  <= nelem flags + count_set flags * (n_pert - 1).
Proof.
  intros Hp. unfold pages_upto.
  rewrite <- (Z.add_0_l (nelem flags + _)), Z.add_assoc.
  rewrite <- (fold_advance_total flags n_pert 0).
  rewrite <- (firstn_skipn m flags) at 2. rewrite fold_left_app.
  now apply fold_advance_ge.
Qed.

Lemma pages_upto_nonneg (flags : list Z) (n_pert : Z) (m : nat) :
  0 <= n_pert -> 0 <= pages_upto flags n_pert m.
Proof. intros Hp. unfold pages_upto. now apply fold_advance_ge. Qed.

Lemma pages_upto_all (flags : list Z) (n_pert : Z) :
  pages_upto flags n_pert (length flags)
  = nelem flags + count_set flags * (n_pert - 1).
Proof.
  unfold pages_upto. rewrite firstn_all, fold_advance_total. lia.
Qed.

(** The inner loop, copying a tensor onto one of the same extents at the
    same pages and rows. *)
Lemma copy_frequencies_identity (old new0 : Tensor4) (starts : list Z)
  (n_cs i_s sp n_v n_cf : Z) :
  0 <= i_s < n_cs ->
  elem starts i_s = Ok sp ->
  same_extents new0 old ->
  nrows old = n_cf ->
  0 <= sp -> 0 <= n_v -> sp + n_v <= npages old ->
  forall t : nat,
    Z.of_nat t <= n_cf ->
    exists new,
      foldM (fun new i_f =>
               k <- elem (upto n_cs) i_s ;;
               src <- elem starts k ;;
               j <- elem (upto n_cf) i_f ;;
               copy_pages old src j new sp n_v i_f)
            (upto (Z.of_nat t)) new0 = Ok new
      /\ same_extents new old
      /\ forall b p r c,
           t4_get new b p r c
           = if (0 <=? r) && (r <? Z.of_nat t) && (sp <=? p) && (p <? sp + n_v)
             then t4_get old b p r c
             else t4_get new0 b p r c.
Proof.
  intros His Hsp Hext Hrows Hsp0 Hnv Hfit.
  induction t as [|t IH]; intros Ht.
  - exists new0. cbn [upto Z.to_nat seq map foldM Z.of_nat].
    split; [reflexivity|]. split; [exact Hext|].
    intros b p r c.
    replace ((0 <=? r) && (r <? 0)) with false; [reflexivity|].
    symmetry. apply andb_false_iff.
    destruct (Z.leb_spec 0 r); [right; apply Z.ltb_ge; lia | left; reflexivity].
  - destruct IH as (new & Hrun & Hnew & Hget); [lia|].
    rewrite Nat2Z.inj_succ, <- Z.add_1_r, upto_succ by lia.
    rewrite foldM_app, Hrun. cbn [bind foldM].
    rewrite (elem_upto n_cs i_s His). cbn [bind]. rewrite Hsp. cbn [bind].
    rewrite elem_upto by lia. cbn [bind]. unfold copy_pages.
    destruct Hnew as (Hb & Hp & Hr & Hc).
    replace (range_fits sp n_v (npages new)
             && in_range (Z.of_nat t) (nrows new)
             && range_fits sp n_v (npages old)
             && in_range (Z.of_nat t) (nrows old)
             && (nbooks new =? nbooks old) && (ncols new =? ncols old))
      with true.
    2:{ symmetry.
        rewrite !andb_true_iff, !range_fits_true, !in_range_true, !Z.eqb_eq.
        lia. }
    cbn [assert bind]. eexists. split; [reflexivity|].
    split; [repeat split; assumption|].
    intros b p r c. cbn [t4_get]. rewrite Hget.
    replace (sp + (p - sp)) with p by lia.
    repeat match goal with
           | |- context [Z.leb ?x ?y] => destruct (Z.leb_spec x y)
           | |- context [Z.ltb ?x ?y] => destruct (Z.ltb_spec x y)
           | |- context [Z.eqb ?x ?y] => destruct (Z.eqb_spec x y)
           end; cbn [andb]; subst; try reflexivity; exfalso; lia.
Qed.

(** The species loop, copying a tensor onto one of the same extents with
    every species at its own place: all pages and rows are copied to where
    they were. *)
Lemma copy_xsec_identity (old new0 : Tensor4) (flags : list Z)
  (n_pert n_cf : Z) :
  same_extents new0 old ->
  npages old = nelem flags + count_set flags * (n_pert - 1) ->
  nrows old = n_cf ->
  0 <= n_cf ->
  0 <= n_pert ->
  exists sp new,
    copy_xsec old n_pert (spec_pos_in_xsec flags n_pert 0)
              (upto (nelem flags)) flags (upto n_cf) new0 = Ok (sp, new)
    /\ same_extents new old
    /\ forall b p r c,
         0 <= p < npages old -> 0 <= r < nrows old ->
         t4_get new b p r c = t4_get old b p r c.
Proof.
  intros Hext Hpages Hrows Hcf Hpert.
  unfold copy_xsec.
  rewrite (nelem_upto (nelem flags) (nelem_nonneg flags)), (nelem_upto n_cf Hcf).
  assert (Hloop : forall m : nat,
             (m <= length flags)%nat ->
             exists new,
               foldM (fun '(sp, new) i_s =>
                        cnl <- elem flags i_s ;;
                        let n_v := if cnl =? 0 then 1 else n_pert in
                        new' <- foldM (fun new i_f =>
                                  k <- elem (upto (nelem flags)) i_s ;;
                                  src <- elem (spec_pos_in_xsec flags n_pert 0) k ;;
                                  j <- elem (upto n_cf) i_f ;;
                                  copy_pages old src j new sp n_v i_f)
                                (upto n_cf) new ;;
                        Ok (sp + n_v, new'))
                     (upto (Z.of_nat m)) (0, new0)
               = Ok (pages_upto flags n_pert m, new)
               /\ same_extents new old
               /\ forall b p r c,
                    0 <= p < pages_upto flags n_pert m -> 0 <= r < n_cf ->
                    t4_get new b p r c = t4_get old b p r c).
  { induction m as [|m IH]; intros Hm.
    - exists new0. split; [reflexivity|]. split; [exact Hext|].
      intros b p r c Hp. unfold pages_upto in Hp. cbn in Hp. lia.
    - destruct IH as (new & Hrun & Hnew & Hget); [lia|].
      rewrite Nat2Z.inj_succ, <- Z.add_1_r, upto_succ by lia.
      rewrite foldM_app, Hrun. cbn [bind foldM].
      rewrite elem_of_nat, (nth_error_nth' flags 0) by lia. cbn [bind].
      set (f := nth m flags 0).
      set (n_v := if f =? 0 then 1 else n_pert).
      assert (Hnv : 0 <= n_v) by (unfold n_v; destruct (f =? 0); lia).
      assert (Hnext : pages_upto flags n_pert (S m)
                      = pages_upto flags n_pert m + n_v).
      { rewrite pages_upto_succ by lia. unfold advance, n_v, f.
        destruct (nth m flags 0 =? 0); reflexivity. }
      destruct (copy_frequencies_identity old new
                  (spec_pos_in_xsec flags n_pert 0) (nelem flags)
                  (Z.of_nat m) (pages_upto flags n_pert m) n_v n_cf)
        with (t := Z.to_nat n_cf)
        as (new' & Hinner & Hnew' & Hget').
      + zlia.
      + rewrite elem_of_nat, spec_pos_in_xsec_nth by lia. reflexivity.
      + exact Hnew.
      + exact Hrows.
      + now apply pages_upto_nonneg.
      + exact Hnv.
      + rewrite <- Hnext, Hpages. now apply pages_upto_le_total.
      + lia.
      + rewrite Z2Nat.id in Hinner, Hget' by exact Hcf.
        rewrite Hinner. cbn [bind]. rewrite <- Hnext.
        exists new'. split; [reflexivity|]. split; [exact Hnew'|].
        intros b p r c Hp Hr. rewrite Hget'.
        repeat match goal with
               | |- context [Z.leb ?x ?y] => destruct (Z.leb_spec x y)
               | |- context [Z.ltb ?x ?y] => destruct (Z.ltb_spec x y)
               end; cbn [andb]; try reflexivity; try (exfalso; lia);
          apply Hget; lia. }
  destruct (Hloop (length flags) (le_n _)) as (new & Hrun & Hnew & Hget).
  fold (nelem flags) in Hrun.
  exists (pages_upto flags n_pert (length flags)), new.
  split; [exact Hrun|]. split; [exact Hnew|].
  intros b p r c Hp Hr. apply Hget; [|lia].
  rewrite pages_upto_all, <- Hpages. exact Hp.
Qed.

(** *** The table found again *)

Lemma chk_table_intro (self : GasAbsLookup) :
  nelem (species self) <> 0 ->
  is_unique (nonlinear_species self) = true ->
  Forall (fun x => 0 <= x < nelem (species self)) (nonlinear_species self) ->
  is_increasing (f_grid self) = true ->
  is_decreasing (p_grid self) = true ->
  m_nrows (vmrs_ref self) = nelem (species self) ->
  m_ncols (vmrs_ref self) = nelem (p_grid self) ->
  nelem (t_ref self) = nelem (p_grid self) ->
  (nelem (nonlinear_species self) = 0 <-> nelem (nls_pert self) = 0) ->
  chk_xsec self = Ok tt ->
  chk_table self = Ok tt.
Proof.
  intros Hsp Huniq Hrange Hfg Hpg Hrows Hcols Htref Hpert Hxs.
  unfold chk_table.
  apply Z.eqb_neq in Hsp. rewrite Z.eqb_sym in Hsp. rewrite Hsp.
  cbn [throw_if bind]. rewrite Huniq. cbn [negb throw_if bind].
  destruct (chk_if_in_range_all _ _ Hrange) as [us ->]. cbn [bind].
  unfold chk_if_increasing, chk_if_decreasing, chk_matrix_nrows,
    chk_matrix_ncols, chk_vector_length.
  rewrite Hfg, Hpg. cbn [negb throw_if bind].
  rewrite Hrows, Hcols, Htref, !Z.eqb_refl. cbn [negb throw_if bind].
  destruct (Z.eqb_spec 0 (nelem (nonlinear_species self))) as [E|E].
  - replace (nelem (nls_pert self)) with 0 by (symmetry; apply Hpert; lia).
    cbn [Z.eqb negb throw_if bind]. exact Hxs.
  - replace (0 =? nelem (nls_pert self)) with false.
    + cbn [throw_if bind]. exact Hxs.
    + symmetry. apply Z.eqb_neq. intros E'. apply E. symmetry.
      apply Hpert. lia.
Qed.

Lemma copy_rows_extents (old : Matrix) (idxs rows : list Z) (new0 new : Matrix) :
  foldM (fun new i => k <- elem idxs i ;; copy_row old k new i) rows new0
  = Ok new ->
  m_nrows new = m_nrows new0 /\ m_ncols new = m_ncols new0.
Proof.
  intros H.
  apply (foldM_invariant _
           (fun m => m_nrows m = m_nrows new0 /\ m_ncols m = m_ncols new0))
    in H; [exact H | | split; reflexivity].
  intros s a s' _ [Hr Hc] Hstep.
  apply bind_Ok_inv in Hstep as [k [_ Hstep]]. unfold copy_row in Hstep.
  apply bind_Ok_inv in Hstep as [[] [_ Hstep]].
  injection Hstep as <-. cbn. auto.
Qed.

(** Adapt on a table that already holds exactly the requested species, in
    order and without repetition, and exactly the requested frequencies:
    it succeeds and builds the same table, with an empty [log_p_grid]. *)
Lemma Adapt_new_table_again (t : GasAbsLookup)
  (cs : list (list SpeciesTag)) (cf : list Q) (flags : list Z) :
  species t = cs ->
  nelem cs <> 0 ->
  NoDup cs ->
  nonlinear_species t = flagged_from flags 0 ->
  binary flags ->
  nelem flags = nelem cs ->
  is_increasing cf = true ->
  find_new_grid_in_old_grid (f_grid t) cf = Ok (upto (nelem cf)) ->
  nelem (f_grid t) = nelem cf ->
  is_increasing (f_grid t) = true ->
  is_decreasing (p_grid t) = true ->
  m_nrows (vmrs_ref t) = nelem cs ->
  m_ncols (vmrs_ref t) = nelem (p_grid t) ->
  nelem (t_ref t) = nelem (p_grid t) ->
  (count_set flags = 0 <-> nelem (nls_pert t) = 0) ->
  is_size4 (xsec t) (expected_books t)
           (nelem cs + count_set flags * (nelem (nls_pert t) - 1))
           (nelem cf) (nelem (p_grid t)) = true ->
  exists new_table,
    Adapt_new_table t cs cf = Ok new_table
    /\ species new_table = species t
    /\ nonlinear_species new_table = nonlinear_species t
    /\ f_grid new_table = f_grid t
    /\ p_grid new_table = p_grid t
    /\ same_matrix (vmrs_ref new_table) (vmrs_ref t)
    /\ t_ref new_table = t_ref t
    /\ t_pert new_table = t_pert t
    /\ nls_pert new_table = nls_pert t
    /\ same_tensor4 (xsec new_table) (xsec t).
Proof.
  intros Hsp Hne Hnd Hnl Hbin Hlen Hcf Hfind Hfg Hinc Hdec Hrows Hcols Htref
         Hpert Hsize.
  apply is_size4_true in Hsize as (Hxb & Hxp & Hxr & Hxc).
  destruct (flagged_from_spec flags 0) as [Hsorted Hin].
  assert (Hcount : nelem (nonlinear_species t) = count_set flags)
    by (rewrite Hnl; apply flagged_from_length).
  assert (Hbooks : 0 <= nbooks (xsec t)).
  { rewrite Hxb. unfold expected_books.
    pose proof (nelem_nonneg (t_pert t)).
    destruct ((0 =? nelem (nonlinear_species t)) && (0 =? nelem (t_pert t)));
      lia. }
  assert (Hpages : 0 <= npages (xsec t)).
  { rewrite Hxp, <- Hlen, <- (pages_upto_all flags).
    apply pages_upto_nonneg, nelem_nonneg. }
  (* the steps of the second run, in order *)
  assert (S0 : flag_nonlinear (nelem (species t)) (nonlinear_species t)
               = Ok flags).
  { rewrite Hsp, Hnl, <- Hlen. now apply flag_nonlinear_flagged. }
  assert (S1 : chk_table t = Ok tt).
  { apply chk_table_intro; try assumption.
    - rewrite Hsp. exact Hne.
    - rewrite Hnl. now apply strictly_sorted_is_unique.
    - rewrite Hnl, Hsp. apply Forall_forall. intros q Hq. apply Hin in Hq. lia.
    - rewrite Hsp. exact Hrows.
    - rewrite Hcount. exact Hpert.
    - apply chk_xsec_Ok, is_size4_true. unfold expected_pages.
      rewrite Hsp, Hcount, Hfg. auto. }
  assert (S2 : mapM (chk_contains (species t)) cs = Ok (upto (nelem cs)))
    by (rewrite Hsp; now apply chk_contains_self).
  assert (S3 : mapM (fun k => f <- elem flags k ;; Ok (if f =? 0 then 0 else 1))
                    (upto (nelem cs)) = Ok flags)
    by (rewrite <- Hlen; now apply current_flags_self).
  assert (S4 : mapM (elem (species t)) (upto (nelem cs)) = Ok cs)
    by (rewrite Hsp; apply mapM_elem_upto).
  assert (S5 : mapM (elem (f_grid t)) (upto (nelem cf)) = Ok (f_grid t))
    by (rewrite <- Hfg; apply mapM_elem_upto).
  destruct (copy_rows_identity (vmrs_ref t)
              {| m_nrows := nelem cs; m_ncols := nelem (p_grid t);
                 m_get := fun _ _ => 0%Q |}
              (nelem cs) Hrows eq_refl (eq_sym Hcols)
              (length cs) (Z.le_refl _))
    as (vm & S6 & Hvr & Hvc & Hvget).
  fold (nelem cs) in S6.
  destruct (copy_xsec_identity (xsec t)
              {| nbooks := nbooks (xsec t);
                 npages := nelem cs + count_set flags * (nelem (nls_pert t) - 1);
                 nrows := nelem cf; ncols := ncols (xsec t);
                 t4_get := fun _ _ _ _ => 0%Q |}
              flags (nelem (nls_pert t)) (nelem cf))
    as (sp & xs & S7 & Hxs_ext & Hxs_get).
  { repeat split; cbn; congruence. }
  { rewrite Hlen. exact Hxp. }
  { exact Hxr. }
  { apply nelem_nonneg. }
  { apply nelem_nonneg. }
  rewrite Hlen in S7.
  eexists. split.
  - unfold Adapt_new_table.
    rewrite S0. cbn [bind]. rewrite S1. cbn [bind].
    replace (0 =? nelem cs) with false by (symmetry; apply Z.eqb_neq; lia).
    cbn [throw_if bind]. unfold chk_if_increasing. rewrite Hcf.
    cbn [negb throw_if bind]. rewrite S2. cbn [bind]. rewrite S3. cbn [bind].
    rewrite Hfind. cbn [bind]. rewrite S4. cbn [bind]. rewrite S5. cbn [bind].
    unfold matrix_resize, tensor4_resize.
    replace ((0 <=? nelem cs) && (0 <=? nelem (p_grid t))) with true
      by (symmetry; rewrite andb_true_iff, !Z.leb_le;
          split; apply nelem_nonneg).
    cbn [assert bind].
    rewrite S6. cbn [bind].
    change (nelem (filter (fun f => negb (f =? 0)) flags))
      with (count_set flags).
    replace ((0 <=? nbooks (xsec t))
             && (0 <=? nelem cs + count_set flags * (nelem (nls_pert t) - 1))
             && (0 <=? nelem cf) && (0 <=? ncols (xsec t))) with true.
    2:{ symmetry. rewrite !andb_true_iff, !Z.leb_le.
        pose proof (nelem_nonneg cf). pose proof (nelem_nonneg (p_grid t)).
        lia. }
    cbn [assert bind]. rewrite S7. cbn [bind]. reflexivity.
  - cbn [species nonlinear_species f_grid p_grid vmrs_ref t_ref t_pert
           nls_pert xsec].
    split; [congruence|]. split; [congruence|]. split; [reflexivity|].
    split; [reflexivity|]. split.
    { split; [congruence|]. split; [congruence|].
      intros r c Hr _. apply Hvget. rewrite Hvr in Hr. exact Hr. }
    split; [reflexivity|]. split; [reflexivity|]. split.
    { rewrite flagged_from_length.
      destruct (Z.eqb_spec 0 (count_set flags)) as [E|E]; [|reflexivity].
      destruct (nls_pert t) as [|x l]; [reflexivity|].
      exfalso. assert (Hz : nelem (x :: l) = 0) by (apply Hpert; lia).
      unfold nelem in Hz. simpl in Hz. lia. }
    split; [exact Hxs_ext|].
    destruct Hxs_ext as (_ & Hp' & Hr' & _).
    intros k p r c _ Hp Hr _. apply Hxs_get; congruence.
Qed.

Lemma count_set_no_nonlinear (ics : list Z) :
  count_set (map (is_nonlinear []) ics) = 0.
Proof.
  unfold count_set, nelem. induction ics as [|k ics IH]; [reflexivity|].
  cbn [map is_nonlinear existsb filter Z.eqb negb]. exact IH.
Qed.

(** C8, as the code has it: when Adapt(T, S, F) succeeds for a table T in
    one of the three valid configurations, with no species repeated in S and
    with the frequency grid of the adapted table strictly increasing (no two
    frequencies of F were found at the same table frequency), then
    Adapt(Adapt(T, S, F), S, F) succeeds as well and yields a table with the
    same content: all fields equal, [referenceVmr] and [coefficients] with
    equal extents and equal elements. *)
Theorem Adapt_twice_same_table
  (cs : list (list SpeciesTag)) (cf : list Q) (self : GasAbsLookup) :
  fst (Adapt ext cs cf self) = Ok tt ->
  NoDup cs ->
  is_increasing (f_grid (snd (Adapt ext cs cf self))) = true ->
  valid_configuration self ->
  fst (Adapt ext cs cf (snd (Adapt ext cs cf self))) = Ok tt
  /\ same_table (snd (Adapt ext cs cf (snd (Adapt ext cs cf self))))
                (snd (Adapt ext cs cf self)).
Proof.
  intros Hok Hnd Hinc Hvalid.
  destruct (Adapt_Ok cs cf self Hok) as [nt [Hnt Hsnd]].
  rewrite Hsnd in *. clear Hsnd.
  pose proof (Adapt_new_table_extents self cs cf nt Hnt)
    as (Hb & Hpg & Hr & Hc & Hlen_sp & Hlen_fg).
  apply Adapt_new_table_Ok in Hnt
    as (nl & ics & cnl & icf & v0 & x0 & sp & Hnl & Hchk & Hcs & Hcf & Hics
        & Hcnl & Hicf & Hsp & Hnls & Hfg & Hp & Hlog & Htr & Htp & Hnp & Hv0
        & Hv & Hx0 & Hx).
  apply chk_table_Ok in Hchk
    as (_ & _ & _ & _ & Hdec & _ & _ & Htref & Hpert & Hxs).
  apply chk_xsec_Ok, is_size4_true in Hxs as (Hxb & _ & _ & Hxc).
  apply flag_nonlinear_spec in Hnl as [Hfl _]; [|apply nelem_nonneg].
  pose proof (current_flags_eq _ _ _ _ _ Hfl Hcnl) as Ecnl.
  assert (Hspecies : species nt = cs) by (eapply adapted_species; eassumption).
  assert (Hlen_cnl : nelem cnl = nelem cs).
  { rewrite Ecnl. apply mapM_Ok_length in Hics.
    unfold nelem. rewrite length_map. congruence. }
  assert (Hcount : nelem (nonlinear_species nt) = count_set cnl)
    by (rewrite Hnls; apply flagged_from_length).
  assert (Hnone : nelem (nonlinear_species self) = 0 -> count_set cnl = 0).
  { intros E. destruct (nonlinear_species self); [|discriminate].
    rewrite Ecnl. apply count_set_no_nonlinear. }
  assert (Hpert' : count_set cnl = 0 <-> nelem (nls_pert nt) = 0).
  { rewrite Hnp, flagged_from_length.
    destruct (Z.eqb_spec 0 (count_set cnl)) as [E|E].
    - split; [reflexivity | congruence].
    - split; [congruence|]. intros E'. apply Hnone, Hpert, E'. }
  assert (Hpages : npages (xsec nt)
                   = nelem cs + count_set cnl * (nelem (nls_pert nt) - 1)).
  { rewrite Hpg, Hspecies, Hcount, Hnp, flagged_from_length.
    destruct (Z.eqb_spec 0 (count_set cnl)) as [E|E];
      [rewrite <- E; lia | reflexivity]. }
  assert (Hbooks : nbooks (xsec nt) = expected_books (init_log_p_grid ext nt)).
  { rewrite Hb, Hxb. unfold expected_books.
    cbn [init_log_p_grid nonlinear_species t_pert]. rewrite Htp, Hcount.
    destruct (Z.eqb_spec 0 (nelem (t_pert self))) as [E|E];
      [|rewrite !andb_false_r; reflexivity].
    destruct Hvalid as [Hv0'|Hv0']; [|congruence].
    rewrite Hv0', (Hnone Hv0'). reflexivity. }
  assert (Hvm : m_nrows (vmrs_ref nt) = nelem cs
                /\ m_ncols (vmrs_ref nt) = nelem (p_grid nt)).
  { apply copy_rows_extents in Hv as [Hvr Hvc].
    unfold matrix_resize in Hv0.
    apply bind_Ok_inv in Hv0 as [[] [_ Hv0]]. injection Hv0 as <-.
    cbn in Hvr, Hvc. rewrite Hp. auto. }
  destruct (Adapt_new_table_again (init_log_p_grid ext nt) cs cf cnl)
    as (nt2 & Hrun & E1 & E2 & E3 & E4 & E5 & E6 & E7 & E8 & E9).
  - exact Hspecies.
  - exact Hcs.
  - exact Hnd.
  - exact Hnls.
  - rewrite Ecnl. apply is_nonlinear_binary.
  - exact Hlen_cnl.
  - exact Hcf.
  - exact (find_new_grid_again _ _ _ _ Hicf Hfg Hinc).
  - exact Hlen_fg.
  - exact Hinc.
  - cbn [init_log_p_grid p_grid]. rewrite Hp. exact Hdec.
  - exact (proj1 Hvm).
  - exact (proj2 Hvm).
  - cbn [init_log_p_grid p_grid t_ref]. rewrite Htr, Hp. exact Htref.
  - exact Hpert'.
  - apply is_size4_true. cbn [init_log_p_grid xsec nls_pert p_grid].
    repeat split; try assumption; congruence.
  - unfold Adapt. rewrite Hrun. cbn [fst snd].
    split; [reflexivity|].
    unfold same_table. cbn [init_log_p_grid species nonlinear_species f_grid
                              p_grid log_p_grid vmrs_ref t_ref t_pert nls_pert
                              xsec] in *.
    repeat split; try assumption; try congruence;
      try (apply E5); try (apply E9).
Qed.

(** C8 as stated asks nothing of the request.  With a species requested
    twice the first Adapt succeeds, the new table holds that species twice, and
    the second Adapt fails because it finds the species twice. *)
Lemma Adapt_twice_fails_on_repeated_species :
  ~ (forall (ext : Externals) (cs : list (list SpeciesTag)) (cf : list Q)
            (self : GasAbsLookup),
        fst (Adapt ext cs cf self) = Ok tt ->
        fst (Adapt ext cs cf (snd (Adapt ext cs cf self))) = Ok tt
        /\ same_table (snd (Adapt ext cs cf (snd (Adapt ext cs cf self))))
                      (snd (Adapt ext cs cf self))).
Proof.
  intros Hclaim.
  destruct (Hclaim reference_externals [[tag_O3]; [tag_O3]] [100%Q; 300%Q]
              full_table eq_refl) as [Hsecond _].
  vm_compute in Hsecond. discriminate.
Qed.

(** The second Adapt also fails when two requested frequencies fall on one
    table frequency, the new frequency grid then being no longer strictly
    increasing. *)
Example Adapt_twice_fails_on_merged_frequencies :
  fst (Adapt reference_externals [[tag_O3]] [100%Q; 100.5%Q] full_table) = Ok tt
  /\ f_grid (snd (Adapt reference_externals [[tag_O3]] [100%Q; 100.5%Q]
                        full_table)) = [100%Q; 100%Q]
  /\ fst (Adapt reference_externals [[tag_O3]] [100%Q; 100.5%Q]
            (snd (Adapt reference_externals [[tag_O3]] [100%Q; 100.5%Q]
                        full_table)))
     = Err GridNotIncreasing.
Proof. repeat split; reflexivity. Qed.

End WithExternals.
(** ** How a call can end *)

Lemma bind_Err_inv {A B} (m : result A) (k : A -> result B) (e : Error) :
  bind m k = Err e -> m = Err e \/ exists a, m = Ok a /\ k a = Err e.
Proof.
  destruct m as [a|e'|]; simpl; intros H;
    [right; exists a; auto | left; congruence | discriminate].
Qed.

Lemma bind_Fault_inv {A B} (m : result A) (k : A -> result B) :
  bind m k = Fault -> m = Fault \/ exists a, m = Ok a /\ k a = Fault.
Proof.
  destruct m as [a|e'|]; simpl; intros H;
    [right; exists a; auto | discriminate | left; reflexivity].
Qed.

Lemma throw_if_Err (c : bool) (e e' : Error) :
  throw_if c e = Err e' -> c = true /\ e' = e.
Proof. destruct c; simpl; intros H; [injection H as <-; auto | discriminate]. Qed.

Lemma mapM_Err_inv {A B} (f : A -> result B) (l : list A) (e : Error) :
  mapM f l = Err e -> exists a, In a l /\ f a = Err e.
Proof.
  induction l as [|a l IH]; simpl; intros H; [discriminate|].
  apply bind_Err_inv in H as [H | [b [_ H]]]; [eauto|].
  apply bind_Err_inv in H as [H | [bs [_ H]]]; [|discriminate].
  destruct (IH H) as [a' [Hin Ha']]. eauto.
Qed.

(** The flag array is filled before anything is checked: an index outside
    the species list is a write outside the array. *)
Lemma flag_stores_out_of_range (nls : ArrayOfIndex) :
  forall flags : ArrayOfIndex,
    Exists (fun s => ~ 0 <= s < nelem flags) nls ->
    foldM (fun non_linear s => store non_linear s 1) nls flags = Fault.
Proof.
  induction nls as [|s nls IH]; intros flags Hex.
  - inversion Hex.
  - cbn [foldM]. unfold store at 1.
    destruct (in_range s (nelem flags)) eqn:Hin.
    + cbn [bind]. apply IH.
      apply in_range_true in Hin.
      inversion Hex as [? ? Hs | ? ? Hrest]; subst; [contradiction|].
      unfold nelem in *. rewrite replace_nth_length. exact Hrest.
    + reflexivity.
Qed.

Lemma flag_nonlinear_out_of_range (n : Index) (nls : ArrayOfIndex) :
  0 <= n ->
  Exists (fun s => ~ 0 <= s < n) nls ->
  flag_nonlinear n nls = Fault.
Proof.
  intros Hn Hex. unfold flag_nonlinear. apply flag_stores_out_of_range.
  unfold nelem. rewrite repeat_length, Z2Nat.id by exact Hn. exact Hex.
Qed.

(** The range check of the table checks reports an index only when it is
    no index of the species list. *)
Lemma chk_table_range_Err (self : GasAbsLookup) :
  chk_table self = Err NonlinearSpeciesOutOfRange ->
  Exists (fun s => ~ 0 <= s < nelem (species self)) (nonlinear_species self).
Proof.
  unfold chk_table. intros H.
  repeat (apply bind_Err_inv in H as [H | [? [_ H]]];
          [try (apply throw_if_Err in H as [_ H]; discriminate H) | ]).
  - apply mapM_Err_inv in H as (s & Hin & H).
    unfold chk_if_in_range in H. apply throw_if_Err in H as [Hc _].
    apply Exists_exists. exists s. split; [exact Hin|].
    apply negb_true_iff, andb_false_iff in Hc.
    destruct Hc as [Hc | Hc]; [apply Z.leb_gt in Hc | apply Z.leb_gt in Hc]; lia.
  - exfalso. destruct (0 =? nelem (nonlinear_species self));
      apply throw_if_Err in H as [_ H]; discriminate H.
  - exfalso. unfold chk_xsec in H.
    destruct (0 =? nelem (nonlinear_species self));
      [destruct (0 =? nelem (t_pert self))|];
      apply throw_if_Err in H as [_ H]; discriminate H.
Qed.

Section AdaptOutcome.

Variable ext : Externals.

(** The range check on [nonlinear_species] comes after the loop that uses
    these indices to write the flag array [non_linear]: on every table the
    check rejects, that loop has written outside the flag array before the
    check is reached, so a run of Adapt on such a table writes out of
    bounds, whatever species and frequencies are asked for.  The check
    guards nothing that has not already happened. *)
Theorem Adapt_range_check_after_write
  (cs : ArrayOfArrayOfSpeciesTag) (cf : Vector) (self : GasAbsLookup) :
  chk_table self = Err NonlinearSpeciesOutOfRange ->
  flag_nonlinear (nelem (species self)) (nonlinear_species self) = Fault
  /\ fst (Adapt ext cs cf self) = Fault.
Proof.
  intros H. apply chk_table_range_Err in H.
  pose proof (flag_nonlinear_out_of_range _ _ (nelem_nonneg _) H) as Hflags.
  split; [exact Hflags|].
  unfold Adapt, Adapt_new_table. rewrite Hflags. reflexivity.
Qed.

End AdaptOutcome.

(** ** What Adapt builds *)

Ltac bool_cases :=
  repeat match goal with
         | |- context [Z.leb ?x ?y] => destruct (Z.leb_spec x y)
         | |- context [Z.ltb ?x ?y] => destruct (Z.ltb_spec x y)
         | |- context [Z.eqb ?x ?y] => destruct (Z.eqb_spec x y)
         end; cbn [andb].

Lemma elem_nth_in_range {A} (l : list A) (i : Index) (d : A) :
  0 <= i < nelem l -> elem l i = Ok (nth (Z.to_nat i) l d).
Proof.
  intros Hi. destruct (elem_in_range l i Hi) as [a Ha].
  rewrite Ha. f_equal. symmetry. exact (elem_nth l i a d Ha).
Qed.

Lemma elem_Ok_in_range {A} (l : list A) (i : Index) (a : A) :
  elem l i = Ok a -> 0 <= i < nelem l.
Proof.
  intros H. apply elem_Ok_iff in H as [H0 H].
  assert (Hlt : (Z.to_nat i < length l)%nat)
    by (apply nth_error_Some; congruence).
  unfold nelem. lia.
Qed.

Lemma Forall_nth_in_range (P : Index -> Prop) (l : ArrayOfIndex) (i : Index) :
  Forall P l -> 0 <= i < nelem l -> P (nth (Z.to_nat i) l 0).
Proof.
  intros Hall Hi. rewrite Forall_forall in Hall. apply Hall, nth_In.
  unfold nelem in Hi. lia.
Qed.

(** The loop over the rows of [vmrs_ref]. *)
Lemma copy_rows_spec (old new0 : Matrix) (ics : ArrayOfIndex) :
  Forall (fun k => 0 <= k < m_nrows old) ics ->
  m_nrows new0 = nelem ics -> m_ncols new0 = m_ncols old ->
  forall m : nat,
    (m <= length ics)%nat ->
    exists new,
      foldM (fun new i => k <- elem ics i ;; copy_row old k new i)
            (upto (Z.of_nat m)) new0 = Ok new
      /\ m_nrows new = m_nrows new0 /\ m_ncols new = m_ncols new0
      /\ forall r c, 0 <= r < Z.of_nat m ->
                     m_get new r c = m_get old (nth (Z.to_nat r) ics 0) c.
Proof.
  intros Hics Hrows Hcols.
  induction m as [|m IH]; intros Hm.
  - exists new0. cbn. repeat split; auto. intros r c Hr. lia.
  - destruct IH as (new & Hrun & Hr & Hc & Hget); [lia|].
    rewrite Nat2Z.inj_succ, <- Z.add_1_r, upto_succ by lia.
    rewrite foldM_app, Hrun. cbn [bind foldM].
    rewrite (elem_nth_in_range ics (Z.of_nat m) 0) by zlia. cbn [bind].
    assert (Hk := Forall_nth_in_range _ ics (Z.of_nat m) Hics).
    cbv beta in Hk. unfold copy_row.
    replace (in_range (Z.of_nat m) (m_nrows new)
             && in_range (nth (Z.to_nat (Z.of_nat m)) ics 0) (m_nrows old)
             && (m_ncols new =? m_ncols old)) with true.
    2:{ symmetry. rewrite !andb_true_iff, !in_range_true, Z.eqb_eq.
        unfold nelem in *. lia. }
    cbn [assert bind]. eexists. split; [reflexivity|]. cbn.
    split; [exact Hr|]. split; [exact Hc|].
    intros r c Hrc. destruct (Z.eqb_spec r (Z.of_nat m)) as [->|Hne];
      [reflexivity|]. apply Hget. lia.
Qed.

(** The loop "Do frequencies" for one species: the pages [sp .. sp+n_v-1]
    of the new tensor take, at every new frequency, the pages
    [src .. src+n_v-1] of the old one at the frequency found for it. *)
Lemma copy_frequencies_spec (old new0 : Tensor4) (ics orig icf : ArrayOfIndex)
  (i_s k src sp n_v : Index) :
  elem ics i_s = Ok k ->
  elem orig k = Ok src ->
  nbooks new0 = nbooks old -> ncols new0 = ncols old ->
  nrows new0 = nelem icf ->
  Forall (fun j => 0 <= j < nrows old) icf ->
  0 <= sp -> 0 <= n_v -> sp + n_v <= npages new0 ->
  0 <= src -> src + n_v <= npages old ->
  forall t : nat,
    (t <= length icf)%nat ->
    exists new,
      foldM (fun new i_f =>
               k <- elem ics i_s ;;
               src <- elem orig k ;;
               j <- elem icf i_f ;;
               copy_pages old src j new sp n_v i_f)
            (upto (Z.of_nat t)) new0 = Ok new
      /\ same_extents new new0
      /\ forall b p r c,
           t4_get new b p r c
           = if (0 <=? r) && (r <? Z.of_nat t) && (sp <=? p) && (p <? sp + n_v)
             then t4_get old b (src + (p - sp)) (nth (Z.to_nat r) icf 0) c
             else t4_get new0 b p r c.
Proof.
  intros Hk Hsrc Hb Hc Hr Hicf Hsp0 Hnv Hfit Hsrc0 Hsrcfit.
  induction t as [|t IH]; intros Ht.
  - exists new0. cbn [upto Z.to_nat seq map foldM Z.of_nat].
    split; [reflexivity|]. split; [repeat split|].
    intros b p r c.
    replace ((0 <=? r) && (r <? 0)) with false; [reflexivity|].
    symmetry. apply andb_false_iff.
    destruct (Z.leb_spec 0 r); [right; apply Z.ltb_ge; lia | left; reflexivity].
  - destruct IH as (new & Hrun & Hnew & Hget); [lia|].
    rewrite Nat2Z.inj_succ, <- Z.add_1_r, upto_succ by lia.
    rewrite foldM_app, Hrun. cbn [bind foldM].
    rewrite Hk. cbn [bind]. rewrite Hsrc. cbn [bind].
    rewrite (elem_nth_in_range icf (Z.of_nat t) 0) by zlia. cbn [bind].
    assert (Hj := Forall_nth_in_range _ icf (Z.of_nat t) Hicf).
    cbv beta in Hj. unfold copy_pages.
    destruct Hnew as (Hb' & Hp' & Hr' & Hc').
    replace (range_fits sp n_v (npages new)
             && in_range (Z.of_nat t) (nrows new)
             && range_fits src n_v (npages old)
             && in_range (nth (Z.to_nat (Z.of_nat t)) icf 0) (nrows old)
             && (nbooks new =? nbooks old) && (ncols new =? ncols old))
      with true.
    2:{ symmetry.
        rewrite !andb_true_iff, !range_fits_true, !in_range_true, !Z.eqb_eq.
        unfold nelem in *. lia. }
    cbn [assert bind]. eexists. split; [reflexivity|].
    split; [repeat split; assumption|].
    intros b p r c. cbn [t4_get]. rewrite Hget.
    rewrite Nat2Z.id.
    bool_cases; subst; try reflexivity; try (exfalso; lia).
    rewrite Nat2Z.id. reflexivity.
Qed.

Lemma pages_upto_mono (flags : ArrayOfIndex) (n_pert : Index) (a b : nat) :
  0 <= n_pert -> (a <= b)%nat ->
  pages_upto flags n_pert a <= pages_upto flags n_pert b.
Proof.
  intros Hp Hab. unfold pages_upto.
  rewrite <- (firstn_skipn a (firstn b flags)), firstn_firstn.
  rewrite Nat.min_l by exact Hab. rewrite fold_left_app.
  now apply fold_advance_ge.
Qed.

(** The loop "Do species": species [i] of the new table, which is species
    [ics[i]] of the old one, takes its pages from the pages of that species,
    at the frequencies found; the blocks of pages follow one another. *)
Lemma copy_xsec_spec (old new0 : Tensor4)
  (non_linear ics cnl icf : ArrayOfIndex) (n_pert : Index) :
  0 <= n_pert ->
  Forall (fun k => 0 <= k < nelem non_linear) ics ->
  nelem cnl = nelem ics ->
  (forall i, (i < length ics)%nat ->
             (nth i cnl 0 =? 0) = (nth (Z.to_nat (nth i ics 0)) non_linear 0 =? 0)) ->
  Forall (fun j => 0 <= j < nrows old) icf ->
  nbooks new0 = nbooks old -> ncols new0 = ncols old ->
  nrows new0 = nelem icf ->
  npages new0 = nelem cnl + count_set cnl * (n_pert - 1) ->
  npages old = nelem non_linear + count_set non_linear * (n_pert - 1) ->
  exists new,
    copy_xsec old n_pert (spec_pos_in_xsec non_linear n_pert 0)
              ics cnl icf new0 = Ok (npages new0, new)
    /\ same_extents new new0
    /\ forall (i : nat) (v r b c : Index),
         (i < length ics)%nat ->
         0 <= v < (if nth i cnl 0 =? 0 then 1 else n_pert) ->
         0 <= r < nelem icf ->
         t4_get new b (pages_upto cnl n_pert i + v) r c
         = t4_get old b
             (pages_upto non_linear n_pert (Z.to_nat (nth i ics 0)) + v)
             (nth (Z.to_nat r) icf 0) c.
Proof.
  intros Hpert Hics Hlen Hflag Hicf Hb Hc Hr Hpnew Hpold.
  unfold copy_xsec.
  assert (Hlen' : length cnl = length ics) by (unfold nelem in Hlen; lia).
  assert (Hloop : forall m : nat,
             (m <= length ics)%nat ->
             exists new,
               foldM (fun '(sp, new) i_s =>
                        cnl_i <- elem cnl i_s ;;
                        let n_v := if cnl_i =? 0 then 1 else n_pert in
                        new' <- foldM (fun new i_f =>
                                  k <- elem ics i_s ;;
                                  src <- elem (spec_pos_in_xsec non_linear n_pert 0) k ;;
                                  j <- elem icf i_f ;;
                                  copy_pages old src j new sp n_v i_f)
                                (upto (nelem icf)) new ;;
                        Ok (sp + n_v, new'))
                     (upto (Z.of_nat m)) (0, new0)
               = Ok (pages_upto cnl n_pert m, new)
               /\ same_extents new new0
               /\ forall (i : nat) (v r b c : Index),
                    (i < m)%nat ->
                    0 <= v < (if nth i cnl 0 =? 0 then 1 else n_pert) ->
                    0 <= r < nelem icf ->
                    t4_get new b (pages_upto cnl n_pert i + v) r c
                    = t4_get old b
                        (pages_upto non_linear n_pert
                           (Z.to_nat (nth i ics 0)) + v)
                        (nth (Z.to_nat r) icf 0) c).
  { induction m as [|m IH]; intros Hm.
    - exists new0. split; [reflexivity|]. split; [repeat split|].
      intros i v r b c Hi. lia.
    - destruct IH as (new & Hrun & Hnew & Hget); [lia|].
      rewrite Nat2Z.inj_succ, <- Z.add_1_r, upto_succ by lia.
      rewrite foldM_app, Hrun. cbn [bind foldM].
      rewrite elem_of_nat, (nth_error_nth' cnl 0) by lia. cbn [bind].
      set (f := nth m cnl 0).
      set (n_v := if f =? 0 then 1 else n_pert).
      assert (Hnv : 0 <= n_v) by (unfold n_v; destruct (f =? 0); lia).
      assert (Hnext : pages_upto cnl n_pert (S m)
                      = pages_upto cnl n_pert m + n_v).
      { rewrite pages_upto_succ by lia. unfold advance, n_v, f.
        destruct (nth m cnl 0 =? 0); reflexivity. }
      set (k := nth m ics 0).
      assert (Hk : 0 <= k < nelem non_linear).
      { rewrite Forall_forall in Hics. apply Hics, nth_In. lia. }
      assert (Hk' : (Z.to_nat k < length non_linear)%nat) by zlia.
      assert (Hsrcnext : pages_upto non_linear n_pert (S (Z.to_nat k))
                         = pages_upto non_linear n_pert (Z.to_nat k) + n_v).
      { rewrite pages_upto_succ by exact Hk'. unfold advance, n_v, f, k.
        rewrite (Hflag m) by lia.
        destruct (nth (Z.to_nat (nth m ics 0)) non_linear 0 =? 0); reflexivity. }
      destruct Hnew as (Hb' & Hp' & Hr' & Hc').
      destruct (copy_frequencies_spec old new ics
                  (spec_pos_in_xsec non_linear n_pert 0) icf
                  (Z.of_nat m) k (pages_upto non_linear n_pert (Z.to_nat k))
                  (pages_upto cnl n_pert m) n_v)
        with (t := length icf)
        as (new' & Hinner & Hnew' & Hget').
      + rewrite elem_of_nat, (nth_error_nth' ics 0) by lia. reflexivity.
      + rewrite <- (Z2Nat.id k) at 1 by lia.
        rewrite elem_of_nat, spec_pos_in_xsec_nth by exact Hk'. reflexivity.
      + congruence.
      + congruence.
      + congruence.
      + exact Hicf.
      + now apply pages_upto_nonneg.
      + exact Hnv.
      + rewrite <- Hnext, Hp', Hpnew. now apply pages_upto_le_total.
      + now apply pages_upto_nonneg.
      + rewrite <- Hsrcnext, Hpold. now apply pages_upto_le_total.
      + lia.
      + fold (nelem icf) in Hinner, Hget'.
        rewrite Hinner. cbn [bind]. rewrite <- Hnext.
        exists new'. split; [reflexivity|].
        split.
        { destruct Hnew' as (? & ? & ? & ?). repeat split; congruence. }
        intros i v r b c Hi Hv Hrr. rewrite Hget'.
        destruct (Nat.eq_dec i m) as [->|Hne].
        * fold f n_v in Hv. fold k.
          replace ((0 <=? r) && (r <? nelem icf)
                   && (pages_upto cnl n_pert m <=? pages_upto cnl n_pert m + v)
                   && (pages_upto cnl n_pert m + v
                       <? pages_upto cnl n_pert m + n_v)) with true.
          2:{ symmetry. rewrite !andb_true_iff, !Z.leb_le, !Z.ltb_lt. lia. }
          f_equal. lia.
        * assert (Hbelow : pages_upto cnl n_pert i + v < pages_upto cnl n_pert m).
          { apply Z.lt_le_trans with (pages_upto cnl n_pert (S i)).
            - rewrite pages_upto_succ by lia. unfold advance.
              destruct (nth i cnl 0 =? 0); lia.
            - apply pages_upto_mono; [exact Hpert | lia]. }
          replace ((0 <=? r) && (r <? nelem icf)
                   && (pages_upto cnl n_pert m <=? pages_upto cnl n_pert i + v)
                   && (pages_upto cnl n_pert i + v
                       <? pages_upto cnl n_pert m + n_v)) with false.
          2:{ symmetry. rewrite !andb_false_iff, !Z.leb_gt, !Z.ltb_ge. lia. }
          apply Hget; [lia | exact Hv | exact Hrr]. }
  destruct (Hloop (length ics) (le_n _)) as (new & Hrun & Hnew & Hget).
  fold (nelem ics) in Hrun.
  exists new. split; [|split; [exact Hnew | exact Hget]].
  transitivity (Ok (pages_upto cnl n_pert (length ics), new)); [exact Hrun|].
  rewrite <- Hlen', pages_upto_all, <- Hpnew. reflexivity.
Qed.

(** *** Flags and page counts *)

Lemma Forall2_mapM {A B} (f : A -> result B) (l : list A) (bs : list B) :
  Forall2 (fun a b => f a = Ok b) l bs -> mapM f l = Ok bs.
Proof.
  induction 1 as [|a b l bs Hab _ IH]; simpl; [reflexivity|].
  rewrite Hab, IH. reflexivity.
Qed.

Lemma is_unique_NoDup (x : ArrayOfIndex) : is_unique x = true -> NoDup x.
Proof.
  induction x as [|a x IH]; simpl; intros H; [constructor|].
  apply andb_true_iff in H as [Ha Hx]. constructor; [|auto].
  intros Hin. apply existsb_eqb_In in Hin. rewrite Hin in Ha. discriminate.
Qed.

Lemma upto_NoDup (n : Index) : NoDup (upto n).
Proof.
  unfold upto. generalize (seq_NoDup (Z.to_nat n) 0).
  induction 1 as [|a l Ha _ IH]; cbn [map]; constructor; [|exact IH].
  intros Hin. apply in_map_iff in Hin as (b & Hb & Hin).
  apply Nat2Z.inj in Hb. subst b. contradiction.
Qed.

Lemma flags_of_map (n : Index) (nls flags : ArrayOfIndex) :
  flags_of n nls flags -> flags = map (is_nonlinear nls) (upto n).
Proof.
  intros [Hlen Hnth].
  apply (nth_ext _ _ 0 (is_nonlinear nls 0)).
  - rewrite length_map, upto_length. unfold nelem in Hlen. lia.
  - intros i Hi.
    rewrite (map_nth (is_nonlinear nls) (upto n) 0 i).
    assert (Hin : 0 <= Z.of_nat i < n) by zlia.
    specialize (Hnth _ Hin). rewrite Nat2Z.id in Hnth. rewrite Hnth.
    unfold is_nonlinear. f_equal. f_equal. f_equal.
    unfold upto. rewrite (nth_indep _ 0 (Z.of_nat 0)).
    + rewrite map_nth, seq_nth; [reflexivity|]. unfold nelem in *. lia.
    + rewrite length_map, length_seq. unfold nelem in *. lia.
Qed.

Lemma count_set_map (g : Index -> Index) (l : ArrayOfIndex) :
  count_set (map g l) = nelem (filter (fun i => negb (g i =? 0)) l).
Proof.
  unfold count_set, nelem. f_equal.
  induction l as [|a l IH]; [reflexivity|].
  cbn [map filter]. destruct (negb (g a =? 0)); cbn [length]; congruence.
Qed.

(** With every nonlinear species listed once and inside the species list,
    as many flags are set as there are nonlinear species. *)
Lemma count_set_flags (n : Index) (nls flags : ArrayOfIndex) :
  flags_of n nls flags ->
  is_unique nls = true ->
  Forall (fun s => 0 <= s < n) nls ->
  count_set flags = nelem nls.
Proof.
  intros Hflags Huniq Hrange.
  rewrite (flags_of_map _ _ _ Hflags), count_set_map.
  set (L := filter (fun i => negb (is_nonlinear nls i =? 0)) (upto n)).
  assert (HL : forall i, In i L <-> In i nls).
  { intros i. unfold L. rewrite filter_In, upto_In.
    unfold is_nonlinear. rewrite Forall_forall in Hrange.
    destruct (existsb (Z.eqb i) nls) eqn:E.
    - apply existsb_eqb_In in E. cbn. split; [tauto|]. intros _.
      split; [exact (Hrange _ E) | reflexivity].
    - cbn. split; [intros [_ H]; discriminate|].
      intros Hin. apply existsb_eqb_In in Hin. congruence. }
  assert (HndL : NoDup L) by (apply NoDup_filter, upto_NoDup).
  assert (Hnd : NoDup nls) by (apply is_unique_NoDup, Huniq).
  unfold nelem. f_equal. apply Nat.le_antisymm.
  - apply NoDup_incl_length; [exact HndL|]. intros i Hi. now apply HL.
  - apply NoDup_incl_length; [exact Hnd|]. intros i Hi. now apply HL.
Qed.

Lemma count_set_zero (flags : ArrayOfIndex) :
  count_set flags = 0 -> Forall (fun f => f = 0) flags.
Proof.
  unfold count_set, nelem. induction flags as [|f flags IH]; [constructor|].
  cbn [filter]. destruct (Z.eqb_spec f 0) as [->|Hne]; cbn [negb length].
  - intros H. constructor; [reflexivity | exact (IH H)].
  - lia.
Qed.

Lemma fold_advance_unflagged (flags : ArrayOfIndex) (n_pert sp0 : Index) :
  Forall (fun f => f = 0) flags ->
  fold_left (advance n_pert) flags sp0 = sp0 + nelem flags.
Proof.
  intros H. revert sp0. induction H as [|f flags -> _ IH]; intros sp0.
  - unfold nelem. cbn. lia.
  - cbn [fold_left]. rewrite IH. unfold advance, nelem. cbn [Z.eqb length]. lia.
Qed.

(** Without a flag set every species takes one page, whatever the number of
    humidity perturbations. *)
Lemma pages_upto_unflagged (flags : ArrayOfIndex) (n_pert : Index) (m : nat) :
  count_set flags = 0 -> (m <= length flags)%nat ->
  pages_upto flags n_pert m = Z.of_nat m.
Proof.
  intros Hc Hm. unfold pages_upto.
  rewrite fold_advance_unflagged.
  - unfold nelem. rewrite length_firstn. lia.
  - apply count_set_zero in Hc. rewrite Forall_forall in *.
    intros f Hf. apply Hc. rewrite <- (firstn_skipn m flags).
    apply in_or_app. left. exact Hf.
Qed.

(** The running position of the species loops is the sum of the page
    counts of the species passed. *)
Lemma pages_upto_sum (n : Index) (nls flags : ArrayOfIndex) (n_pert : Index) :
  flags_of n nls flags ->
  forall m : nat,
    (m <= length flags)%nat ->
    pages_upto flags n_pert m
    = fold_left Z.add
        (map (fun i => if existsb (Z.eqb i) nls then n_pert else 1)
             (upto (Z.of_nat m))) 0.
Proof.
  intros [Hlen Hnth]. induction m as [|m IH]; intros Hm; [reflexivity|].
  rewrite pages_upto_succ by lia.
  rewrite Nat2Z.inj_succ, <- Z.add_1_r, upto_succ by lia.
  rewrite map_app, fold_left_app. cbn [map fold_left].
  rewrite <- IH by lia. unfold advance.
  assert (Hin : 0 <= Z.of_nat m < n) by zlia.
  specialize (Hnth _ Hin). rewrite Nat2Z.id in Hnth. rewrite Hnth.
  destruct (existsb (Z.eqb (Z.of_nat m)) nls); reflexivity.
Qed.

(** *** The new table *)

Lemma chk_contains_in_range (x : ArrayOfArrayOfSpeciesTag)
  (cs : ArrayOfArrayOfSpeciesTag) (ics : ArrayOfIndex) :
  mapM (chk_contains x) cs = Ok ics ->
  Forall (fun k => 0 <= k < nelem x) ics
  /\ Forall2 (fun k g => elem x k = Ok g) ics cs.
Proof.
  intros H. apply mapM_Ok_Forall2 in H.
  induction H as [|g k cs ics Hk _ [IH1 IH2]]; [split; constructor|].
  apply chk_contains_elem in Hk.
  split; constructor; auto. exact (elem_Ok_in_range _ _ _ Hk).
Qed.

Lemma find_new_grid_in_range (old_grid new_grid : Vector) (pos : ArrayOfIndex) :
  find_new_grid_in_old_grid old_grid new_grid = Ok pos ->
  Forall (fun j => 0 <= j < nelem old_grid) pos
  /\ exists vals, mapM (elem old_grid) pos = Ok vals
                  /\ Forall2 near new_grid vals.
Proof.
  intros H. destruct (find_new_grid_values _ _ _ H) as (vals & Hvals & Hnear & _).
  split.
  - clear Hnear H. induction Hvals as [|q u pos vals Hq _ IH]; constructor; auto.
    exact (elem_Ok_in_range _ _ _ Hq).
  - exists vals. split; [now apply Forall2_mapM | exact Hnear].
Qed.

(** The pages of the new table are counted without a negative term: a flag
    is set only if the table has humidity perturbations. *)
Lemma count_set_is_nonlinear_nonneg (nls ics : ArrayOfIndex) (n_pert : Index) :
  (nelem nls = 0 <-> n_pert = 0) -> 0 <= n_pert ->
  0 <= count_set (map (is_nonlinear nls) ics) * (n_pert - 1).
Proof.
  intros Hiff Hpert. destruct nls as [|s nls].
  - rewrite count_set_no_nonlinear. lia.
  - assert (n_pert <> 0).
    { intros E. apply Hiff in E. unfold nelem in E. simpl in E. lia. }
    apply Z.mul_nonneg_nonneg; [apply nelem_nonneg | lia].
Qed.

(** Adapt on a table that passes the table checks, for a request that is
    not empty, has its frequencies strictly increasing, and has every
    species and every frequency found: nothing is read or written outside
    an array, and the new table holds the requested species and the
    frequencies found, with their reference profiles and coefficients. *)
Lemma Adapt_new_table_spec (self : GasAbsLookup)
  (cs : ArrayOfArrayOfSpeciesTag) (cf : Vector) (ics icf : ArrayOfIndex) :
  chk_table self = Ok tt ->
  nelem cs <> 0 ->
  is_increasing cf = true ->
  mapM (chk_contains (species self)) cs = Ok ics ->
  find_new_grid_in_old_grid (f_grid self) cf = Ok icf ->
  exists nt non_linear,
    let cnl := map (is_nonlinear (nonlinear_species self)) ics in
    let n_pert := nelem (nls_pert self) in
    Adapt_new_table self cs cf = Ok nt
    /\ flags_of (nelem (species self)) (nonlinear_species self) non_linear
    /\ species nt = cs
    /\ nonlinear_species nt = flagged_from cnl 0
    /\ mapM (elem (f_grid self)) icf = Ok (f_grid nt)
    /\ p_grid nt = p_grid self
    /\ log_p_grid nt = []
    /\ t_ref nt = t_ref self
    /\ t_pert nt = t_pert self
    /\ nls_pert nt = (if 0 =? count_set cnl then [] else nls_pert self)
    /\ m_nrows (vmrs_ref nt) = nelem cs
    /\ m_ncols (vmrs_ref nt) = nelem (p_grid self)
    /\ (forall r c, 0 <= r < nelem cs ->
          m_get (vmrs_ref nt) r c
          = m_get (vmrs_ref self) (nth (Z.to_nat r) ics 0) c)
    /\ nbooks (xsec nt) = nbooks (xsec self)
    /\ npages (xsec nt) = nelem cs + count_set cnl * (n_pert - 1)
    /\ nrows (xsec nt) = nelem cf
    /\ ncols (xsec nt) = ncols (xsec self)
    /\ forall (i : nat) (v r b c : Index),
         (i < length ics)%nat ->
         0 <= v < (if nth i cnl 0 =? 0 then 1 else n_pert) ->
         0 <= r < nelem icf ->
         t4_get (xsec nt) b (pages_upto cnl n_pert i + v) r c
         = t4_get (xsec self) b
             (pages_upto non_linear n_pert (Z.to_nat (nth i ics 0)) + v)
             (nth (Z.to_nat r) icf 0) c.
Proof.
  intros Htable Hne Hcf Hics Hicf.
  destruct (chk_table_Ok _ Htable)
    as (Hsp & Huniq & Hrange & Hfg & Hpg & Hrows & Hcols & Htref & Hpert & Hxs).
  apply chk_xsec_Ok, is_size4_true in Hxs as (Hxb & Hxp & Hxr & Hxc).
  unfold expected_pages in Hxp.
  set (nls := nonlinear_species self) in *.
  set (n_pert := nelem (nls_pert self)) in *.
  assert (Hrange' : Forall (fun s => 0 <= s < nelem (species self)) nls).
  { revert Hrange. apply Forall_impl. intros s Hs. lia. }
  destruct (flag_nonlinear_total _ _ (nelem_nonneg (species self)) Hrange')
    as [non_linear S0].
  destruct (flag_nonlinear_spec _ _ _ (nelem_nonneg (species self)) S0)
    as [Hflags _].
  destruct (chk_contains_in_range _ _ _ Hics) as [Hics_range Hics_elem].
  destruct (find_new_grid_in_range _ _ _ Hicf) as [Hicf_range (vals & S5 & _)].
  assert (Hlen_ics : nelem ics = nelem cs).
  { apply mapM_Ok_length in Hics. unfold nelem. lia. }
  assert (Hlen_icf : nelem icf = nelem cf).
  { apply locate_length in Hicf. unfold nelem. lia. }
  set (cnl := map (is_nonlinear nls) ics).
  assert (Hlen_cnl : nelem cnl = nelem ics).
  { unfold cnl, nelem. rewrite length_map. reflexivity. }
  assert (Hflag_len : nelem non_linear = nelem (species self))
    by exact (proj1 Hflags).
  assert (S3 : mapM (fun k => f <- elem non_linear k ;;
                              Ok (if f =? 0 then 0 else 1)) ics = Ok cnl).
  { apply mapM_total. intros k Hk.
    rewrite Forall_forall in Hics_range. specialize (Hics_range k Hk).
    rewrite (elem_nth_in_range non_linear k 0) by lia. cbn [bind].
    rewrite (proj2 Hflags k) by lia. fold (is_nonlinear nls k).
    unfold is_nonlinear. destruct (existsb (Z.eqb k) nls); reflexivity. }
  assert (S4 : mapM (elem (species self)) ics = Ok cs).
  { apply Forall2_mapM. exact Hics_elem. }
  assert (Hbooks : 0 <= nbooks (xsec self)).
  { rewrite Hxb. unfold expected_books.
    pose proof (nelem_nonneg (t_pert self)).
    destruct ((0 =? nelem (nonlinear_species self))
              && (0 =? nelem (t_pert self))); lia. }
  assert (Hextra : 0 <= count_set cnl * (n_pert - 1)).
  { apply count_set_is_nonlinear_nonneg; [exact Hpert | apply nelem_nonneg]. }
  destruct (copy_rows_spec (vmrs_ref self)
              {| m_nrows := nelem cs; m_ncols := nelem (p_grid self);
                 m_get := fun _ _ => 0%Q |} ics)
    with (m := length ics)
    as (vm & S6 & Hvr & Hvc & Hvget).
  { rewrite Hrows. exact Hics_range. }
  { cbn. congruence. }
  { cbn. congruence. }
  { lia. }
  fold (nelem ics) in S6, Hvget. rewrite Hlen_ics in S6, Hvget.
  cbn [m_nrows m_ncols] in Hvr, Hvc.
  destruct (copy_xsec_spec (xsec self)
              {| nbooks := nbooks (xsec self);
                 npages := nelem cs + count_set cnl * (n_pert - 1);
                 nrows := nelem cf; ncols := ncols (xsec self);
                 t4_get := fun _ _ _ _ => 0%Q |}
              non_linear ics cnl icf n_pert)
    as (xs & S7 & (Hb' & Hp' & Hr' & Hc') & Hxs_get).
  { apply nelem_nonneg. }
  { rewrite Hflag_len. exact Hics_range. }
  { exact Hlen_cnl. }
  { intros i Hi. unfold cnl.
    rewrite (nth_indep _ 0 (is_nonlinear nls 0))
      by (rewrite length_map; exact Hi).
    rewrite map_nth.
    assert (Hk : 0 <= nth i ics 0 < nelem (species self)).
    { rewrite Forall_forall in Hics_range. apply Hics_range, nth_In, Hi. }
    rewrite (proj2 Hflags (nth i ics 0)) by lia. reflexivity. }
  { rewrite Hxr. exact Hicf_range. }
  { reflexivity. }
  { reflexivity. }
  { cbn. congruence. }
  { cbn. rewrite Hlen_cnl, Hlen_ics. reflexivity. }
  { rewrite Hxp, Hflag_len.
    rewrite (count_set_flags _ _ _ Hflags Huniq Hrange'). reflexivity. }
  cbn [nbooks npages nrows ncols] in S7, Hb', Hp', Hr', Hc'.
  exists {| species := cs;
            nonlinear_species := flagged_from cnl 0;
            f_grid := vals;
            p_grid := p_grid self;
            log_p_grid := [];
            vmrs_ref := vm;
            t_ref := t_ref self;
            t_pert := t_pert self;
            nls_pert := (if 0 =? nelem (flagged_from cnl 0)
                         then [] else nls_pert self);
            xsec := xs |}, non_linear.
  cbv zeta. split.
  - unfold Adapt_new_table. fold nls.
    rewrite S0. cbn [bind]. rewrite Htable. cbn [bind].
    replace (0 =? nelem cs) with false by (symmetry; apply Z.eqb_neq; lia).
    cbn [throw_if bind]. unfold chk_if_increasing. rewrite Hcf.
    cbn [negb throw_if bind]. rewrite Hics. cbn [bind]. rewrite S3. cbn [bind].
    rewrite Hicf. cbn [bind]. rewrite S4. cbn [bind]. rewrite S5. cbn [bind].
    unfold matrix_resize, tensor4_resize.
    replace ((0 <=? nelem cs) && (0 <=? nelem (p_grid self))) with true
      by (symmetry; rewrite andb_true_iff, !Z.leb_le;
          split; apply nelem_nonneg).
    cbn [assert bind].
    rewrite S6. cbn [bind].
    change (nelem (filter (fun f => negb (f =? 0)) cnl))
      with (count_set cnl).
    fold n_pert.
    replace ((0 <=? nbooks (xsec self))
             && (0 <=? nelem cs + count_set cnl * (n_pert - 1))
             && (0 <=? nelem cf) && (0 <=? ncols (xsec self))) with true.
    2:{ symmetry. rewrite !andb_true_iff, !Z.leb_le.
        pose proof (nelem_nonneg cf). pose proof (nelem_nonneg (p_grid self)).
        pose proof (nelem_nonneg cs). lia. }
    cbn [assert bind]. rewrite S7. cbn [bind]. reflexivity.
  - cbn [species nonlinear_species f_grid p_grid log_p_grid vmrs_ref t_ref
           t_pert nls_pert xsec].
    rewrite flagged_from_length.
    split; [exact Hflags|]. split; [reflexivity|]. split; [reflexivity|].
    split; [exact S5|]. do 5 (split; [reflexivity|]).
    split; [exact Hvr|]. split; [exact Hvc|]. split; [exact Hvget|].
    split; [exact Hb'|]. split; [exact Hp'|]. split; [exact Hr'|].
    split; [exact Hc'|]. exact Hxs_get.
Qed.

(** *** When Adapt succeeds *)

Lemma find_all_length (x : ArrayOfArrayOfSpeciesTag) (what : ArrayOfSpeciesTag)
  (i : Index) :
  length (find_all x what i) = count_occ tag_group_eq_dec x what.
Proof.
  revert i. induction x as [|g x IH]; intros i; [reflexivity|].
  cbn [find_all count_occ].
  destruct (tag_group_eq_dec g what); cbn [length]; rewrite IH; reflexivity.
Qed.

(** [chk_contains] returns a position exactly for a species that occurs
    once. *)
Lemma chk_contains_Ok_iff (x : ArrayOfArrayOfSpeciesTag)
  (what : ArrayOfSpeciesTag) :
  (exists k, chk_contains x what = Ok k)
  <-> count_occ tag_group_eq_dec x what = 1%nat.
Proof.
  rewrite <- (find_all_length x what 0). unfold chk_contains.
  destruct (find_all x what 0) as [|i [|i' l]]; cbn [length].
  - split; [intros [k H]; discriminate | discriminate].
  - split; [reflexivity | intros _; eauto].
  - split; [intros [k H]; discriminate | discriminate].
Qed.

Lemma mapM_exists {A B} (f : A -> result B) (l : list A) :
  (forall a, In a l -> exists b, f a = Ok b) -> exists bs, mapM f l = Ok bs.
Proof.
  induction l as [|a l IH]; intros H; [exists []; reflexivity|].
  destruct (H a (or_introl eq_refl)) as [b Hb].
  destruct IH as [bs Hbs]; [intros a' Ha'; apply H; right; exact Ha'|].
  exists (b :: bs). cbn [mapM]. rewrite Hb, Hbs. reflexivity.
Qed.

Lemma mapM_Ok_In {A B} (f : A -> result B) (l : list A) (bs : list B) (a : A) :
  mapM f l = Ok bs -> In a l -> exists b, f a = Ok b /\ In b bs.
Proof.
  intros H. apply mapM_Ok_Forall2 in H.
  induction H as [|a' b' l bs Hab _ IH]; intros Hin; [destruct Hin|].
  destruct Hin as [<- | Hin].
  - exists b'. split; [exact Hab | left; reflexivity].
  - destruct (IH Hin) as (b & Hb & Hbin). exists b. split; [exact Hb | right; exact Hbin].
Qed.

(** A strictly increasing grid is sorted in ascending order. *)
Lemma is_increasing_ascending (x : Vector) :
  is_increasing x = true -> ascending x.
Proof.
  intros H. apply Sorted_StronglySorted; [exact Qle_trans|].
  induction x as [|a x IH]; [constructor|].
  destruct x as [|b x]; [repeat constructor|].
  apply is_increasing_cons in H as [Hab H].
  constructor; [exact (IH H)|]. constructor. apply Qlt_le_weak, Hab.
Qed.

(** The scan finds every new frequency that has a table frequency within
    the tolerance, when both grids are strictly increasing. *)
Lemma find_new_grid_complete (old_grid new_grid : Vector) :
  is_increasing old_grid = true ->
  is_increasing new_grid = true ->
  (forall x, In x new_grid -> exists o, In o old_grid /\ near x o) ->
  exists pos, find_new_grid_in_old_grid old_grid new_grid = Ok pos.
Proof.
  intros Hold Hnew Hall.
  destruct new_grid as [|x new_grid]; [exists []; reflexivity|].
  assert (Hne : old_grid <> []).
  { destruct (Hall x (or_introl eq_refl)) as (o & Ho & _).
    intros ->. destruct Ho. }
  destruct (locate_spec (x :: new_grid) (is_increasing_ascending _ Hnew)
              [] old_grid (is_increasing_ascending _ Hold) Hne
              (Forall_nil _))
    as [(pos & Hpos & _) | (_ & y & Hy & Hnone)].
  - exists pos. exact Hpos.
  - exfalso. destruct (Hall y Hy) as (o & Ho & Hnear).
    exact (Hnone o Ho Hnear).
Qed.

Lemma Forall2_In_l {A B} (R : A -> B -> Prop) (l1 : list A) (l2 : list B)
  (a : A) :
  Forall2 R l1 l2 -> In a l1 -> exists b, In b l2 /\ R a b.
Proof.
  induction 1 as [|a' b' l1 l2 Hab _ IH]; intros Hin; [destruct Hin|].
  destruct Hin as [<- | Hin].
  - exists b'. split; [left; reflexivity | exact Hab].
  - destruct (IH Hin) as (b & Hb & Hr). exists b. split; [right; exact Hb | exact Hr].
Qed.

Lemma elem_Ok_In {A} (l : list A) (i : Index) (a : A) :
  elem l i = Ok a -> In a l.
Proof.
  intros H. apply elem_Ok_iff in H as [_ H]. exact (nth_error_In _ _ H).
Qed.

Lemma mapM_elem_incl {A} (l : list A) (pos : ArrayOfIndex) (vals : list A) :
  mapM (elem l) pos = Ok vals -> incl vals l.
Proof.
  intros H. apply mapM_Ok_Forall2 in H.
  induction H as [|q u pos vals Hq _ IH]; intros a Ha; [destruct Ha|].
  destruct Ha as [<- | Ha]; [exact (elem_Ok_In _ _ _ Hq) | exact (IH a Ha)].
Qed.

Lemma ascending_elem (grid : Vector) (q q' : Index) (u u' : Numeric) :
  ascending grid -> elem grid q = Ok u -> elem grid q' = Ok u' -> q <= q' ->
  (u <= u')%Q.
Proof.
  intros Hs. revert q q'. unfold ascending in Hs.
  induction Hs as [|a grid Hs IH Ha]; intros q q' Hq Hq' Hle.
  - apply elem_Ok_In in Hq. destruct Hq.
  - destruct (Z.eq_dec q q') as [->|Hne].
    + rewrite Hq in Hq'. injection Hq' as ->. apply Qle_refl.
    + apply elem_Ok_iff in Hq as [Hq0 Hq], Hq' as [Hq0' Hq'].
      destruct (Z.to_nat q') as [|m'] eqn:E'; [lia|].
      cbn [nth_error] in Hq'.
      destruct (Z.to_nat q) as [|m] eqn:E.
      * cbn [nth_error] in Hq. injection Hq as <-.
        rewrite Forall_forall in Ha. apply Ha. exact (nth_error_In _ _ Hq').
      * cbn [nth_error] in Hq.
        apply (IH (Z.of_nat m) (Z.of_nat m')).
        -- apply elem_Ok_iff. rewrite Nat2Z.id. split; [lia | exact Hq].
        -- apply elem_Ok_iff. rewrite Nat2Z.id. split; [lia | exact Hq'].
        -- lia.
Qed.

(** The frequencies found, in the order of the request, never step back. *)
Lemma find_new_grid_ascending (old_grid new_grid : Vector) (pos : ArrayOfIndex)
  (vals : Vector) :
  is_increasing old_grid = true ->
  is_increasing new_grid = true ->
  find_new_grid_in_old_grid old_grid new_grid = Ok pos ->
  mapM (elem old_grid) pos = Ok vals ->
  ascending vals.
Proof.
  intros Hold Hnew Hpos Hvals.
  destruct old_grid as [|o old_grid].
  { destruct new_grid as [|x new_grid]; [|discriminate].
    injection Hpos as <-. injection Hvals as <-. constructor. }
  destruct (locate_spec new_grid (is_increasing_ascending _ Hnew)
              [] (o :: old_grid) (is_increasing_ascending _ Hold)
              ltac:(discriminate) (Forall_nil _))
    as [(pos' & Hpos' & _ & _ & Hmono) | (Herr & _)].
  2:{ unfold find_new_grid_in_old_grid in Hpos. cbn [app nelem length Z.of_nat] in Herr.
      congruence. }
  assert (pos' = pos).
  { unfold find_new_grid_in_old_grid in Hpos. cbn [app nelem length Z.of_nat] in Hpos'.
    congruence. }
  subst pos'. apply is_increasing_ascending in Hold.
  apply mapM_Ok_Forall2 in Hvals. clear Hpos Hpos' Hnew.
  unfold nondecreasing in Hmono. unfold ascending.
  induction Hvals as [|q u pos vals Hq Hrest IH]; [constructor|].
  apply StronglySorted_inv in Hmono as [Hmono Hq_le].
  constructor; [exact (IH Hmono)|].
  apply Forall_forall. intros u' Hu'.
  assert (Hex : exists q', In q' pos /\ elem (o :: old_grid) q' = Ok u').
  { clear - Hrest Hu'. induction Hrest as [|q' v pos vals Hq' _ IH];
      [destruct Hu'|].
    destruct Hu' as [<- | Hu'].
    - exists q'. split; [left; reflexivity | exact Hq'].
    - destruct (IH Hu') as (q'' & Hin & Hq''). exists q''.
      split; [right; exact Hin | exact Hq'']. }
  destruct Hex as (q' & Hin & Hq').
  rewrite Forall_forall in Hq_le.
  exact (ascending_elem _ _ _ _ _ Hold Hq Hq' (Hq_le _ Hin)).
Qed.

Lemma binary_flags_of (flags : ArrayOfIndex) :
  binary flags -> flags_of (nelem flags) (flagged_from flags 0) flags.
Proof.
  intros Hbin.
  exact (proj1 (flag_nonlinear_spec _ _ _ (nelem_nonneg flags)
                  (flag_nonlinear_flagged flags Hbin))).
Qed.

Section AdaptResult.

Variable ext : Externals.

(** Adapt succeeds exactly when the table passes the table checks, the
    request names at least one species, the requested frequencies are
    strictly increasing, every requested species occurs exactly once among
    the species of the table, and every requested frequency has a table
    frequency within the tolerance of 1 Hz.  In particular no array is read
    or written outside its bounds then. *)
Theorem Adapt_succeeds_iff
  (cs : ArrayOfArrayOfSpeciesTag) (cf : Vector) (self : GasAbsLookup) :
  fst (Adapt ext cs cf self) = Ok tt
  <-> chk_table self = Ok tt
      /\ cs <> []
      /\ is_increasing cf = true
      /\ (forall g, In g cs ->
            count_occ tag_group_eq_dec (species self) g = 1%nat)
      /\ (forall x, In x cf -> exists o, In o (f_grid self) /\ near x o).
Proof.
  split.
  - intros H. destruct (Adapt_Ok ext cs cf self H) as (nt & Hnt & _).
    destruct (Adapt_new_table_Ok _ _ _ _ Hnt)
      as (non_linear & ics & cnl & icf & vmrs0 & xsec0 & sp & _ & Htable
          & Hne & Hcf & Hics & _ & Hicf & _).
    split; [exact Htable|]. split.
    { intros ->. apply Hne. reflexivity. }
    split; [exact Hcf|]. split.
    + intros g Hg. apply chk_contains_Ok_iff.
      destruct (mapM_Ok_In _ _ _ _ Hics Hg) as (k & Hk & _). eauto.
    + intros x Hx.
      destruct (find_new_grid_in_range _ _ _ Hicf) as [_ (vals & Hvals & Hnear)].
      destruct (Forall2_In_l _ _ _ _ Hnear Hx) as (o & Ho & Hxo).
      exists o. split; [exact (mapM_elem_incl _ _ _ Hvals o Ho) | exact Hxo].
  - intros (Htable & Hne & Hcf & Hsp & Hfr).
    destruct (chk_table_Ok _ Htable) as (_ & _ & _ & Hfg & _).
    destruct (mapM_exists (chk_contains (species self)) cs) as [ics Hics].
    { intros g Hg. apply chk_contains_Ok_iff, Hsp, Hg. }
    destruct (find_new_grid_complete _ _ Hfg Hcf Hfr) as [icf Hicf].
    destruct (Adapt_new_table_spec self cs cf ics icf Htable) as (nt & nl & Hnt & _);
      try assumption.
    { destruct cs; [congruence | unfold nelem; simpl; lia]. }
    unfold Adapt. rewrite Hnt. reflexivity.
Qed.

(** The grids of the table Adapt leaves: exactly the requested species, in
    the order of the request; one table frequency for every requested
    frequency, within the tolerance of it, in ascending order; the pressure
    grid, the reference temperatures and the temperature perturbations of
    the original table; [log_p_grid] filled from the pressure grid; and the
    humidity perturbations of the original table, unless no nonlinear
    species is left. *)
Theorem Adapt_selects_grids
  (cs : ArrayOfArrayOfSpeciesTag) (cf : Vector) (self : GasAbsLookup) :
  fst (Adapt ext cs cf self) = Ok tt ->
  species (snd (Adapt ext cs cf self)) = cs
  /\ Forall2 near cf (GetFgrid (snd (Adapt ext cs cf self)))
  /\ incl (GetFgrid (snd (Adapt ext cs cf self))) (GetFgrid self)
  /\ ascending (GetFgrid (snd (Adapt ext cs cf self)))
  /\ GetPgrid (snd (Adapt ext cs cf self)) = GetPgrid self
  /\ log_p_grid (snd (Adapt ext cs cf self)) = map (log ext) (GetPgrid self)
  /\ t_ref (snd (Adapt ext cs cf self)) = t_ref self
  /\ t_pert (snd (Adapt ext cs cf self)) = t_pert self
  /\ nls_pert (snd (Adapt ext cs cf self))
     = match nonlinear_species (snd (Adapt ext cs cf self)) with
       | [] => []
       | _ :: _ => nls_pert self
       end.
Proof.
  intros H. destruct (Adapt_Ok ext cs cf self H) as (nt & Hnt & ->).
  destruct (Adapt_new_table_Ok _ _ _ _ Hnt)
    as (non_linear & ics & cnl & icf & vmrs0 & xsec0 & sp & _ & Htable
        & Hne & Hcf & Hics & _ & Hicf & Hspecies & Hnls & Hfgrid & Hp & _
        & Htr & Htp & Hnp & _).
  destruct (chk_table_Ok _ Htable) as (_ & _ & _ & Hfg & _).
  unfold GetFgrid, GetPgrid.
  cbn [init_log_p_grid species f_grid p_grid log_p_grid t_ref t_pert nls_pert
         nonlinear_species].
  split; [exact (adapted_species _ _ _ _ Hics Hspecies)|].
  destruct (find_new_grid_in_range _ _ _ Hicf) as [_ (vals & Hvals & Hnear)].
  assert (vals = f_grid nt) by congruence. subst vals.
  split; [exact Hnear|].
  split; [exact (mapM_elem_incl _ _ _ Hfgrid)|].
  split; [exact (find_new_grid_ascending _ _ _ _ Hfg Hcf Hicf Hfgrid)|].
  split; [exact Hp|]. split; [rewrite Hp; reflexivity|].
  split; [exact Htr|]. split; [exact Htp|].
  rewrite Hnp, Hnls.
  destruct (flagged_from cnl 0); reflexivity.
Qed.

(** The data of the table Adapt leaves: species [i] of the new table, found
    at position [k] of the original one, takes as many pages as it took
    there, its row of reference VMRs is the row [k] of the original table,
    and its coefficients at new frequency [r], found at position [j] of the
    original frequency grid, are the coefficients of species [k] at
    frequency [j], page by page, for every book and every pressure. *)
Theorem Adapt_copies_coefficients
  (cs : ArrayOfArrayOfSpeciesTag) (cf : Vector) (self : GasAbsLookup) :
  fst (Adapt ext cs cf self) = Ok tt ->
  exists ics icf,
    mapM (chk_contains (species self)) cs = Ok ics
    /\ find_new_grid_in_old_grid (f_grid self) cf = Ok icf
    /\ forall i k,
         elem ics i = Ok k ->
         pages_of (snd (Adapt ext cs cf self)) i = pages_of self k
         /\ (forall c,
               m_get (vmrs_ref (snd (Adapt ext cs cf self))) i c
               = m_get (vmrs_ref self) k c)
         /\ forall v r j b c,
              0 <= v < pages_of self k ->
              elem icf r = Ok j ->
              t4_get (xsec (snd (Adapt ext cs cf self))) b
                     (first_page (snd (Adapt ext cs cf self)) i + v) r c
              = t4_get (xsec self) b (first_page self k + v) j c.
Proof.
  intros H. destruct (Adapt_Ok ext cs cf self H) as (nt & Hnt & ->).
  destruct (Adapt_new_table_Ok _ _ _ _ Hnt)
    as (non_linear0 & ics & cnl0 & icf & vmrs0 & xsec0 & sp & _ & Htable
        & Hne & Hcf & Hics & _ & Hicf & _).
  destruct (Adapt_new_table_spec self cs cf ics icf Htable Hne Hcf Hics Hicf)
    as (nt' & non_linear & Hnt' & Hflags & _ & Hnls & _ & _ & _ & _ & _ & Hnp
        & _ & _ & Hvget & _ & _ & _ & _ & Hget).
  cbv zeta in Hnt', Hnls, Hnp, Hget.
  assert (nt' = nt) by congruence. subst nt'.
  exists ics, icf. split; [exact Hics|]. split; [exact Hicf|].
  intros i k Hk.
  set (nls := nonlinear_species self) in *.
  set (n_pert := nelem (nls_pert self)) in *.
  set (cnl := map (is_nonlinear nls) ics) in *.
  assert (Hi : 0 <= i < nelem ics) by exact (elem_Ok_in_range _ _ _ Hk).
  assert (Hi' : (Z.to_nat i < length ics)%nat) by zlia.
  assert (Hki : nth (Z.to_nat i) ics 0 = k) by exact (elem_nth _ _ _ 0 Hk).
  destruct (chk_contains_in_range _ _ _ Hics) as [Hics_range _].
  assert (Hkr : 0 <= k < nelem (species self)).
  { rewrite Forall_forall in Hics_range. apply Hics_range.
    exact (elem_Ok_In _ _ _ Hk). }
  assert (Hlen_ics : nelem ics = nelem cs).
  { apply mapM_Ok_length in Hics. unfold nelem. lia. }
  assert (Hcnl_i : nth (Z.to_nat i) cnl 0 = is_nonlinear nls k).
  { unfold cnl. rewrite (nth_indep _ 0 (is_nonlinear nls 0))
      by (rewrite length_map; exact Hi').
    rewrite map_nth, Hki. reflexivity. }
  assert (Hbin : binary cnl) by apply is_nonlinear_binary.
  assert (Hflags' : flags_of (nelem cnl) (flagged_from cnl 0) cnl)
    by exact (binary_flags_of _ Hbin).
  assert (Hlen_cnl : length cnl = length ics)
    by (unfold cnl; apply length_map).
  (* whether species i of the new table is flagged *)
  assert (Hflag_i : existsb (Z.eqb i) (flagged_from cnl 0)
                    = existsb (Z.eqb k) nls).
  { assert (Hn := proj2 Hflags' i). rewrite Hcnl_i in Hn.
    unfold is_nonlinear in Hn.
    destruct (existsb (Z.eqb i) (flagged_from cnl 0)),
      (existsb (Z.eqb k) nls); try reflexivity;
      exfalso; (assert (Hr : 0 <= i < nelem cnl) by zlia);
      specialize (Hn Hr); discriminate. }
  (* the humidity perturbations of the new table, when they matter *)
  assert (Hpert_new : count_set cnl <> 0 ->
                      nelem (nls_pert (init_log_p_grid ext nt)) = n_pert).
  { intros Hc. cbn [init_log_p_grid nls_pert]. rewrite Hnp.
    destruct (Z.eqb_spec 0 (count_set cnl)); [congruence | reflexivity]. }
  assert (Hcount_i : existsb (Z.eqb k) nls = true -> count_set cnl <> 0).
  { intros E. rewrite <- Hflag_i in E. apply existsb_eqb_In in E.
    rewrite <- (flagged_from_length cnl 0).
    destruct (flagged_from cnl 0); [destruct E | unfold nelem; simpl; lia]. }
  assert (Hpages_of : pages_of (init_log_p_grid ext nt) i = pages_of self k).
  { unfold pages_of. cbn [init_log_p_grid nonlinear_species].
    rewrite Hnls, Hflag_i. fold nls.
    destruct (existsb (Z.eqb k) nls) eqn:E; [|reflexivity].
    apply Hpert_new, Hcount_i, eq_refl. }
  split; [exact Hpages_of|]. split.
  { intros c. cbn [init_log_p_grid vmrs_ref].
    rewrite Hvget by lia. rewrite Hki. reflexivity. }
  intros v r j b c Hv Hj.
  assert (Hr : 0 <= r < nelem icf) by exact (elem_Ok_in_range _ _ _ Hj).
  assert (Hjr : nth (Z.to_nat r) icf 0 = j) by exact (elem_nth _ _ _ 0 Hj).
  cbn [init_log_p_grid xsec].
  (* the first pages, as the two loops count them *)
  assert (Hfirst_old : first_page self k
                       = pages_upto non_linear n_pert (Z.to_nat k)).
  { unfold first_page. rewrite <- (Z2Nat.id k) at 1 by lia.
    symmetry. apply (pages_upto_sum _ _ _ _ Hflags).
    destruct Hflags as [Hl _]. unfold nelem in *. lia. }
  assert (Hfirst_new : first_page (init_log_p_grid ext nt) i
                       = pages_upto cnl n_pert (Z.to_nat i)).
  { unfold first_page. rewrite <- (Z2Nat.id i) at 1 by lia.
    unfold pages_of. cbn [init_log_p_grid nonlinear_species nls_pert].
    rewrite Hnls.
    rewrite <- (pages_upto_sum _ _ _ _ Hflags') by lia.
    destruct (Z.eq_dec (count_set cnl) 0) as [E|E].
    - rewrite !pages_upto_unflagged by (try exact E; lia). reflexivity.
    - rewrite Hnp. destruct (Z.eqb_spec 0 (count_set cnl)); [congruence|].
      reflexivity. }
  rewrite Hfirst_old, Hfirst_new, <- Hki, <- Hjr.
  apply Hget; [exact Hi' | | exact Hr].
  rewrite Hcnl_i. unfold pages_of in Hv. fold nls n_pert in Hv.
  unfold is_nonlinear. destruct (existsb (Z.eqb k) nls); exact Hv.
Qed.

End AdaptResult.

(** ** The temperature and humidity range checks of Extract *)

Lemma is_increasing_nth (l : list Q) :
  is_increasing l = true ->
  forall i j, (i < j < length l)%nat -> (nth i l 0 < nth j l 0)%Q.
Proof.
  induction l as [|a l IH]; intros Hd i j Hij; simpl in Hij; [lia|].
  destruct l as [|b l]; [simpl in Hij; lia|].
  apply is_increasing_cons in Hd as [Hab Hd].
  destruct j as [|j]; [lia|].
  destruct i as [|i].
  - cbn [nth].
    destruct j as [|j]; [exact Hab|].
    apply Qlt_trans with (y := b); [exact Hab|].
    apply (IH Hd 0%nat (S j)). simpl in *. lia.
  - cbn [nth]. apply (IH Hd i j). simpl in *. lia.
Qed.

Lemma perturbation_range_check_unfold (pert : list Q) (x : Q) (e : Error) :
  2 <= nelem pert ->
  perturbation_range_check pert x e
  = throw_if (Qgtb x (pert_max pert) || Qltb x (pert_min pert)) e.
Proof.
  intros Hn. unfold perturbation_range_check, pert_max, pert_min.
  assert (Hlen : (2 <= length pert)%nat) by zlia.
  assert (Hget : forall k, (k < length pert)%nat ->
                           elem pert (Z.of_nat k) = Ok (nth k pert 0%Q)).
  { intros k Hk. rewrite elem_of_nat.
    now rewrite (nth_error_nth' pert 0%Q Hk). }
  change 0 with (Z.of_nat 0). change 1 with (Z.of_nat 1).
  rewrite (Hget 0%nat), (Hget 1%nat) by lia. cbn [bind].
  replace (nelem pert - Z.of_nat 1) with (Z.of_nat (length pert - 1)) by zlia.
  replace (nelem pert - 2) with (Z.of_nat (length pert - 2)) by zlia.
  rewrite !Hget by lia. reflexivity.
Qed.

(** The check of a temperature offset [T - t_ref] against [t_pert] and of
    a fractional VMR against [nls_pert], on a grid of at least two points:
    it passes exactly inside the interval that reaches half a grid spacing
    beyond each end, and throws outside.  Every point of a strictly
    increasing grid passes.  The order of the grid is taken for granted: on
    a strictly decreasing grid the upper bound is below the lower one and
    every value is thrown out. *)
Theorem perturbation_range (pert : list Q) (x : Q) (e : Error) :
  2 <= nelem pert ->
  (perturbation_range_check pert x e = Ok tt
   <-> (pert_min pert <= x /\ x <= pert_max pert)%Q)
  /\ (perturbation_range_check pert x e = Err e
      <-> (pert_max pert < x \/ x < pert_min pert)%Q)
  /\ (is_increasing pert = true ->
      forall g, In g pert -> perturbation_range_check pert g e = Ok tt)
  /\ (is_decreasing pert = true ->
      perturbation_range_check pert x e = Err e).
Proof.
  intros Hn.
  assert (Hlen : (2 <= length pert)%nat) by zlia.
  assert (Hiff : forall y,
             (perturbation_range_check pert y e = Ok tt
              <-> (pert_min pert <= y /\ y <= pert_max pert)%Q)
             /\ (perturbation_range_check pert y e = Err e
                 <-> (pert_max pert < y \/ y < pert_min pert)%Q)).
  { intros y. rewrite (perturbation_range_check_unfold pert y e Hn).
    unfold throw_if.
    destruct (Qgtb y (pert_max pert)) eqn:Ehi;
      [apply Qgtb_true in Ehi | apply Qgtb_false in Ehi].
    - cbn [orb]. split; split; intros H; try discriminate; auto.
      destruct H as [_ H]. exfalso. lra.
    - destruct (Qltb y (pert_min pert)) eqn:Elo;
        [apply Qltb_true in Elo | apply Qltb_false in Elo]; cbn [orb].
      + split; split; intros H; try discriminate; auto.
        destruct H as [H _]. exfalso. lra.
      + split; split; intros H; try discriminate; auto.
        destruct H as [H|H]; exfalso; lra. }
  split; [exact (proj1 (Hiff x))|]. split; [exact (proj2 (Hiff x))|]. split.
  - intros Hinc g Hg. apply (proj1 (Hiff g)).
    pose proof (is_increasing_nth pert Hinc) as Hnth.
    apply (In_nth _ _ 0%Q) in Hg as (k & Hk & <-).
    pose proof (Hnth 0%nat 1%nat ltac:(lia)) as H01.
    pose proof (Hnth (length pert - 2)%nat (length pert - 1)%nat ltac:(lia))
      as Hlast.
    assert (H0k : (nth 0 pert 0 <= nth k pert 0)%Q).
    { destruct k as [|k]; [apply Qle_refl|]. apply Qlt_le_weak, Hnth. lia. }
    assert (Hkl : (nth k pert 0 <= nth (length pert - 1) pert 0)%Q).
    { destruct (Nat.eq_dec k (length pert - 1)) as [->|Hne];
        [apply Qle_refl|]. apply Qlt_le_weak, Hnth. lia. }
    unfold pert_min, pert_max. split; lra.
  - intros Hdec. apply (proj2 (Hiff x)).
    pose proof (is_decreasing_nth pert Hdec) as Hnth.
    pose proof (Hnth 0%nat 1%nat ltac:(lia)) as H01.
    pose proof (Hnth (length pert - 2)%nat (length pert - 1)%nat ltac:(lia))
      as Hlast.
    assert (H0l : (nth (length pert - 1) pert 0 <= nth 0 pert 0)%Q).
    { apply Qlt_le_weak. apply Hnth. lia. }
    destruct (Qlt_le_dec (pert_max pert) x) as [H|H];
      [left; exact H | right].
    unfold pert_min, pert_max in *. lra.
Qed.

(** ** Requested frequencies closer than the tolerance *)

Lemma chain_repeat (new_grid : Vector) :
  forall (v : Numeric) (vals : Vector),
    chain v new_grid vals ->
    forall (i : nat) (y u u' : Numeric),
      nth_error new_grid i = Some y ->
      nth_error (v :: vals) i = Some u ->
      nth_error vals i = Some u' ->
      near y u -> u' = u.
Proof.
  induction new_grid as [|x new_grid IH]; intros v vals Hchain i y u u' Hy Hu Hu' Hnear.
  - destruct i; discriminate.
  - destruct vals as [|v' vals]; [destruct i; discriminate|].
    destruct Hchain as [Hstep Hchain].
    destruct i as [|i].
    + cbn in Hy, Hu, Hu'. injection Hy as <-. injection Hu as <-.
      injection Hu' as <-. destruct Hstep as [E | Hoff]; [exact E | contradiction].
    + cbn [nth_error] in Hy, Hu, Hu'.
      exact (IH v' vals Hchain i y u u' Hy Hu Hu' Hnear).
Qed.

(** The scan stays where it is when the next new frequency is within the
    tolerance of the old frequency just matched. *)
Lemma find_new_grid_repeats (old_grid new_grid : Vector) (pos : ArrayOfIndex)
  (vals : Vector) (i : nat) (y u : Numeric) :
  find_new_grid_in_old_grid old_grid new_grid = Ok pos ->
  mapM (elem old_grid) pos = Ok vals ->
  nth_error new_grid (S i) = Some y ->
  nth_error vals i = Some u ->
  near y u ->
  nth_error vals (S i) = Some u.
Proof.
  intros Hpos Hvals Hy Hu Hnear.
  destruct (find_new_grid_values _ _ _ Hpos) as (vals' & Hvals' & Hnears & Hchain).
  assert (vals' = vals).
  { apply Forall2_mapM in Hvals'. congruence. }
  subst vals'.
  destruct new_grid as [|x new_grid]; [discriminate|].
  destruct vals as [|v vals]; [destruct i; discriminate|].
  cbn [nth_error] in Hy |- *.
  assert (Hlen : length (x :: new_grid) = length (v :: vals))
    by exact (Forall2_length Hnears).
  destruct (nth_error vals i) as [u'|] eqn:Hu'.
  - f_equal. exact (chain_repeat _ _ _ Hchain i y u u' Hy Hu Hu' Hnear).
  - exfalso. apply nth_error_None in Hu'.
    assert (i < length new_grid)%nat by (apply nth_error_Some; congruence).
    simpl in Hlen. lia.
Qed.

Lemma nth_error_elem {A} (l : list A) (i : Index) (a : A) :
  elem l i = Ok a -> nth_error l (Z.to_nat i) = Some a.
Proof. intros H. exact (proj2 (proj1 (elem_Ok_iff l i a) H)). Qed.

Section AdaptMerges.

Variable ext : Externals.

(** Adapt does not verify that no frequency is taken twice.  When a
    requested frequency is within the tolerance of the table frequency
    found for the requested frequency before it, the same table frequency
    is taken again: the frequency grid of the new table holds it twice, and
    every later Adapt on that table throws, since the grid is no longer
    strictly increasing. *)
Theorem Adapt_merges_close_frequencies
  (cs : ArrayOfArrayOfSpeciesTag) (cf : Vector) (self : GasAbsLookup)
  (i : Index) (y u : Numeric) :
  fst (Adapt ext cs cf self) = Ok tt ->
  elem cf (i + 1) = Ok y ->
  elem (GetFgrid (snd (Adapt ext cs cf self))) i = Ok u ->
  near y u ->
  elem (GetFgrid (snd (Adapt ext cs cf self))) (i + 1) = Ok u
  /\ forall cs' cf',
       Adapt ext cs' cf' (snd (Adapt ext cs cf self))
       = (Err GridNotIncreasing, snd (Adapt ext cs cf self)).
Proof.
  intros H Hy Hu Hnear.
  destruct (Adapt_Ok ext cs cf self H) as (nt & Hnt & Hsnd).
  rewrite Hsnd in *. unfold GetFgrid in *. cbn [init_log_p_grid f_grid] in *.
  destruct (Adapt_new_table_Ok _ _ _ _ Hnt)
    as (non_linear0 & ics & cnl0 & icf & vmrs0 & xsec0 & sp & _ & Htable
        & Hne & Hcf & Hics & _ & Hicf & _).
  destruct (Adapt_new_table_spec self cs cf ics icf Htable Hne Hcf Hics Hicf)
    as (nt' & non_linear & Hnt' & _ & Hspecies & Hnls & Hfgrid & _).
  cbv zeta in Hnt', Hnls.
  assert (nt' = nt) by congruence. subst nt'.
  assert (Hi : 0 <= i) by (apply elem_Ok_iff in Hu; tauto).
  assert (Hnext : nth_error (f_grid nt) (S (Z.to_nat i)) = Some u).
  { apply (find_new_grid_repeats _ _ _ _ _ y u Hicf Hfgrid).
    - apply nth_error_elem in Hy.
      replace (Z.to_nat (i + 1)) with (S (Z.to_nat i)) in Hy by lia. exact Hy.
    - exact (nth_error_elem _ _ _ Hu).
    - exact Hnear. }
  assert (Hsucc : elem (f_grid nt) (i + 1) = Ok u).
  { apply elem_Ok_iff. split; [lia|].
    replace (Z.to_nat (i + 1)) with (S (Z.to_nat i)) by lia. exact Hnext. }
  split; [exact Hsucc|].
  intros cs' cf'.
  (* the new grid is not strictly increasing *)
  assert (Hinc : is_increasing (f_grid nt) = false).
  { destruct (is_increasing (f_grid nt)) eqn:E; [exfalso | reflexivity].
    pose proof (is_increasing_nth _ E (Z.to_nat i) (S (Z.to_nat i))) as Hlt.
    assert (Hlen : (S (Z.to_nat i) < length (f_grid nt))%nat)
      by (apply nth_error_Some; congruence).
    specialize (Hlt ltac:(lia)).
    rewrite (nth_error_nth _ _ 0%Q Hnext) in Hlt.
    rewrite (nth_error_nth _ _ 0%Q (nth_error_elem _ _ _ Hu)) in Hlt.
    exact (Qlt_irrefl _ Hlt). }
  (* the checks before the one on the frequency grid pass *)
  set (cnl := map (is_nonlinear (nonlinear_species self)) ics) in *.
  assert (Hbin : binary cnl) by apply is_nonlinear_binary.
  assert (Hlen_cnl : nelem cnl = nelem cs).
  { apply mapM_Ok_length in Hics. unfold cnl, nelem.
    rewrite length_map. lia. }
  destruct (flagged_from_spec cnl 0) as [Hsorted Hin].
  assert (Hrange : Forall (fun x => 0 <= x < nelem cs) (flagged_from cnl 0)).
  { apply Forall_forall. intros q Hq. apply Hin in Hq. lia. }
  destruct (chk_if_in_range_all _ _ Hrange) as [us Hus].
  unfold Adapt, Adapt_new_table.
  cbn [init_log_p_grid species nonlinear_species].
  rewrite Hspecies, Hnls, <- Hlen_cnl at 1.
  rewrite (flag_nonlinear_flagged cnl Hbin). cbn [bind].
  unfold chk_table.
  cbn [init_log_p_grid species nonlinear_species f_grid].
  rewrite Hspecies, Hnls.
  replace (0 =? nelem cs) with false by (symmetry; apply Z.eqb_neq; lia).
  cbn [throw_if bind].
  rewrite (strictly_sorted_is_unique _ Hsorted). cbn [negb throw_if bind].
  rewrite Hus. cbn [bind]. unfold chk_if_increasing. rewrite Hinc.
  reflexivity.
Qed.

End AdaptMerges.

(** ** Extract and the VMRs *)

Lemma mapM_ext {A B} (f g : A -> result B) (l : list A) :
  (forall a, In a l -> f a = g a) -> mapM f l = mapM g l.
Proof.
  induction l as [|a l IH]; intros H; [reflexivity|].
  cbn [mapM]. rewrite (H a (or_introl eq_refl)), IH; [reflexivity|].
  intros a' Ha'. apply H. right. exact Ha'.
Qed.

Section ExtractVmr.

Variable ext : Externals.

Lemma Extract_checks_vmrs (self : GasAbsLookup)
  (p_interp_order t_interp_order h2o_interp_order : Index)
  (vmrs1 vmrs2 : Vector) :
  nelem vmrs1 = nelem vmrs2 ->
  Extract_checks ext self p_interp_order t_interp_order h2o_interp_order vmrs1
  = Extract_checks ext self p_interp_order t_interp_order h2o_interp_order vmrs2.
Proof. intros E. unfold Extract_checks. rewrite E. reflexivity. Qed.

Lemma level_without_nonlinear (self : GasAbsLookup)
  (t_interp_order h2o_interp_order f_start f_extent h2o_index : Index)
  (T : Numeric) (vmrs1 vmrs2 : Vector) (non_linear : ArrayOfIndex)
  (pgp : GridPosPoly) (pi : Index) :
  nonlinear_species self = [] ->
  level ext self t_interp_order h2o_interp_order f_start f_extent h2o_index
        T vmrs1 non_linear pgp pi
  = level ext self t_interp_order h2o_interp_order f_start f_extent h2o_index
          T vmrs2 non_linear pgp pi.
Proof.
  intros E. unfold level, humidity_position. rewrite E. reflexivity.
Qed.

(** For a table without nonlinear species the absorption extracted for a
    species is proportional to the VMR given for it, and it does not depend
    on the VMRs given for the other species: with other VMRs the same call
    returns a matrix of the same size whose entries differ by the ratio of
    the VMRs. *)
Theorem Extract_scales_with_vmr (self : GasAbsLookup)
  (p_interp_order t_interp_order h2o_interp_order f_index : Index)
  (p T : Numeric) (vmrs1 vmrs2 : Vector) (sga1 : Matrix) :
  nonlinear_species self = [] ->
  nelem vmrs1 = nelem vmrs2 ->
  Extract ext self p_interp_order t_interp_order h2o_interp_order f_index
          p T vmrs1 = Ok sga1 ->
  exists sga2,
    Extract ext self p_interp_order t_interp_order h2o_interp_order f_index
            p T vmrs2 = Ok sga2
    /\ m_nrows sga2 = m_nrows sga1
    /\ m_ncols sga2 = m_ncols sga1
    /\ forall f si,
         (m_get sga2 f si * nth (Z.to_nat si) vmrs1 0
          == m_get sga1 f si * nth (Z.to_nat si) vmrs2 0)%Q.
Proof.
  intros Hnls Hlen H. unfold Extract in *.
  rewrite <- (Extract_checks_vmrs self _ _ _ vmrs1 vmrs2 Hlen).
  apply bind_Ok_inv in H as (h2o_index & -> & H). cbn [bind].
  apply bind_Ok_inv in H as ([f_start f_extent] & -> & H). cbn [bind].
  apply bind_Ok_inv in H as (non_linear & -> & H). cbn [bind].
  apply bind_Ok_inv in H as ([] & -> & H). cbn [bind].
  apply bind_Ok_inv in H as (pgp & -> & H). cbn [bind].
  apply bind_Ok_inv in H as (pitw & -> & H). cbn [bind].
  apply bind_Ok_inv in H as (pre & Hpre & H).
  rewrite (mapM_ext _
             (level ext self t_interp_order h2o_interp_order f_start f_extent
                    h2o_index T vmrs1 non_linear pgp)), Hpre.
  2:{ intros pi _. symmetry. now apply level_without_nonlinear. }
  cbn [bind]. injection H as <-. eexists. split; [reflexivity|].
  cbn [m_nrows m_ncols m_get]. split; [reflexivity|]. split; [reflexivity|].
  intros f si. unfold sga_elem. ring.
Qed.

End ExtractVmr.

(** ** Extract on a table left by Adapt *)

Section ExtractAfterAdapt.

Variable ext : Externals.

(** The checks of Extract on a table whose extents are consistent and
    whose [log_p_grid] is initialized: only the run-time checks are left. *)
Lemma Extract_checks_consistent (t : GasAbsLookup)
  (p_interp_order t_interp_order h2o_interp_order : Index) (abs_vmrs : Vector) :
  is_size2 (vmrs_ref t) (nelem (species t)) (nelem (p_grid t)) = true ->
  nelem (t_ref t) = nelem (p_grid t) ->
  is_size4 (xsec t)
           (if 0 =? nelem (t_pert t) then 1 else nelem (t_pert t))
           (nelem (species t)
            + nelem (nonlinear_species t) * (nelem (nls_pert t) - 1))
           (nelem (f_grid t)) (nelem (p_grid t)) = true ->
  nelem (log_p_grid t) = nelem (p_grid t) ->
  Extract_checks ext t p_interp_order t_interp_order h2o_interp_order abs_vmrs
  = (h2o_index <-
       (if 0 <? nelem (nonlinear_species t)
        then
          let h := find_first_species_tg (species t) (h2o_species ext) in
          _ <- throw_if (h =? -1) NoHumidityReferenceSpecies ;;
          Ok h
        else Ok (-1)) ;;
     _ <- throw_if (nelem (p_grid t) <? p_interp_order + 1)
                   InsufficientGridForOrder ;;
     _ <- throw_if (negb (nelem (nls_pert t) =? 0)
                    && (nelem (nls_pert t) <? h2o_interp_order + 1))
                   InsufficientGridForOrder ;;
     _ <- throw_if (negb (nelem (t_pert t) =? 0)
                    && (nelem (t_pert t) <? t_interp_order + 1))
                   InsufficientGridForOrder ;;
     _ <- throw_if (negb (nelem abs_vmrs =? nelem (species t)))
                   DimensionMismatch ;;
     Ok h2o_index).
Proof.
  intros Hvm Htr Hxs Hlog. unfold Extract_checks.
  rewrite Hvm, Htr, Hxs, Hlog, Z.eqb_refl. cbn [negb assert throw_if bind].
  destruct (0 <? nelem (nonlinear_species t)); [|reflexivity].
  cbv zeta. destruct (throw_if _ NoHumidityReferenceSpecies); reflexivity.
Qed.

(** The extents of the table Adapt leaves are the ones Extract asserts,
    when the original table was in one of the three configurations. *)
Lemma Adapt_table_consistent
  (cs : ArrayOfArrayOfSpeciesTag) (cf : Vector) (self : GasAbsLookup) :
  valid_configuration self ->
  fst (Adapt ext cs cf self) = Ok tt ->
  let t := snd (Adapt ext cs cf self) in
  is_size2 (vmrs_ref t) (nelem (species t)) (nelem (p_grid t)) = true
  /\ nelem (t_ref t) = nelem (p_grid t)
  /\ is_size4 (xsec t)
              (if 0 =? nelem (t_pert t) then 1 else nelem (t_pert t))
              (nelem (species t)
               + nelem (nonlinear_species t) * (nelem (nls_pert t) - 1))
              (nelem (f_grid t)) (nelem (p_grid t)) = true
  /\ nelem (log_p_grid t) = nelem (p_grid t)
  /\ nelem (species t) = nelem cs.
Proof.
  intros Hvalid H. destruct (Adapt_Ok ext cs cf self H) as (nt & Hnt & ->).
  destruct (Adapt_new_table_Ok _ _ _ _ Hnt)
    as (non_linear0 & ics & cnl0 & icf & vmrs0 & xsec0 & sp & _ & Htable
        & Hne & Hcf & Hics & _ & Hicf & _).
  destruct (Adapt_new_table_spec self cs cf ics icf Htable Hne Hcf Hics Hicf)
    as (nt' & non_linear & Hnt' & _ & Hspecies & Hnls & Hfgrid & Hp & _ & Htr
        & Htp & Hnp & Hvr & Hvc & _ & Hxb & Hxp & Hxr & Hxc & _).
  cbv zeta in *.
  assert (nt' = nt) by congruence. subst nt'.
  destruct (chk_table_Ok _ Htable)
    as (_ & _ & _ & _ & _ & _ & _ & Htref & _ & Hxs).
  apply chk_xsec_Ok, is_size4_true in Hxs as (Hob & _ & _ & Hoc).
  cbn [init_log_p_grid species nonlinear_species f_grid p_grid log_p_grid
         vmrs_ref t_ref t_pert nls_pert xsec].
  split.
  { unfold is_size2. rewrite Hvr, Hvc, Hspecies, Hp, !Z.eqb_refl. reflexivity. }
  split; [congruence|]. split.
  { apply is_size4_true. rewrite Hxb, Hxp, Hxr, Hxc, Htp, Hp, Hspecies, Hnls, Hnp.
    rewrite flagged_from_length.
    split.
    { rewrite Hob. unfold expected_books.
      destruct (Z.eqb_spec 0 (nelem (t_pert self))) as [E|E].
      - destruct Hvalid as [Hv|Hv]; [|congruence].
        rewrite Hv. reflexivity.
      - rewrite andb_false_r. reflexivity. }
    split.
    { destruct (Z.eqb_spec 0 (count_set (map (is_nonlinear (nonlinear_species self)) ics)))
        as [E|E]; [rewrite <- E; lia | reflexivity]. }
    split; [|exact Hoc].
    apply mapM_Ok_length in Hfgrid. apply locate_length in Hicf.
    unfold nelem. lia. }
  split; [|rewrite Hspecies; reflexivity].
  unfold nelem. rewrite length_map, Hp. reflexivity.
Qed.


End ExtractAfterAdapt.

(** ** What Extract computes *)

Lemma foldM_ext {A S} (f g : S -> A -> result S) (l : list A) (s : S) :
  (forall s a, f s a = g s a) -> foldM f l s = foldM g l s.
Proof.
  intros H. revert s. induction l as [|a l IH]; intros s; [reflexivity|].
  cbn [foldM]. rewrite H. destruct (g s a); cbn [bind]; auto.
Qed.

Lemma foldM_map {A B S} (f : S -> B -> result S) (h : A -> B) (l : list A)
  (s : S) :
  foldM f (map h l) s = foldM (fun s a => f s (h a)) l s.
Proof.
  revert s. induction l as [|a l IH]; intros s; [reflexivity|].
  cbn [map foldM]. destruct (f s (h a)); cbn [bind]; auto.
Qed.

(** A loop nest over two index ranges is one loop over the pairs, the
    outer index slowest. *)
Lemma foldM_nested {A B S} (g : S -> A -> B -> result S)
  (la : list A) (lb : list B) (s : S) :
  foldM (fun st a => foldM (fun st b => g st a b) lb st) la s
  = foldM (fun st ab => g st (fst ab) (snd ab)) (list_prod la lb) s.
Proof.
  revert s. induction la as [|a la IH]; intros s; [reflexivity|].
  cbn [foldM list_prod]. rewrite foldM_app, foldM_map. cbn [fst snd].
  destruct (foldM (fun st b => g st a b) lb s); cbn [bind]; auto.
Qed.

Lemma foldM_snoc_Ok {A S} (f : S -> A -> result S) (l : list A) (a : A)
  (s s' : S) :
  foldM f (l ++ [a]) s = Ok s' ->
  exists mid, foldM f l s = Ok mid /\ f mid a = Ok s'.
Proof.
  rewrite foldM_app. intros H. apply bind_Ok_inv in H as (mid & Hmid & H).
  exists mid. split; [exact Hmid|]. cbn [foldM] in H.
  destruct (f mid a); cbn [bind] in H; congruence.
Qed.

Lemma nth_error_upto (n : Index) (k : nat) :
  (k < Z.to_nat n)%nat -> nth_error (upto n) k = Some (Z.of_nat k).
Proof.
  intros Hk. unfold upto. rewrite nth_error_map, nth_error_seq.
  destruct (Nat.ltb_spec k (Z.to_nat n)); [reflexivity | lia].
Qed.

Lemma nth_error_combine {A B} (l1 : list A) (l2 : list B) (k : nat) :
  nth_error (combine l1 l2) k
  = match nth_error l1 k, nth_error l2 k with
    | Some a, Some b => Some (a, b)
    | _, _ => None
    end.
Proof.
  revert l2 k. induction l1 as [|a l1 IH]; intros l2 k.
  - destruct k; reflexivity.
  - destruct l2 as [|b l2]; [destruct k; cbn; [reflexivity|];
      destruct (nth_error l1 k); reflexivity|].
    destruct k as [|k]; [reflexivity|]. cbn [combine nth_error]. apply IH.
Qed.

Lemma skipn_nth_error {A} (l : list A) (n : nat) (x : A) :
  nth_error l n = Some x -> skipn n l = x :: skipn (S n) l.
Proof.
  revert l. induction n as [|n IH]; intros [|a l] H; try discriminate.
  - cbn in H. injection H as ->. reflexivity.
  - cbn [nth_error] in H. cbn [skipn]. rewrite (IH l H). reflexivity.
Qed.

(** One pass of [res[f] += itw[iti] * col(f)] over the frequencies. *)
Lemma add_weighted_Ok (itw : Vector) (iti : Index)
  (col : Index -> result Numeric) (res res' : Vector) :
  add_weighted itw iti col res = Ok res' ->
  length res' = length res
  /\ forall f, (f < length res)%nat ->
       exists wgt v,
         elem itw iti = Ok wgt /\ col (Z.of_nat f) = Ok v
         /\ nth f res' 0%Q = (nth f res 0 + wgt * v)%Q.
Proof.
  unfold add_weighted. intros H.
  assert (Hlen : length res' = length res).
  { apply mapM_Ok_length in H. rewrite H, length_combine, upto_length.
    unfold nelem. lia. }
  split; [exact Hlen|]. intros f Hf.
  apply mapM_Ok_Forall2 in H.
  destruct (Forall2_nth_error _ _ _ H f (Z.of_nat f, nth f res 0%Q))
    as (r' & Hr' & Hstep).
  { rewrite nth_error_combine, nth_error_upto by zlia.
    rewrite (nth_error_nth' res 0%Q Hf). reflexivity. }
  cbv beta iota in Hstep.
  apply bind_Ok_inv in Hstep as (wgt & Hw & Hstep).
  apply bind_Ok_inv in Hstep as (v & Hv & Hstep).
  injection Hstep as <-. exists wgt, v.
  split; [exact Hw|]. split; [exact Hv|].
  exact (nth_error_nth _ _ _ Hr').
Qed.

(** A loop of such passes adds up, for every frequency, the weights from
    [itw[iti0]] on times the values read. *)
Lemma weighted_loop {A} (itw : Vector) (col : A -> Index -> result Numeric)
  (l : list A) :
  forall (iti0 : Index) (res0 : Vector) (iti' : Index) (res : Vector),
    foldM (fun '(iti, res) a =>
             res' <- add_weighted itw iti (col a) res ;;
             Ok (iti + 1, res')) l (iti0, res0) = Ok (iti', res) ->
    iti' = iti0 + nelem l
    /\ length res = length res0
    /\ forall f, (f < length res0)%nat ->
         exists vals,
           Forall2 (fun a v => col a (Z.of_nat f) = Ok v) l vals
           /\ nth f res 0%Q
              = fold_left (fun acc '(wgt, v) => (acc + wgt * v)%Q)
                          (combine (skipn (Z.to_nat iti0) itw) vals)
                          (nth f res0 0%Q)
           /\ (l <> [] -> 0 <= iti0).
Proof.
  induction l as [|a l IH]; intros iti0 res0 iti' res H.
  - cbn [foldM] in H. injection H as <- <-.
    split; [unfold nelem; simpl; lia|]. split; [reflexivity|].
    intros f Hf. exists []. split; [constructor|].
    split; [destruct (skipn (Z.to_nat iti0) itw); reflexivity | congruence].
  - cbn [foldM] in H. apply bind_Ok_inv in H as ([iti1 res1] & Hstep & H).
    apply bind_Ok_inv in Hstep as (res1' & Hadd & Hstep).
    injection Hstep as <- <-.
    destruct (add_weighted_Ok _ _ _ _ _ Hadd) as [Hlen1 Hget1].
    destruct (IH _ _ _ _ H) as (Hiti & Hlen & Hget).
    split; [unfold nelem in *; simpl length; lia|].
    split; [congruence|].
    intros f Hf.
    destruct (Hget1 f Hf) as (wgt & v & Hw & Hv & Hres1).
    destruct (Hget f ltac:(lia)) as (vals & Hvals & Hres & _).
    exists (v :: vals). split; [constructor; assumption|].
    assert (H0 : 0 <= iti0) by (apply elem_Ok_iff in Hw; tauto).
    split; [|intros _; exact H0].
    rewrite Hres, Hres1.
    rewrite (skipn_nth_error _ _ _ (nth_error_elem _ _ _ Hw)).
    replace (Z.to_nat (iti0 + 1)) with (S (Z.to_nat iti0)) by lia.
    reflexivity.
Qed.

Lemma Forall2_eq_map {A B} (R : A -> B -> Prop) (g : A -> B) (l : list A)
  (vals : list B) :
  (forall a v, In a l -> R a v -> v = g a) -> Forall2 R l vals -> vals = map g l.
Proof.
  intros Hg H. induction H as [|a v l vals Hav _ IH]; [reflexivity|].
  cbn [map]. f_equal.
  - apply Hg; [left; reflexivity | exact Hav].
  - apply IH. intros a' v' Ha'. apply Hg. right. exact Ha'.
Qed.

Lemma view_elem_Ok (xs : Tensor4) (fpi n_pages f_start f_extent col b p f : Index)
  (v : Numeric) :
  view_elem xs fpi n_pages f_start f_extent col b p f = Ok v ->
  v = t4_get xs b (fpi + p) (f_start + f) col.
Proof.
  unfold view_elem.
  destruct (in_range b (nbooks xs) && in_range p n_pages && in_range f f_extent);
    intros H; [injection H as <-; reflexivity | discriminate].
Qed.

Lemma nth_zeros (n : Index) (f : nat) : nth f (zeros n) 0%Q = 0%Q.
Proof. unfold zeros. apply nth_repeat. Qed.

Lemma zeros_length (n : Index) : length (zeros n) = Z.to_nat n.
Proof. unfold zeros. apply repeat_length. Qed.

Lemma interpweights1_Ok (n : Index) (tc : GridPosPoly) (itw : Vector) :
  interpweights1 n tc = Ok itw -> itw = w tc.
Proof.
  unfold interpweights1. intros H. apply bind_Ok_inv in H as (? & _ & H).
  injection H as <-. reflexivity.
Qed.

Lemma interpweights2_Ok (n : Index) (tr tc : GridPosPoly) (itw : Vector) :
  interpweights2 n tr tc = Ok itw ->
  itw = flat_map (fun wr => map (fun wc => (wr * wc)%Q) (w tc)) (w tr).
Proof.
  unfold interpweights2. intros H. apply bind_Ok_inv in H as (? & _ & H).
  injection H as <-. reflexivity.
Qed.

(** The four handlers: what is left in [res] for every frequency. *)
Lemma interpolate_species_Ok (self : GasAbsLookup)
  (t_interp_order h2o_interp_order f_start f_extent : Index)
  (tgp vgp : GridPosPoly) (lvl fpi do_VMR : Index) (res : Vector) :
  interpolate_species self t_interp_order h2o_interp_order f_start f_extent
                      tgp vgp lvl fpi do_VMR = Ok res ->
  length res = Z.to_nat f_extent
  /\ forall f, 0 <= f < f_extent ->
       nth (Z.to_nat f) res 0%Q
       = handler_value self t_interp_order h2o_interp_order tgp vgp lvl
                       (f_start + f) fpi do_VMR.
Proof.
  unfold interpolate_species, handler_value. intros H.
  destruct (nelem (t_pert self) =? 0); cbn [negb] in H;
    destruct (do_VMR =? 0); cbn [negb] in H.
  - (* no T, no VMR *)
    apply bind_Ok_inv in H as (? & _ & H).
    split; [rewrite (mapM_Ok_length _ _ _ H); apply upto_length|].
    intros f Hf. apply mapM_Ok_Forall2 in H.
    destruct (Forall2_nth_error _ _ _ H (Z.to_nat f) f) as (v & Hv & Hview).
    { rewrite nth_error_upto by lia. f_equal. lia. }
    apply view_elem_Ok in Hview. rewrite Z.add_0_r in Hview.
    rewrite (nth_error_nth _ _ _ Hv). exact Hview.
  - (* no T, with VMR *)
    apply bind_Ok_inv in H as (itw & Hitw & H).
    apply interpweights1_Ok in Hitw. subst itw.
    apply bind_Ok_inv in H as (? & _ & H).
    apply bind_Ok_inv in H as ([iti' res'] & Hloop & H). injection H as <-.
    apply (weighted_loop (w vgp)
             (fun c f => p <- elem (idx vgp) c ;;
                         view_elem (xsec self) fpi (nelem (nls_pert self))
                                   f_start f_extent lvl 0 p f)) in Hloop
      as (_ & Hlen & Hget).
    rewrite zeros_length in Hlen, Hget. split; [exact Hlen|].
    intros f Hf. destruct (Hget (Z.to_nat f) ltac:(lia)) as (vals & Hvals & Hres & _).
    rewrite Hres, nth_zeros. rewrite Z2Nat.id in Hvals by lia.
    unfold weighted_sum. cbn [Z.to_nat skipn]. do 2 f_equal.
    apply Forall2_eq_map with (2 := Hvals). intros c v _ Hc.
    apply bind_Ok_inv in Hc as (pg & Hpg & Hc).
    apply view_elem_Ok in Hc. rewrite (elem_nth _ _ _ 0 Hpg). exact Hc.
  - (* with T, no VMR *)
    apply bind_Ok_inv in H as (itw & Hitw & H).
    apply interpweights1_Ok in Hitw. subst itw.
    apply bind_Ok_inv in H as (? & _ & H).
    apply bind_Ok_inv in H as ([iti' res'] & Hloop & H). injection H as <-.
    apply (weighted_loop (w tgp)
             (fun r f => b <- elem (idx tgp) r ;;
                         view_elem (xsec self) fpi 1 f_start f_extent lvl
                                   b 0 f)) in Hloop
      as (_ & Hlen & Hget).
    rewrite zeros_length in Hlen, Hget. split; [exact Hlen|].
    intros f Hf. destruct (Hget (Z.to_nat f) ltac:(lia)) as (vals & Hvals & Hres & _).
    rewrite Hres, nth_zeros. rewrite Z2Nat.id in Hvals by lia.
    unfold weighted_sum. cbn [Z.to_nat skipn]. do 2 f_equal.
    apply Forall2_eq_map with (2 := Hvals). intros r v _ Hr.
    apply bind_Ok_inv in Hr as (b & Hb & Hr).
    apply view_elem_Ok in Hr. rewrite Z.add_0_r in Hr.
    rewrite (elem_nth _ _ _ 0 Hb). exact Hr.
  - (* with T and VMR *)
    apply bind_Ok_inv in H as (itw & Hitw & H).
    apply interpweights2_Ok in Hitw. subst itw.
    apply bind_Ok_inv in H as (? & _ & H).
    apply bind_Ok_inv in H as ([iti' res'] & Hloop & H). injection H as <-.
    rewrite foldM_nested in Hloop.
    rewrite (foldM_ext _
               (fun '(iti, res) rc =>
                  res' <- add_weighted
                            (flat_map (fun wr => map (fun wc => (wr * wc)%Q)
                                                     (w vgp)) (w tgp))
                            iti
                            (fun f => b <- elem (idx tgp) (fst rc) ;;
                                      p <- elem (idx vgp) (snd rc) ;;
                                      view_elem (xsec self) fpi
                                                (nelem (nls_pert self))
                                                f_start f_extent lvl b p f)
                            res ;;
                  Ok (iti + 1, res'))) in Hloop
      by (intros [iti res] rc; reflexivity).
    apply (weighted_loop
             (flat_map (fun wr => map (fun wc => (wr * wc)%Q) (w vgp)) (w tgp))
             (fun rc f => b <- elem (idx tgp) (fst rc) ;;
                          p <- elem (idx vgp) (snd rc) ;;
                          view_elem (xsec self) fpi (nelem (nls_pert self))
                                    f_start f_extent lvl b p f)) in Hloop
      as (_ & Hlen & Hget).
    rewrite zeros_length in Hlen, Hget. split; [exact Hlen|].
    intros f Hf. destruct (Hget (Z.to_nat f) ltac:(lia)) as (vals & Hvals & Hres & _).
    rewrite Hres, nth_zeros. rewrite Z2Nat.id in Hvals by lia.
    unfold weighted_sum. cbn [Z.to_nat skipn]. do 2 f_equal.
    apply Forall2_eq_map with (2 := Hvals). intros rc v _ Hrc.
    apply bind_Ok_inv in Hrc as (b & Hb & Hrc).
    apply bind_Ok_inv in Hrc as (pg & Hpg & Hrc).
    apply view_elem_Ok in Hrc.
    rewrite (elem_nth _ _ _ 0 Hb), (elem_nth _ _ _ 0 Hpg). exact Hrc.
Qed.

(** The loop over the species at one pressure level: [fpi] runs through the
    first pages, and every species gets the value of its handler. *)
Lemma species_loop_steps (self : GasAbsLookup)
  (t_interp_order h2o_interp_order f_start f_extent : Index)
  (non_linear : ArrayOfIndex) (tgp vgp : GridPosPoly) (lvl : Index) :
  forall (m : nat) (fpi : Index) (plane : list Vector),
    foldM (fun '(fpi, plane) si =>
             do_VMR <- elem non_linear si ;;
             res <- interpolate_species self t_interp_order h2o_interp_order
                      f_start f_extent tgp vgp lvl fpi do_VMR ;;
             Ok ((if negb (do_VMR =? 0)
                  then fpi + nelem (nls_pert self) else fpi + 1),
                 plane ++ [res]))
          (upto (Z.of_nat m)) (0, []) = Ok (fpi, plane) ->
    (m <= length non_linear)%nat
    /\ fpi = pages_upto non_linear (nelem (nls_pert self)) m
    /\ length plane = m
    /\ forall si, (si < m)%nat ->
         forall f, 0 <= f < f_extent ->
           nth (Z.to_nat f) (nth si plane []) 0%Q
           = handler_value self t_interp_order h2o_interp_order tgp vgp lvl
               (f_start + f)
               (pages_upto non_linear (nelem (nls_pert self)) si)
               (nth si non_linear 0).
Proof.
  induction m as [|m IH]; intros fpi plane H.
  - cbn in H. injection H as <- <-.
    split; [lia|]. split; [reflexivity|]. split; [reflexivity|].
    intros si Hsi. lia.
  - rewrite Nat2Z.inj_succ, <- Z.add_1_r, upto_succ in H by lia.
    apply foldM_snoc_Ok in H as ([fpi0 plane0] & Hrun & Hstep).
    destruct (IH _ _ Hrun) as (Hm & Hfpi & Hlen & Hget).
    apply bind_Ok_inv in Hstep as (do_VMR & Hdo & Hstep).
    apply bind_Ok_inv in Hstep as (res & Hres & Hstep).
    injection Hstep as <- <-.
    assert (Hlt : (m < length non_linear)%nat).
    { apply elem_Ok_in_range in Hdo. unfold nelem in Hdo. lia. }
    assert (Hflag : nth m non_linear 0 = do_VMR).
    { rewrite <- (Nat2Z.id m). exact (elem_nth _ _ _ 0 Hdo). }
    split; [lia|]. split.
    { rewrite pages_upto_succ by exact Hlt. rewrite Hflag, <- Hfpi.
      unfold advance. destruct (do_VMR =? 0); reflexivity. }
    split; [rewrite length_app; simpl; lia|].
    intros si Hsi f Hf.
    destruct (Nat.eq_dec si m) as [->|Hne].
    + rewrite app_nth2 by lia. rewrite Hlen, Nat.sub_diag. cbn [nth].
      rewrite Hflag, <- Hfpi.
      exact (proj2 (interpolate_species_Ok _ _ _ _ _ _ _ _ _ _ _ Hres) f Hf).
    + rewrite app_nth1 by lia. apply Hget; [lia | exact Hf].
Qed.

Lemma first_page_pages_upto (self : GasAbsLookup) (non_linear : ArrayOfIndex)
  (si : nat) :
  flags_of (nelem (species self)) (nonlinear_species self) non_linear ->
  (si <= length non_linear)%nat ->
  pages_upto non_linear (nelem (nls_pert self)) si
  = first_page self (Z.of_nat si).
Proof.
  intros Hflags Hsi. unfold first_page.
  exact (pages_upto_sum _ _ _ _ Hflags si Hsi).
Qed.

Lemma species_loop_Ok (self : GasAbsLookup)
  (t_interp_order h2o_interp_order f_start f_extent : Index)
  (non_linear : ArrayOfIndex) (tgp vgp : GridPosPoly) (lvl : Index)
  (plane : list Vector) :
  flags_of (nelem (species self)) (nonlinear_species self) non_linear ->
  species_loop self t_interp_order h2o_interp_order f_start f_extent
               non_linear tgp vgp lvl = Ok plane ->
  forall si f, 0 <= si < nelem (species self) -> 0 <= f < f_extent ->
    nth (Z.to_nat f) (nth (Z.to_nat si) plane []) 0%Q
    = interpolated self t_interp_order h2o_interp_order tgp vgp lvl
                   (f_start + f) si.
Proof.
  intros Hflags H si f Hsi Hf. unfold species_loop in H.
  apply bind_Ok_inv in H as ([fpi plane'] & Hloop & H).
  apply bind_Ok_inv in H as (? & _ & H). injection H as <-.
  unfold nelem in Hloop at 2.
  destruct (species_loop_steps _ _ _ _ _ _ _ _ _ _ _ _ Hloop)
    as (Hm & _ & _ & Hget).
  rewrite (Hget (Z.to_nat si) ltac:(zlia) f Hf).
  unfold interpolated.
  rewrite (first_page_pages_upto self non_linear (Z.to_nat si) Hflags)
    by zlia.
  rewrite Z2Nat.id by lia.
  rewrite (proj2 Hflags si Hsi). reflexivity.
Qed.

Lemma Forall2_split_exists {A B C} (P : A -> C -> Prop) (Q : C -> B -> Prop)
  (la : list A) (lb : list B) :
  Forall2 (fun a b => exists c, P a c /\ Q c b) la lb ->
  exists lc, Forall2 P la lc /\ Forall2 Q lc lb.
Proof.
  induction 1 as [|a b la lb (c & Hp & Hq) _ (lc & IHp & IHq)].
  - exists []. split; constructor.
  - exists (c :: lc). split; constructor; assumption.
Qed.

Lemma pressure_sum_planes (g : LevelPositions -> Numeric)
  (f si : Index) (gps : list (LevelPositions))
  (pre : list (list Vector)) :
  Forall2 (fun gp plane =>
             nth (Z.to_nat f) (nth (Z.to_nat si) plane []) 0%Q = g gp)
          gps pre ->
  forall (pitw : Vector) (acc : Numeric),
    fold_left (fun acc '(plane, wgt) =>
                 (acc + nth (Z.to_nat f) (nth (Z.to_nat si) plane []) 0 * wgt)%Q)
              (combine pre pitw) acc
    = fold_left (fun acc '(v, wgt) => (acc + v * wgt)%Q)
                (combine (map g gps) pitw) acc.
Proof.
  induction 1 as [|gp plane gps pre Hgp _ IH]; intros pitw acc; [reflexivity|].
  destruct pitw as [|wgt pitw]; [reflexivity|].
  cbn [map combine fold_left]. rewrite Hgp. apply IH.
Qed.

Section ExtractResult.

Variable ext : Externals.

Lemma level_Ok (self : GasAbsLookup)
  (t_interp_order h2o_interp_order f_start f_extent h2o_index : Index)
  (T : Numeric) (abs_vmrs : Vector) (non_linear : ArrayOfIndex)
  (pgp : GridPosPoly) (pi : Index) (plane : list Vector) :
  flags_of (nelem (species self)) (nonlinear_species self) non_linear ->
  level ext self t_interp_order h2o_interp_order f_start f_extent h2o_index
        T abs_vmrs non_linear pgp pi = Ok plane ->
  exists gp : LevelPositions,
    (elem (idx pgp) pi = Ok (lp_level gp)
     /\ temperature_position ext self t_interp_order T (lp_level gp)
        = Ok (lp_tgp gp)
     /\ humidity_position ext self h2o_interp_order h2o_index abs_vmrs
                          (lp_level gp) = Ok (lp_vgp gp))
    /\ forall si f, 0 <= si < nelem (species self) -> 0 <= f < f_extent ->
         nth (Z.to_nat f) (nth (Z.to_nat si) plane []) 0%Q
         = interpolated self t_interp_order h2o_interp_order
                        (lp_tgp gp) (lp_vgp gp) (lp_level gp)
                        (f_start + f) si.
Proof.
  intros Hflags H. unfold level in H.
  apply bind_Ok_inv in H as (lvl & Hlvl & H).
  apply bind_Ok_inv in H as (tgp & Htgp & H).
  apply bind_Ok_inv in H as (vgp & Hvgp & H).
  exists {| lp_level := lvl; lp_tgp := tgp; lp_vgp := vgp |}.
  cbn [lp_level lp_tgp lp_vgp].
  split; [auto|]. exact (species_loop_Ok _ _ _ _ _ _ _ _ _ _ Hflags H).
Qed.

(** The result of Extract, element by element. *)
Lemma Extract_Ok_spec (self : GasAbsLookup)
  (p_interp_order t_interp_order h2o_interp_order f_index : Index)
  (p T : Numeric) (abs_vmrs : Vector) (sga : Matrix) :
  Extract ext self p_interp_order t_interp_order h2o_interp_order f_index
          p T abs_vmrs = Ok sga ->
  exists h2o_index pgp (gps : list (LevelPositions)),
    Extract_checks ext self p_interp_order t_interp_order h2o_interp_order
                   abs_vmrs = Ok h2o_index
    /\ gridpos_poly ext (log_p_grid self) (log ext p) p_interp_order = Ok pgp
    /\ Forall2 (fun pi gp =>
                  elem (idx pgp) pi = Ok (lp_level gp)
                  /\ temperature_position ext self t_interp_order T
                                          (lp_level gp) = Ok (lp_tgp gp)
                  /\ humidity_position ext self h2o_interp_order h2o_index
                                       abs_vmrs (lp_level gp) = Ok (lp_vgp gp))
               (upto (p_interp_order + 1)) gps
    /\ m_nrows sga = (if f_index <? 0 then nelem (f_grid self) else 1)
    /\ f_index < nelem (f_grid self)
    /\ m_ncols sga = nelem (species self)
    /\ forall f si, 0 <= f < m_nrows sga -> 0 <= si < m_ncols sga ->
         m_get sga f si
         = (pressure_sum
              (map (fun gp =>
                      interpolated self t_interp_order h2o_interp_order
                                   (lp_tgp gp) (lp_vgp gp) (lp_level gp)
                                   ((if f_index <? 0 then 0 else f_index) + f)
                                   si) gps)
              (w pgp)
            * (number_density ext p T * nth (Z.to_nat si) abs_vmrs 0))%Q.
Proof.
  intros H. unfold Extract in H.
  apply bind_Ok_inv in H as (h2o_index & Hchecks & H).
  apply bind_Ok_inv in H as ([f_start f_extent] & Hrange & H).
  apply bind_Ok_inv in H as (non_linear & Hflags & H).
  apply bind_Ok_inv in H as ([] & _ & H).
  apply bind_Ok_inv in H as (pgp & Hpgp & H).
  apply bind_Ok_inv in H as (pitw & Hpitw & H).
  apply bind_Ok_inv in H as (pre & Hpre & H). injection H as <-.
  apply interpweights1_Ok in Hpitw. subst pitw.
  apply flag_nonlinear_spec in Hflags as [Hflags _]; [|apply nelem_nonneg].
  assert (Hstart : f_start = (if f_index <? 0 then 0 else f_index)
                   /\ f_extent = (if f_index <? 0 then nelem (f_grid self)
                                  else 1)
                   /\ f_index < nelem (f_grid self)).
  { unfold frequency_range in Hrange.
    pose proof (nelem_nonneg (f_grid self)).
    destruct (Z.ltb_spec f_index 0).
    - injection Hrange as <- <-. repeat split; lia.
    - apply bind_Ok_inv in Hrange as (? & Hthrow & Hrange).
      injection Hrange as <- <-. apply throw_if_Ok in Hthrow.
      apply Z.leb_gt in Hthrow. repeat split; lia. }
  destruct Hstart as (Hstart & Hextent & Hbelow).
  apply mapM_Ok_Forall2 in Hpre.
  assert (Hlevels :
            Forall2 (fun pi plane =>
                       exists gp : LevelPositions,
                         (elem (idx pgp) pi = Ok (lp_level gp)
                          /\ temperature_position ext self t_interp_order T
                               (lp_level gp) = Ok (lp_tgp gp)
                          /\ humidity_position ext self h2o_interp_order
                               h2o_index abs_vmrs (lp_level gp) = Ok (lp_vgp gp))
                         /\ forall si f,
                              0 <= si < nelem (species self) ->
                              0 <= f < f_extent ->
                              nth (Z.to_nat f) (nth (Z.to_nat si) plane []) 0%Q
                              = interpolated self t_interp_order
                                  h2o_interp_order (lp_tgp gp) (lp_vgp gp)
                                  (lp_level gp) (f_start + f) si)
                    (upto (p_interp_order + 1)) pre).
  { revert Hpre. apply Forall2_impl. intros pi plane Hlevel.
    exact (level_Ok _ _ _ _ _ _ _ _ _ _ _ _ Hflags Hlevel). }
  apply Forall2_split_exists in Hlevels as (gps & Hgps & Hvals).
  exists h2o_index, pgp, gps.
  split; [exact Hchecks|]. split; [exact Hpgp|]. split; [exact Hgps|].
  cbn [m_nrows m_ncols m_get]. split; [exact Hextent|].
  split; [exact Hbelow|]. split; [reflexivity|].
  intros f si Hf Hsi. unfold sga_elem, pressure_sum. f_equal.
  rewrite <- Hstart.
  apply (pressure_sum_planes
           (fun gp => interpolated self t_interp_order h2o_interp_order
                        (lp_tgp gp) (lp_vgp gp) (lp_level gp)
                        (f_start + f) si)).
  revert Hvals. apply Forall2_impl. intros gp plane Hval.
  exact (Hval si f Hsi Hf).
Qed.

(** Extract, element by element.  With the grid position [pgp] found for
    [log(p)] and, at each of the [p_interp_order + 1] pressure levels it
    names, the temperature and humidity positions found there, the entry of
    [sga] for frequency [f] and species [si] is the sum over these levels of
    the value interpolated in temperature and humidity at the level, times
    the pressure weight of the level, and the sum is multiplied by the
    number density and by the VMR of the species.  The interpolated value is
    the coefficient itself for a table without perturbations, and otherwise
    the weighted sum of the coefficients at the grid positions, over the
    books for temperature and over the pages of the species, from its first
    page on, for humidity. *)
Theorem Extract_interpolates (self : GasAbsLookup)
  (p_interp_order t_interp_order h2o_interp_order f_index : Index)
  (p T : Numeric) (abs_vmrs : Vector) (sga : Matrix) :
  Extract ext self p_interp_order t_interp_order h2o_interp_order f_index
          p T abs_vmrs = Ok sga ->
  exists h2o_index pgp (gps : list LevelPositions),
    Extract_checks ext self p_interp_order t_interp_order h2o_interp_order
                   abs_vmrs = Ok h2o_index
    /\ gridpos_poly ext (log_p_grid self) (log ext p) p_interp_order = Ok pgp
    /\ Forall2 (fun pi gp =>
                  elem (idx pgp) pi = Ok (lp_level gp)
                  /\ temperature_position ext self t_interp_order T
                                          (lp_level gp) = Ok (lp_tgp gp)
                  /\ humidity_position ext self h2o_interp_order h2o_index
                                       abs_vmrs (lp_level gp) = Ok (lp_vgp gp))
               (upto (p_interp_order + 1)) gps
    /\ m_ncols sga = nelem (species self)
    /\ forall f si, 0 <= f < m_nrows sga -> 0 <= si < m_ncols sga ->
         m_get sga f si
         = (pressure_sum
              (map (fun gp =>
                      interpolated self t_interp_order h2o_interp_order
                                   (lp_tgp gp) (lp_vgp gp) (lp_level gp)
                                   ((if f_index <? 0 then 0 else f_index) + f)
                                   si) gps)
              (w pgp)
            * (number_density ext p T * nth (Z.to_nat si) abs_vmrs 0))%Q.
Proof.
  intros H.
  destruct (Extract_Ok_spec self _ _ _ _ _ _ _ sga H)
    as (h2o_index & pgp & gps & Hchecks & Hpgp & Hgps & _ & _ & Hcols & Hget).
  exists h2o_index, pgp, gps. auto.
Qed.

Lemma first_page_without_nonlinear (self : GasAbsLookup) (si : Index) :
  nonlinear_species self = [] -> 0 <= si -> first_page self si = si.
Proof.
  intros E Hsi. unfold first_page, pages_of. rewrite E. cbn [existsb].
  rewrite <- (Z2Nat.id si) by exact Hsi.
  induction (Z.to_nat si) as [|m IH]; [reflexivity|].
  rewrite Nat2Z.inj_succ, <- Z.add_1_r, upto_succ by lia.
  rewrite map_app, fold_left_app, IH. reflexivity.
Qed.

Lemma Forall2_map_eq {A B C} (R : A -> B -> Prop) (g1 : A -> C) (g2 : B -> C)
  (la : list A) (lb : list B) :
  (forall a b, R a b -> g1 a = g2 b) -> Forall2 R la lb ->
  map g1 la = map g2 lb.
Proof.
  intros Hg. induction 1 as [|a b la lb Hab _ IH]; [reflexivity|].
  cbn [map]. rewrite (Hg a b Hab), IH. reflexivity.
Qed.

(** Extract on a table without temperature perturbations and without
    nonlinear species: the entry of [sga] for frequency [f] and species
    [si] is the pressure interpolation of the stored coefficients of the
    species at that frequency, over the pressure levels and with the
    weights of the grid position found for [log(p)], times the number
    density and the VMR of the species. *)
Theorem Extract_without_perturbations (self : GasAbsLookup)
  (p_interp_order t_interp_order h2o_interp_order f_index : Index)
  (p T : Numeric) (abs_vmrs : Vector) (sga : Matrix) :
  t_pert self = [] ->
  nonlinear_species self = [] ->
  Extract ext self p_interp_order t_interp_order h2o_interp_order f_index
          p T abs_vmrs = Ok sga ->
  exists pgp,
    gridpos_poly ext (log_p_grid self) (log ext p) p_interp_order = Ok pgp
    /\ m_ncols sga = nelem (species self)
    /\ forall f si, 0 <= f < m_nrows sga -> 0 <= si < m_ncols sga ->
         m_get sga f si
         = (pressure_sum
              (map (fun pi =>
                      t4_get (xsec self) 0 si
                             ((if f_index <? 0 then 0 else f_index) + f)
                             (nth (Z.to_nat pi) (idx pgp) 0%Z))
                   (upto (p_interp_order + 1)))
              (w pgp)
            * (number_density ext p T * nth (Z.to_nat si) abs_vmrs 0))%Q.
Proof.
  intros Htp Hnls H.
  destruct (Extract_Ok_spec self _ _ _ _ _ _ _ sga H)
    as (h2o_index & pgp & gps & _ & Hpgp & Hgps & _ & _ & Hcols & Hget).
  exists pgp. split; [exact Hpgp|]. split; [exact Hcols|].
  intros f si Hf Hsi. rewrite (Hget f si Hf Hsi). do 2 f_equal.
  symmetry. apply Forall2_map_eq with (2 := Hgps).
  intros pi gp (Hlvl & _ & _).
  unfold interpolated, handler_value. rewrite Htp, Hnls.
  cbn [nelem length Z.of_nat Z.eqb is_nonlinear existsb].
  rewrite (first_page_without_nonlinear self si Hnls) by lia.
  rewrite (elem_nth _ _ _ 0 Hlvl). reflexivity.
Qed.

Lemma Forall2_functional {A B} (R : A -> B -> Prop) (l : list A)
  (l1 l2 : list B) :
  (forall a b b', R a b -> R a b' -> b = b') ->
  Forall2 R l l1 -> Forall2 R l l2 -> l1 = l2.
Proof.
  intros Hfun H1. revert l2.
  induction H1 as [|a b l l1 Hab _ IH]; intros l2 H2; inversion H2; subst;
    [reflexivity|].
  f_equal; [eapply Hfun; eassumption | apply IH; assumption].
Qed.

Lemma LevelPositions_eq (gp gp' : LevelPositions) :
  lp_level gp = lp_level gp' -> lp_tgp gp = lp_tgp gp' ->
  lp_vgp gp = lp_vgp gp' -> gp = gp'.
Proof. destruct gp, gp'. cbn. intros -> -> ->. reflexivity. Qed.


End ExtractResult.

(** ** Extract before and after Adapt *)

Lemma weighted_sum_ext (itw : Vector) {A} (g1 g2 : A -> Numeric) (l : list A) :
  (forall a, g1 a = g2 a) ->
  weighted_sum itw (map g1 l) = weighted_sum itw (map g2 l).
Proof.
  intros H. rewrite (map_ext g1 g2 H). reflexivity.
Qed.

Section ExtractBeforeAndAfter.

Variable ext : Externals.


End ExtractBeforeAndAfter.

(** ** The array accesses of Extract *)

Lemma mapM_Fault_inv {A B} (f : A -> result B) (l : list A) :
  mapM f l = Fault -> exists a, In a l /\ f a = Fault.
Proof.
  induction l as [|a l IH]; simpl; intros H; [discriminate|].
  apply bind_Fault_inv in H as [H | [b [_ H]]]; [eauto|].
  apply bind_Fault_inv in H as [H | [bs [_ H]]]; [|discriminate].
  destruct (IH H) as [a' [Hin Ha']]. eauto.
Qed.

(** A loop that stops on a fault has run some iterations and stops in the
    next one. *)
Lemma foldM_Fault_inv {A S} (f : S -> A -> result S) (l : list A) (s : S) :
  foldM f l s = Fault ->
  exists l1 a l2 s',
    l = l1 ++ a :: l2 /\ foldM f l1 s = Ok s' /\ f s' a = Fault.
Proof.
  revert s. induction l as [|a l IH]; simpl; intros s H; [discriminate|].
  apply bind_Fault_inv in H as [H | [s1 [Hs1 H]]].
  - exists [], a, l, s. auto.
  - destruct (IH _ H) as (l1 & a' & l2 & s' & -> & Hrun & Hstep).
    exists (a :: l1), a', l2, s'. split; [reflexivity|].
    split; [cbn [foldM]; rewrite Hs1; exact Hrun | exact Hstep].
Qed.

Lemma upto_prefix (n : Index) (l1 l2 : ArrayOfIndex) (a : Index) :
  upto n = l1 ++ a :: l2 ->
  l1 = upto (Z.of_nat (length l1)) /\ a = Z.of_nat (length l1) /\ 0 <= a < n.
Proof.
  intros H.
  assert (Hlen : (length l1 < Z.to_nat n)%nat).
  { rewrite <- (upto_length n), H, length_app. simpl. lia. }
  assert (Ha : a = Z.of_nat (length l1)).
  { pose proof (nth_error_upto n (length l1) Hlen) as Hn.
    rewrite H, nth_error_app2, Nat.sub_diag in Hn by lia.
    cbn in Hn. congruence. }
  split; [|split; [exact Ha | lia]].
  apply (nth_ext _ _ 0 0).
  - rewrite upto_length. lia.
  - intros k Hk.
    pose proof (nth_error_upto n k ltac:(lia)) as Hn.
    rewrite H, nth_error_app1 in Hn by exact Hk.
    rewrite (nth_error_nth _ _ 0 Hn).
    symmetry. apply nth_error_nth, nth_error_upto. lia.
Qed.

Lemma find_first_from_range (tgs : ArrayOfArrayOfSpeciesTag) (spec : Index) :
  forall i0, find_first_from tgs spec i0 = -1
             \/ i0 <= find_first_from tgs spec i0 < i0 + nelem tgs.
Proof.
  induction tgs as [|g tgs IH]; intros i0; [left; reflexivity|].
  cbn [find_first_from].
  assert (Hn : nelem (g :: tgs) = nelem tgs + 1) by (unfold nelem; simpl; lia).
  pose proof (nelem_nonneg tgs).
  destruct g as [|t g].
  - destruct (IH (i0 + 1)) as [E|E]; [left; exact E | right; lia].
  - destruct (Species t =? spec); [right; lia|].
    destruct (IH (i0 + 1)) as [E|E]; [left; exact E | right; lia].
Qed.

Lemma frequency_range_Ok (n_f_grid f_index f_start f_extent : Index) :
  0 <= n_f_grid ->
  frequency_range n_f_grid f_index = Ok (f_start, f_extent) ->
  0 <= f_start /\ 0 <= f_extent /\ f_start + f_extent <= n_f_grid.
Proof.
  intros Hn H. unfold frequency_range in H.
  destruct (Z.ltb_spec f_index 0).
  - injection H as <- <-. lia.
  - apply bind_Ok_inv in H as (? & Hthrow & H). injection H as <- <-.
    apply throw_if_Ok, Z.leb_gt in Hthrow. lia.
Qed.

Lemma frequency_range_not_Fault (n_f_grid f_index : Index) :
  frequency_range n_f_grid f_index <> Fault.
Proof.
  unfold frequency_range. destruct (f_index <? 0); [discriminate|].
  destruct (n_f_grid <=? f_index); discriminate.
Qed.

Lemma throw_if_not_Fault (c : bool) (e : Error) : throw_if c e <> Fault.
Proof. destruct c; discriminate. Qed.

(** A loop of passes [res[f] += itw[iti] * col(f)] stays inside [itw] and
    [res]; it can stop on a fault only where [col] does. *)
Lemma weighted_loop_not_Fault {A} (itw : Vector)
  (col : A -> Index -> result Numeric) (l : list A) (f_extent : Index) :
  nelem l <= nelem itw ->
  (forall a f, In a l -> 0 <= f < f_extent -> col a f <> Fault) ->
  foldM (fun '(iti, res) a =>
           res' <- add_weighted itw iti (col a) res ;;
           Ok (iti + 1, res')) l (0, zeros f_extent) <> Fault.
Proof.
  intros Hlen Hcol HF.
  apply foldM_Fault_inv in HF as (l1 & a & l2 & [iti res] & -> & Hrun & Hstep).
  apply weighted_loop in Hrun as (Hiti & Hres & _).
  rewrite zeros_length in Hres.
  apply bind_Fault_inv in Hstep as [Hstep | (? & _ & Hstep)]; [|discriminate].
  unfold add_weighted in Hstep.
  apply mapM_Fault_inv in Hstep as ([f r] & Hin & Hstep).
  apply in_combine_l, upto_In in Hin.
  assert (Hf : 0 <= f < f_extent) by zlia.
  apply bind_Fault_inv in Hstep as [Hstep | (wgt & _ & Hstep)].
  - destruct (elem_in_range itw iti) as [wgt Hw]; [|congruence].
    unfold nelem in *. rewrite length_app in Hlen. simpl in Hlen. lia.
  - apply bind_Fault_inv in Hstep as [Hstep | (? & _ & Hstep)];
      [|discriminate].
    apply (Hcol a f); [apply in_or_app; right; left; reflexivity | exact Hf
                      | exact Hstep].
Qed.

Lemma view_elem_not_Fault (xs : Tensor4)
  (fpi n_pages f_start f_extent col b p f : Index) :
  0 <= b < nbooks xs -> 0 <= p < n_pages -> 0 <= f < f_extent ->
  view_elem xs fpi n_pages f_start f_extent col b p f <> Fault.
Proof.
  intros Hb Hp Hf. unfold view_elem.
  replace (in_range b (nbooks xs) && in_range p n_pages && in_range f f_extent)
    with true; [discriminate|].
  symmetry. rewrite !andb_true_iff, !in_range_true. auto.
Qed.

Lemma elem_not_Fault {A} (l : list A) (i : Index) :
  0 <= i < nelem l -> elem l i <> Fault.
Proof. intros Hi. destruct (elem_in_range l i Hi) as [a ->]. discriminate. Qed.

Lemma assert_true_bind {B} (c : bool) (k : unit -> result B) :
  c = true -> bind (assert c) k = k tt.
Proof. intros ->. reflexivity. Qed.

Lemma Forall_elem (P : Index -> Prop) (l : ArrayOfIndex) (i a : Index) :
  Forall P l -> elem l i = Ok a -> P a.
Proof.
  intros Hall Ha. rewrite Forall_forall in Hall.
  exact (Hall a (elem_Ok_In _ _ _ Ha)).
Qed.

(** The four handlers keep inside the arrays, for grid positions of the
    orders asked for and a view that fits the tensor. *)
Lemma interpolate_species_not_Fault (self : GasAbsLookup)
  (t_interp_order h2o_interp_order f_start f_extent : Index)
  (tgp vgp : GridPosPoly) (lvl fpi do_VMR : Index) :
  nbooks (xsec self)
  = (if 0 =? nelem (t_pert self) then 1 else nelem (t_pert self)) ->
  0 <= fpi ->
  fpi + (if do_VMR =? 0 then 1 else nelem (nls_pert self))
  <= npages (xsec self) ->
  0 <= f_start -> 0 <= f_extent -> f_start + f_extent <= nrows (xsec self) ->
  0 <= lvl < ncols (xsec self) ->
  0 <= t_interp_order -> 0 <= h2o_interp_order ->
  (nelem (t_pert self) <> 0 ->
   positions_in tgp t_interp_order (nelem (t_pert self))) ->
  (do_VMR <> 0 -> positions_in vgp h2o_interp_order (nelem (nls_pert self))) ->
  interpolate_species self t_interp_order h2o_interp_order f_start f_extent
                      tgp vgp lvl fpi do_VMR <> Fault.
Proof.
  intros Hbooks Hfpi Hfit Hfs Hfe Hff Hlvl Hto Hho Htgp Hvgp.
  unfold interpolate_species.
  pose proof (nelem_nonneg (nls_pert self)) as Hnp.
  destruct (Z.eqb_spec (nelem (t_pert self)) 0) as [Ht|Ht];
    destruct (Z.eqb_spec do_VMR 0) as [Hv|Hv]; cbn [negb].
  - (* no T, no VMR *)
    replace (0 =? nelem (t_pert self)) with true in Hbooks
      by (symmetry; apply Z.eqb_eq; lia).
    rewrite assert_true_bind.
    2:{ unfold view_fits.
        rewrite !andb_true_iff, !range_fits_true, !in_range_true. lia. }
    intros HF. apply mapM_Fault_inv in HF as (f & Hf & HF).
    apply upto_In in Hf. revert HF. apply view_elem_not_Fault; lia.
  - (* no T, with VMR *)
    replace (0 =? nelem (t_pert self)) with true in Hbooks
      by (symmetry; apply Z.eqb_eq; lia).
    destruct (Hvgp Hv) as (Hidx & Hw & Hin).
    unfold interpweights1. rewrite assert_true_bind
      by (rewrite andb_true_iff, Z.leb_le, Z.eqb_eq; lia).
    cbn [bind]. rewrite assert_true_bind.
    2:{ unfold view_fits.
        rewrite !andb_true_iff, !range_fits_true, !in_range_true. lia. }
    intros HF. apply bind_Fault_inv in HF as [HF | ([? ?] & _ & HF)];
      [|discriminate].
    revert HF. apply weighted_loop_not_Fault.
    + rewrite nelem_upto by lia. lia.
    + intros c f Hc Hf HF. apply upto_In in Hc.
      apply bind_Fault_inv in HF as [HF | (pg & Hpg & HF)].
      * revert HF. apply elem_not_Fault. lia.
      * revert HF. apply view_elem_not_Fault; [lia | | exact Hf].
        exact (Forall_elem _ _ _ _ Hin Hpg).
  - (* with T, no VMR *)
    replace (0 =? nelem (t_pert self)) with false in Hbooks
      by (symmetry; apply Z.eqb_neq; lia).
    pose proof (nelem_nonneg (t_pert self)).
    destruct (Htgp Ht) as (Hidx & Hw & Hin).
    unfold interpweights1. rewrite assert_true_bind
      by (rewrite andb_true_iff, Z.leb_le, Z.eqb_eq; lia).
    cbn [bind]. rewrite assert_true_bind.
    2:{ unfold view_fits.
        rewrite !andb_true_iff, !range_fits_true, !in_range_true. lia. }
    intros HF. apply bind_Fault_inv in HF as [HF | ([? ?] & _ & HF)];
      [|discriminate].
    revert HF. apply weighted_loop_not_Fault.
    + rewrite nelem_upto by lia. lia.
    + intros r f Hr Hf HF. apply upto_In in Hr.
      apply bind_Fault_inv in HF as [HF | (b & Hb & HF)].
      * revert HF. apply elem_not_Fault. lia.
      * revert HF. apply view_elem_not_Fault; [|lia | exact Hf].
        rewrite Hbooks. exact (Forall_elem _ _ _ _ Hin Hb).
  - (* with T and VMR *)
    replace (0 =? nelem (t_pert self)) with false in Hbooks
      by (symmetry; apply Z.eqb_neq; lia).
    pose proof (nelem_nonneg (t_pert self)).
    destruct (Htgp Ht) as (Hidx & Hw & Hin).
    destruct (Hvgp Hv) as (Hidx' & Hw' & Hin').
    unfold interpweights2. rewrite assert_true_bind
      by (rewrite andb_true_iff, Z.leb_le, Z.eqb_eq, Hw, Hw'; nia).
    cbn [bind]. rewrite assert_true_bind.
    2:{ unfold view_fits.
        rewrite !andb_true_iff, !range_fits_true, !in_range_true. lia. }
    intros HF. apply bind_Fault_inv in HF as [HF | ([? ?] & _ & HF)];
      [|discriminate].
    rewrite foldM_nested in HF.
    rewrite (foldM_ext _
               (fun '(iti, res) rc =>
                  res' <- add_weighted
                            (flat_map (fun wr => map (fun wc => (wr * wc)%Q)
                                                     (w vgp)) (w tgp))
                            iti
                            (fun f => b <- elem (idx tgp) (fst rc) ;;
                                      p <- elem (idx vgp) (snd rc) ;;
                                      view_elem (xsec self) fpi
                                                (nelem (nls_pert self))
                                                f_start f_extent lvl b p f)
                            res ;;
                  Ok (iti + 1, res'))) in HF
      by (intros [iti res] rc; reflexivity).
    revert HF. apply weighted_loop_not_Fault.
    + unfold nelem. rewrite length_prod, !upto_length.
      rewrite (flat_map_constant_length (c := length (w vgp)))
        by (intros; apply length_map).
      unfold nelem in Hw, Hw'. nia.
    + intros [r c] f Hrc Hf HF. apply in_prod_iff in Hrc as [Hr Hc].
      apply upto_In in Hr, Hc. cbn [fst snd] in HF.
      apply bind_Fault_inv in HF as [HF | (b & Hb & HF)];
        [revert HF; apply elem_not_Fault; lia|].
      apply bind_Fault_inv in HF as [HF | (pg & Hpg & HF)];
        [revert HF; apply elem_not_Fault; lia|].
      revert HF. apply view_elem_not_Fault; [| | exact Hf].
      * rewrite Hbooks. exact (Forall_elem _ _ _ _ Hin Hb).
      * exact (Forall_elem _ _ _ _ Hin' Hpg).
Qed.

Lemma table_consistent_pages (self : GasAbsLookup) (non_linear : ArrayOfIndex) :
  table_consistent self ->
  flags_of (nelem (species self)) (nonlinear_species self) non_linear ->
  npages (xsec self)
  = nelem non_linear + count_set non_linear * (nelem (nls_pert self) - 1).
Proof.
  intros (Huniq & Hrange & _ & _ & Hxs) Hflags.
  apply is_size4_true in Hxs as (_ & Hp & _ & _).
  rewrite Hp, (count_set_flags _ _ _ Hflags Huniq Hrange).
  rewrite (proj1 Hflags). reflexivity.
Qed.

(** The loop over the species keeps inside the arrays, and [fpi] reaches
    the number of pages of [xsec]. *)
Lemma species_loop_not_Fault (self : GasAbsLookup)
  (t_interp_order h2o_interp_order f_start f_extent : Index)
  (non_linear : ArrayOfIndex) (tgp vgp : GridPosPoly) (lvl : Index) :
  table_consistent self ->
  flags_of (nelem (species self)) (nonlinear_species self) non_linear ->
  0 <= f_start -> 0 <= f_extent ->
  f_start + f_extent <= nelem (f_grid self) ->
  0 <= lvl < nelem (p_grid self) ->
  0 <= t_interp_order -> 0 <= h2o_interp_order ->
  (nelem (t_pert self) <> 0 ->
   positions_in tgp t_interp_order (nelem (t_pert self))) ->
  (nonlinear_species self <> [] ->
   positions_in vgp h2o_interp_order (nelem (nls_pert self))) ->
  species_loop self t_interp_order h2o_interp_order f_start f_extent
               non_linear tgp vgp lvl <> Fault.
Proof.
  intros Hcons Hflags Hfs Hfe Hff Hlvl Hto Hho Htgp Hvgp.
  pose proof (table_consistent_pages self non_linear Hcons Hflags) as Hpages.
  destruct Hcons as (Huniq & Hrange & _ & _ & Hxs).
  apply is_size4_true in Hxs as (Hbooks & _ & Hrows & Hcols).
  pose proof (nelem_nonneg (nls_pert self)) as Hnp.
  assert (Hlen : nelem non_linear = nelem (species self)) by exact (proj1 Hflags).
  unfold species_loop. intros HF.
  apply bind_Fault_inv in HF as [HF | ([fpi plane] & Hrun & HF)].
  - apply foldM_Fault_inv in HF as (l1 & a & l2 & [fpi plane] & Hl & Hrun & Hstep).
    apply upto_prefix in Hl as (Hl1 & Ha & Hrange_a).
    rewrite Hl1 in Hrun.
    apply species_loop_steps in Hrun as (Hm & Hfpi & _).
    apply bind_Fault_inv in Hstep as [Hstep | (do_VMR & Hdo & Hstep)];
      [revert Hstep; apply elem_not_Fault; lia|].
    apply bind_Fault_inv in Hstep as [Hstep | (? & _ & Hstep)];
      [|discriminate].
    revert Hstep. subst a.
    assert (Hflag : nth (length l1) non_linear 0 = do_VMR).
    { rewrite <- (Nat2Z.id (length l1)). exact (elem_nth _ _ _ 0 Hdo). }
    assert (Hlt : (length l1 < length non_linear)%nat) by zlia.
    apply interpolate_species_not_Fault; try assumption; try lia.
    + rewrite Hfpi. now apply pages_upto_nonneg.
    + rewrite Hpages, Hfpi.
      replace (pages_upto non_linear (nelem (nls_pert self)) (length l1)
               + (if do_VMR =? 0 then 1 else nelem (nls_pert self)))
        with (pages_upto non_linear (nelem (nls_pert self)) (S (length l1))).
      * now apply pages_upto_le_total.
      * rewrite pages_upto_succ by exact Hlt. rewrite Hflag.
        unfold advance. destruct (do_VMR =? 0); reflexivity.
    + intros Hv. apply Hvgp. intros E.
      pose proof (proj2 Hflags (Z.of_nat (length l1)) ltac:(lia)) as Hn.
      rewrite Nat2Z.id, Hflag, E in Hn. cbn in Hn. congruence.
  - apply species_loop_steps in Hrun as (_ & Hfpi & _).
    replace (length (species self)) with (length non_linear) in Hfpi by zlia.
    rewrite pages_upto_all, <- Hpages in Hfpi.
    rewrite Hfpi, Z.eqb_refl in HF. discriminate.
Qed.

Section ExtractAccesses.

Variable ext : Externals.

Hypothesis gridpos_wf : gridpos_poly_well_formed ext.
Hypothesis gridpos_total : gridpos_poly_total ext.

Lemma temperature_position_not_Fault (self : GasAbsLookup)
  (t_interp_order : Index) (T : Numeric) (lvl : Index) :
  0 <= lvl < nelem (t_ref self) ->
  0 <= t_interp_order ->
  (nelem (t_pert self) <> 0 -> t_interp_order + 1 <= nelem (t_pert self)) ->
  (t_pert self = [] \/ 2 <= nelem (t_pert self)) ->
  temperature_position ext self t_interp_order T lvl <> Fault
  /\ forall tgp,
       temperature_position ext self t_interp_order T lvl = Ok tgp ->
       nelem (t_pert self) <> 0 ->
       positions_in tgp t_interp_order (nelem (t_pert self)).
Proof.
  intros Hlvl Hto Horder Hgrid. unfold temperature_position.
  destruct (Z.eqb_spec (nelem (t_pert self)) 0) as [E|E].
  - split; [discriminate | intros tgp _ Hne; contradiction].
  - destruct Hgrid as [Hnil | Hgrid];
      [rewrite Hnil in E; exfalso; apply E; reflexivity|].
    destruct (elem_in_range (t_ref self) lvl Hlvl) as [tr ->]. cbn [bind].
    split.
    + intros HF. apply bind_Fault_inv in HF as [HF | (? & _ & HF)].
      * revert HF. now apply perturbation_range_check_in_bounds.
      * revert HF. apply gridpos_total; [exact Hto | exact (Horder E)].
    + intros tgp H _. apply bind_Ok_inv in H as (? & _ & H).
      exact (gridpos_wf _ _ _ _ H).
Qed.

Lemma humidity_position_not_Fault (self : GasAbsLookup)
  (h2o_interp_order h2o_index : Index) (abs_vmrs : Vector) (lvl : Index) :
  is_size2 (vmrs_ref self) (nelem (species self)) (nelem (p_grid self)) = true ->
  nelem abs_vmrs = nelem (species self) ->
  (0 < nelem (nonlinear_species self) ->
   0 <= h2o_index < nelem (species self)) ->
  0 <= lvl < nelem (p_grid self) ->
  0 <= h2o_interp_order ->
  (nelem (nls_pert self) <> 0 ->
   h2o_interp_order + 1 <= nelem (nls_pert self)) ->
  (nonlinear_species self = [] \/ 2 <= nelem (nls_pert self)) ->
  humidity_position ext self h2o_interp_order h2o_index abs_vmrs lvl <> Fault
  /\ forall vgp,
       humidity_position ext self h2o_interp_order h2o_index abs_vmrs lvl
       = Ok vgp ->
       nonlinear_species self <> [] ->
       positions_in vgp h2o_interp_order (nelem (nls_pert self)).
Proof.
  intros Hvm Hlen Hh Hlvl Hho Horder Hgrid. unfold humidity_position.
  destruct (Z.ltb_spec 0 (nelem (nonlinear_species self))) as [E|E].
  - destruct Hgrid as [Hnil | Hgrid];
      [rewrite Hnil in E; unfold nelem in E; simpl in E; lia|].
    specialize (Hh E).
    apply andb_true_iff in Hvm as [Hr Hc]. apply Z.eqb_eq in Hr, Hc.
    unfold mat_elem.
    replace (in_range h2o_index (m_nrows (vmrs_ref self))
             && in_range lvl (m_ncols (vmrs_ref self))) with true
      by (symmetry; rewrite andb_true_iff, !in_range_true; lia).
    cbn [bind].
    destruct (elem_in_range abs_vmrs h2o_index) as [v ->]; [lia|]. cbn [bind].
    split.
    + intros HF. apply bind_Fault_inv in HF as [HF | (? & _ & HF)].
      * revert HF. now apply perturbation_range_check_in_bounds.
      * revert HF. apply gridpos_total; [exact Hho | apply Horder; lia].
    + intros vgp H _. apply bind_Ok_inv in H as (? & _ & H).
      exact (gridpos_wf _ _ _ _ H).
  - split; [discriminate|]. intros vgp _ Hne. exfalso. apply Hne.
    destruct (nonlinear_species self); [reflexivity|].
    unfold nelem in E. simpl in E. lia.
Qed.

(** What the checks of Extract establish, on a consistent table. *)
Lemma Extract_checks_Ok (self : GasAbsLookup)
  (p_interp_order t_interp_order h2o_interp_order : Index)
  (abs_vmrs : Vector) (h2o_index : Index) :
  Extract_checks ext self p_interp_order t_interp_order h2o_interp_order
                 abs_vmrs = Ok h2o_index ->
  (0 < nelem (nonlinear_species self) -> 0 <= h2o_index < nelem (species self))
  /\ nelem (log_p_grid self) = nelem (p_grid self)
  /\ p_interp_order + 1 <= nelem (p_grid self)
  /\ (nelem (nls_pert self) <> 0 ->
      h2o_interp_order + 1 <= nelem (nls_pert self))
  /\ (nelem (t_pert self) <> 0 -> t_interp_order + 1 <= nelem (t_pert self))
  /\ nelem abs_vmrs = nelem (species self).
Proof.
  unfold Extract_checks. intros H.
  apply bind_Ok_inv in H as (h & Hh & H).
  apply bind_Ok_inv in H as (? & _ & H).
  apply bind_Ok_inv in H as (? & _ & H).
  apply bind_Ok_inv in H as (? & _ & H).
  apply bind_Ok_inv in H as (? & Hlog & H).
  apply bind_Ok_inv in H as (? & Hp & H).
  apply bind_Ok_inv in H as (? & Hho & H).
  apply bind_Ok_inv in H as (? & Hto & H).
  apply bind_Ok_inv in H as (? & Hvm & H). injection H as <-.
  apply throw_if_Ok in Hlog, Hp, Hho, Hto, Hvm.
  apply negb_false_iff, Z.eqb_eq in Hlog, Hvm. apply Z.ltb_ge in Hp.
  split.
  { intros Hn. apply Z.ltb_lt in Hn. rewrite Hn in Hh. cbv zeta in Hh.
    apply bind_Ok_inv in Hh as (? & Hthrow & Hh). injection Hh as <-.
    apply throw_if_Ok, Z.eqb_neq in Hthrow.
    unfold find_first_species_tg in *.
    destruct (find_first_from_range (species self) (h2o_species ext) 0);
      [contradiction | lia]. }
  split; [exact Hlog|]. split; [lia|]. split.
  { intros Hne. apply andb_false_iff in Hho as [Hho | Hho].
    - apply negb_false_iff, Z.eqb_eq in Hho. contradiction.
    - apply Z.ltb_ge in Hho. exact Hho. }
  split; [|exact Hvm].
  intros Hne. apply andb_false_iff in Hto as [Hto | Hto].
  - apply negb_false_iff, Z.eqb_eq in Hto. contradiction.
  - apply Z.ltb_ge in Hto. exact Hto.
Qed.

Lemma Extract_checks_not_Fault (self : GasAbsLookup)
  (p_interp_order t_interp_order h2o_interp_order : Index) (abs_vmrs : Vector) :
  table_consistent self ->
  Extract_checks ext self p_interp_order t_interp_order h2o_interp_order
                 abs_vmrs <> Fault.
Proof.
  intros (_ & _ & Hvm & Htr & Hxs). unfold Extract_checks. intros HF.
  apply bind_Fault_inv in HF as [HF | (h & _ & HF)].
  { destruct (0 <? nelem (nonlinear_species self)); [|discriminate].
    cbv zeta in HF. apply bind_Fault_inv in HF as [HF | (? & _ & HF)];
      [exact (throw_if_not_Fault _ _ HF) | discriminate]. }
  rewrite Hvm, Htr, Hxs, Z.eqb_refl in HF. cbn [assert bind] in HF.
  repeat (apply bind_Fault_inv in HF as [HF | (? & _ & HF)];
          [exact (throw_if_not_Fault _ _ HF)|]).
  discriminate.
Qed.


End ExtractAccesses.

(** ** The reference instance of [gridpos_poly] *)

Lemma reference_gridpos_poly_well_formed :
  gridpos_poly_well_formed reference_externals.
Proof.
  intros grid x order g H. cbn [reference_externals gridpos_poly] in H.
  unfold gridpos_poly_model in H.
  apply bind_Ok_inv in H as (? & Hassert & H). injection H as <-.
  apply assert_Ok, andb_true_iff in Hassert as [H1 H2].
  apply Z.leb_le in H1, H2.
  unfold positions_in. cbn [idx w]. split; [|split].
  - unfold nelem. rewrite length_map, upto_length. lia.
  - unfold nelem. rewrite length_map, length_seq. lia.
  - apply Forall_forall. intros i Hi. apply in_map_iff in Hi as (q & <- & Hq).
    apply upto_In in Hq. lia.
Qed.

Lemma reference_gridpos_poly_total : gridpos_poly_total reference_externals.
Proof.
  intros grid x order H0 Hn. cbn [reference_externals gridpos_poly].
  unfold gridpos_poly_model.
  rewrite assert_true_bind; [discriminate|].
  rewrite andb_true_iff, !Z.leb_le. lia.
Qed.

(** ** Where the locator and Adapt leave their arrays *)

Lemma seek_nonempty (x : Numeric) (o : Numeric) (rest : Vector) (j : Index) :
  seek x j (o :: rest) <> Fault
  /\ forall j' rest', seek x j (o :: rest) = Ok (j', rest') -> rest' <> [].
Proof.
  revert o j. induction rest as [|o' rest IH]; intros o j.
  - cbn [seek]. destruct (off_grid x o); split; try discriminate.
    intros j' rest' H. injection H as <- <-. discriminate.
  - cbn [seek]. destruct (off_grid x o); [exact (IH o' (j + 1))|].
    split; [discriminate|].
    intros j' rest' H. injection H as <- <-. discriminate.
Qed.

Lemma locate_nonempty (new_grid : Vector) :
  forall (j : Index) (rest : Vector),
    rest <> [] -> locate new_grid j rest <> Fault.
Proof.
  induction new_grid as [|x new_grid IH]; intros j rest Hne; [discriminate|].
  destruct rest as [|o rest]; [congruence|].
  cbn [locate]. destruct (seek_nonempty x o rest j) as [Hnf Hrest].
  intros HF. apply bind_Fault_inv in HF as [HF | ([j' rest'] & Hseek & HF)];
    [contradiction|].
  apply bind_Fault_inv in HF as [HF | (? & _ & HF)]; [|discriminate].
  exact (IH j' rest' (Hrest _ _ Hseek) HF).
Qed.

Lemma find_new_grid_Fault (old_grid new_grid : Vector) :
  find_new_grid_in_old_grid old_grid new_grid = Fault ->
  old_grid = [] /\ new_grid <> [].
Proof.
  unfold find_new_grid_in_old_grid. intros HF.
  destruct old_grid as [|o old_grid].
  - split; [reflexivity|]. intros ->. discriminate.
  - exfalso. revert HF. apply locate_nonempty. discriminate.
Qed.


Lemma chk_table_not_Fault (self : GasAbsLookup) : chk_table self <> Fault.
Proof.
  unfold chk_table. intros HF.
  apply bind_Fault_inv in HF as [HF | (? & _ & HF)];
    [exact (throw_if_not_Fault _ _ HF)|].
  apply bind_Fault_inv in HF as [HF | (? & _ & HF)];
    [exact (throw_if_not_Fault _ _ HF)|].
  apply bind_Fault_inv in HF as [HF | (? & _ & HF)].
  { apply mapM_Fault_inv in HF as (s & _ & HF).
    exact (throw_if_not_Fault _ _ HF). }
  do 5 (apply bind_Fault_inv in HF as [HF | (? & _ & HF)];
        [exact (throw_if_not_Fault _ _ HF)|]).
  apply bind_Fault_inv in HF as [HF | (? & _ & HF)].
  { destruct (0 =? nelem (nonlinear_species self));
      exact (throw_if_not_Fault _ _ HF). }
  unfold chk_xsec in HF.
  destruct (0 =? nelem (nonlinear_species self));
    [destruct (0 =? nelem (t_pert self))|];
    exact (throw_if_not_Fault _ _ HF).
Qed.

Lemma chk_contains_not_Fault (x : ArrayOfArrayOfSpeciesTag)
  (what : ArrayOfSpeciesTag) : chk_contains x what <> Fault.
Proof.
  unfold chk_contains. destruct (find_all x what 0) as [|i [|i' l]];
    discriminate.
Qed.

(** The flags of the current species can be read for every position
    [chk_contains] has returned. *)
Lemma current_flags_total (n : Index) (nls non_linear ics : ArrayOfIndex) :
  flags_of n nls non_linear ->
  Forall (fun k => 0 <= k < n) ics ->
  current_flags non_linear ics = Ok (map (is_nonlinear nls) ics).
Proof.
  intros Hflags Hics. unfold current_flags. apply mapM_total. intros k Hk.
  rewrite Forall_forall in Hics. specialize (Hics k Hk).
  rewrite (elem_nth_in_range non_linear k 0) by (rewrite (proj1 Hflags); lia).
  cbn [bind]. rewrite (proj2 Hflags k) by lia.
  unfold is_nonlinear. destruct (existsb (Z.eqb k) nls); reflexivity.
Qed.

Lemma in_range_dec (n s : Index) : {0 <= s < n} + {~ 0 <= s < n}.
Proof.
  destruct (Z_le_dec 0 s); [destruct (Z_lt_dec s n)|]; [left | right | right];
    lia.
Qed.

Section AdaptFaults.

Variable ext : Externals.

(** Adapt leaves its arrays in exactly two situations: a nonlinear species
    index lies outside the species list, which is a write outside the flag
    array before any check; or the table passes the table checks and the
    request is in order, with all its species found, but the frequency grid
    of the table is empty while frequencies are asked for, which is a read
    outside the empty grid by the locator. *)
Theorem Adapt_faults_iff
  (cs : ArrayOfArrayOfSpeciesTag) (cf : Vector) (self : GasAbsLookup) :
  fst (Adapt ext cs cf self) = Fault
  <-> Exists (fun s => ~ 0 <= s < nelem (species self)) (nonlinear_species self)
      \/ (chk_table self = Ok tt
          /\ cs <> []
          /\ is_increasing cf = true
          /\ (forall g, In g cs ->
                count_occ tag_group_eq_dec (species self) g = 1%nat)
          /\ f_grid self = []
          /\ cf <> []).
Proof.
  assert (Hadapt : fst (Adapt ext cs cf self) = Fault
                   <-> Adapt_new_table self cs cf = Fault).
  { unfold Adapt. destruct (Adapt_new_table self cs cf); cbn [fst];
      split; intros H; try discriminate; reflexivity. }
  rewrite Hadapt. clear Hadapt. split.
  - intros HF. pose proof HF as HF0. unfold Adapt_new_table in HF.
    apply bind_Fault_inv in HF as [HF | (non_linear & Hflags & HF)].
    { left.
      destruct (Forall_Exists_dec (fun s => 0 <= s < nelem (species self))
                  (in_range_dec (nelem (species self)))
                  (nonlinear_species self)) as [Hall | Hex]; [|exact Hex].
      destruct (flag_nonlinear_total _ _ (nelem_nonneg _) Hall) as [fl Hfl].
      congruence. }
    right.
    apply bind_Fault_inv in HF as [HF | ([] & Htable & HF)];
      [exfalso; exact (chk_table_not_Fault _ HF)|].
    apply bind_Fault_inv in HF as [HF | (? & Hne & HF)];
      [exfalso; exact (throw_if_not_Fault _ _ HF)|].
    apply bind_Fault_inv in HF as [HF | (? & Hcf & HF)];
      [exfalso; exact (throw_if_not_Fault _ _ HF)|].
    apply bind_Fault_inv in HF as [HF | (ics & Hics & HF)].
    { exfalso. apply mapM_Fault_inv in HF as (g & _ & HF).
      exact (chk_contains_not_Fault _ _ HF). }
    clear HF.
    apply throw_if_Ok, Z.eqb_neq in Hne.
    apply throw_if_Ok, negb_false_iff in Hcf.
    assert (Hne' : nelem cs <> 0) by lia.
    split; [exact Htable|]. split; [intros ->; apply Hne; reflexivity|].
    split; [exact Hcf|]. split.
    { intros g Hg. apply chk_contains_Ok_iff.
      destruct (mapM_Ok_In _ _ _ _ Hics Hg) as (k & Hk & _). eauto. }
    destruct (find_new_grid_in_old_grid (f_grid self) cf) as [icf| |] eqn:Hicf.
    + exfalso.
      destruct (Adapt_new_table_spec self cs cf ics icf Htable Hne' Hcf Hics Hicf)
        as (nt & nl & Hnt & _). congruence.
    + exfalso.
      destruct (chk_contains_in_range _ _ _ Hics) as [Hics_range _].
      unfold Adapt_new_table in HF0. pose proof Hflags as Efl.
      rewrite Hflags in HF0.
      cbn [bind] in HF0. rewrite Htable in HF0. cbn [bind] in HF0.
      replace (0 =? nelem cs) with false in HF0
        by (symmetry; apply Z.eqb_neq; lia).
      cbn [throw_if bind] in HF0. unfold chk_if_increasing in HF0.
      rewrite Hcf in HF0. cbn [negb throw_if bind] in HF0.
      rewrite Hics in HF0. cbn [bind] in HF0.
      apply flag_nonlinear_spec in Efl as [Hfl _]; [|apply nelem_nonneg].
      pose proof (current_flags_total _ _ _ _ Hfl Hics_range) as Hcnl.
      unfold current_flags in Hcnl. rewrite Hcnl in HF0. cbn [bind] in HF0.
      rewrite Hicf in HF0. discriminate.
    + apply find_new_grid_Fault in Hicf. exact Hicf.
  - intros [Hex | (Htable & Hne & Hcf & Hsp & Hfg & Hcfne)].
    + unfold Adapt_new_table.
      rewrite (flag_nonlinear_out_of_range _ _ (nelem_nonneg _) Hex).
      reflexivity.
    + destruct (chk_table_Ok _ Htable) as (_ & _ & Hrange & _).
      assert (Hrange' : Forall (fun s => 0 <= s < nelem (species self))
                               (nonlinear_species self)).
      { revert Hrange. apply Forall_impl. intros s Hs. lia. }
      destruct (flag_nonlinear_total _ _ (nelem_nonneg _) Hrange')
        as [non_linear Hflags].
      destruct (mapM_exists (chk_contains (species self)) cs) as [ics Hics].
      { intros g Hg. apply chk_contains_Ok_iff, Hsp, Hg. }
      destruct (chk_contains_in_range _ _ _ Hics) as [Hics_range _].
      unfold Adapt_new_table.
      rewrite Hflags. cbn [bind]. rewrite Htable. cbn [bind].
      replace (0 =? nelem cs) with false.
      2:{ symmetry. apply Z.eqb_neq. destruct cs; [congruence|].
          unfold nelem. simpl. lia. }
      cbn [throw_if bind]. unfold chk_if_increasing. rewrite Hcf.
      cbn [negb throw_if bind]. rewrite Hics. cbn [bind].
      apply flag_nonlinear_spec in Hflags as [Hfl _]; [|apply nelem_nonneg].
      pose proof (current_flags_total _ _ _ _ Hfl Hics_range) as Hcnl.
      unfold current_flags in Hcnl. rewrite Hcnl. cbn [bind].
      rewrite Hfg. destruct cf as [|x cf]; [congruence | reflexivity].
Qed.

End AdaptFaults.

(** ** The theorems at concrete tables *)

(** C1 at a table with two frequencies, all of them selected. *)
Lemma Extract_order0_at_grid_pressure_witness :
  gridpos_poly reference_externals
    (map (log reference_externals) [1000%Q; 500%Q; 100%Q])
    (log reference_externals 500%Q) 0
  = Ok {| idx := [1]; w := [1%Q] |}
  /\ (0 < 250)%Q
  /\ -1 < nelem [100%Q; 200%Q]
  /\ exists sga,
       Extract reference_externals
         (order0_table reference_externals [tag_O3] [100%Q; 200%Q]
            (fun _ _ => 0.01%Q) 290%Q 270%Q 220%Q
            (fun f => inject_Z (10 + f)) (fun f => inject_Z (20 + f))
            (fun f => inject_Z (30 + f)))
         0 0 0 (-1) 500%Q 250%Q [0.0001%Q] = Ok sga
       /\ m_ncols sga = 1
       /\ m_nrows sga = (if -1 <? 0 then nelem [100%Q; 200%Q] else 1)
       /\ (forall f, 0 <= f < m_nrows sga ->
             (m_get sga f 0
              == inject_Z (20 + ((if -1 <? 0 then 0 else -1) + f))
                 * number_density reference_externals 500 250 * 0.0001)%Q)
       /\ (number_density reference_externals 500 250
           == / BOLTZMAN_CONST reference_externals * (500 / 250))%Q.
Proof.
  split; [reflexivity|]. split; [reflexivity|]. split; [reflexivity|].
  apply (Extract_order0_at_grid_pressure reference_externals [tag_O3]
           [100%Q; 200%Q] (fun _ _ => 0.01%Q) 290%Q 270%Q 220%Q
           (fun f => inject_Z (10 + f)) (fun f => inject_Z (20 + f))
           (fun f => inject_Z (30 + f)) 0 0 (-1) 250%Q 0.0001%Q);
    reflexivity.
Defined.

(** C2 where the request drops the only nonlinear species. *)
Lemma Adapt_shape_invariant_witness :
  valid_configuration full_table
  /\ fst (Adapt reference_externals [[tag_O3]] [100.4%Q; 299.6%Q] full_table)
     = Ok tt
  /\ shape_invariant
       (snd (Adapt reference_externals [[tag_O3]] [100.4%Q; 299.6%Q] full_table))
  /\ valid_configuration
       (snd (Adapt reference_externals [[tag_O3]] [100.4%Q; 299.6%Q] full_table))
  /\ (nonlinear_species
        (snd (Adapt reference_externals [[tag_O3]] [100.4%Q; 299.6%Q] full_table))
      = []
      -> nls_pert
           (snd (Adapt reference_externals [[tag_O3]] [100.4%Q; 299.6%Q]
                       full_table)) = []).
Proof.
  split; [right; discriminate|]. split; [reflexivity|].
  apply (Adapt_shape_invariant reference_externals [[tag_O3]]
           [100.4%Q; 299.6%Q] full_table);
    [right; discriminate | reflexivity].
Defined.

(** C5 on the adapted table, one frequency selected. *)
Lemma Extract_frequency_selection_witness :
  Extract_checks reference_externals adapted_table 1 1 1 [0.02%Q; 0.000001%Q]
  = Ok 0
  /\ (nelem (f_grid adapted_table) <= 1 ->
      Extract reference_externals adapted_table 1 1 1 1 600%Q 275%Q
              [0.02%Q; 0.000001%Q] = Err IndexOutOfRange)
  /\ (forall sga,
        Extract reference_externals adapted_table 1 1 1 1 600%Q 275%Q
                [0.02%Q; 0.000001%Q] = Ok sga ->
        m_ncols sga = nelem (species adapted_table)
        /\ (1 < 0 -> m_nrows sga = nelem (f_grid adapted_table))
        /\ (0 <= 1 -> 1 < nelem (f_grid adapted_table) /\ m_nrows sga = 1)).
Proof.
  split; [reflexivity|].
  apply (Extract_frequency_selection reference_externals adapted_table
           1 1 1 1 600%Q 275%Q [0.02%Q; 0.000001%Q] 0).
  reflexivity.
Defined.

(** C6 on the adapted table, at the upper bound 1250 Pa. *)
Lemma pressure_range_is_linear_witness :
  2 <= nelem (p_grid adapted_table)
  /\ is_decreasing (p_grid adapted_table) = true
  /\ pressure_range_check (p_grid adapted_table) 1250%Q = Ok tt.
Proof.
  split; [vm_compute; discriminate|]. split; [reflexivity|].
  destruct (pressure_range_is_linear reference_externals adapted_table
              1 1 1 0 1250%Q 275%Q [0.02%Q; 0.000001%Q])
    as [Hbound _]; [vm_compute; discriminate | reflexivity |].
  apply Hbound. reflexivity.
Defined.

(** C10 where the request keeps the nonlinear species in second place. *)
Lemma Adapt_nonlinear_species_ordered_witness :
  fst (Adapt reference_externals [[tag_O3]; [tag_H2O]] [100%Q; 300%Q] full_table)
  = Ok tt
  /\ nonlinear_species
       (snd (Adapt reference_externals [[tag_O3]; [tag_H2O]] [100%Q; 300%Q]
                   full_table)) = [1]
  /\ StronglySorted Z.lt
       (nonlinear_species
          (snd (Adapt reference_externals [[tag_O3]; [tag_H2O]] [100%Q; 300%Q]
                      full_table))).
Proof.
  split; [reflexivity|]. split; [reflexivity|].
  destruct (Adapt_nonlinear_species_ordered reference_externals
              [[tag_O3]; [tag_H2O]] [100%Q; 300%Q] full_table)
    as [Hsorted _]; [reflexivity | exact Hsorted].
Defined.

(** Extract succeeds on the adapted table, for all frequencies and for one. *)
Example Extract_succeeds_on_adapted_table :
  (exists sga,
      Extract reference_externals adapted_table 1 1 1 (-1) 600%Q 275%Q
              [0.02%Q; 0.000001%Q] = Ok sga
      /\ m_nrows sga = 2 /\ m_ncols sga = 2)
  /\ (exists sga,
         Extract reference_externals adapted_table 0 0 0 1 500%Q 270%Q
                 [0.02%Q; 0.000001%Q] = Ok sga
         /\ m_nrows sga = 1 /\ m_ncols sga = 2
         /\ (m_get sga 0 0
             == 1121 * number_density reference_externals 500 270 * 0.02)%Q).
Proof.
  split.
  - destruct (Extract reference_externals adapted_table 1 1 1 (-1) 600%Q 275%Q
                [0.02%Q; 0.000001%Q]) as [sga| |] eqn:E;
      try (vm_compute in E; discriminate).
    exists sga. split; [reflexivity|].
    assert (H : match Extract reference_externals adapted_table 1 1 1 (-1)
                        600%Q 275%Q [0.02%Q; 0.000001%Q] with
                | Ok m => (m_nrows m =? 2) && (m_ncols m =? 2)
                | _ => false
                end = true) by (vm_compute; reflexivity).
    rewrite E in H. apply andb_true_iff in H as [H1 H2].
    apply Z.eqb_eq in H1, H2. auto.
  - destruct (Extract reference_externals adapted_table 0 0 0 1 500%Q 270%Q
                [0.02%Q; 0.000001%Q]) as [sga| |] eqn:E;
      try (vm_compute in E; discriminate).
    exists sga. split; [reflexivity|].
    assert (H : match Extract reference_externals adapted_table 0 0 0 1
                        500%Q 270%Q [0.02%Q; 0.000001%Q] with
                | Ok m => (m_nrows m =? 1) && (m_ncols m =? 2)
                          && Qeq_bool (m_get m 0 0)
                               (1121 * number_density reference_externals 500 270
                                * 0.02)
                | _ => false
                end = true) by (vm_compute; reflexivity).
    rewrite E in H. apply andb_true_iff in H as [H H3].
    apply andb_true_iff in H as [H1 H2].
    apply Z.eqb_eq in H1, H2. apply Qeq_bool_iff in H3. auto.
Qed.

(** C8 on the table with both optional axes. *)
Lemma Adapt_twice_same_table_witness :
  fst (Adapt reference_externals [[tag_O3]; [tag_H2O]] [100.4%Q; 299.6%Q]
             full_table) = Ok tt
  /\ NoDup [[tag_O3]; [tag_H2O]]
  /\ is_increasing
       (f_grid (snd (Adapt reference_externals [[tag_O3]; [tag_H2O]]
                           [100.4%Q; 299.6%Q] full_table))) = true
  /\ valid_configuration full_table
  /\ fst (Adapt reference_externals [[tag_O3]; [tag_H2O]] [100.4%Q; 299.6%Q]
            (snd (Adapt reference_externals [[tag_O3]; [tag_H2O]]
                        [100.4%Q; 299.6%Q] full_table))) = Ok tt
  /\ same_table
       (snd (Adapt reference_externals [[tag_O3]; [tag_H2O]] [100.4%Q; 299.6%Q]
               (snd (Adapt reference_externals [[tag_O3]; [tag_H2O]]
                           [100.4%Q; 299.6%Q] full_table))))
       (snd (Adapt reference_externals [[tag_O3]; [tag_H2O]] [100.4%Q; 299.6%Q]
                   full_table)).
Proof.
  assert (Hnd : NoDup [[tag_O3]; [tag_H2O]]).
  { constructor; [|constructor; [intros []|constructor]].
    intros [H|[]]. discriminate. }
  split; [reflexivity|]. split; [exact Hnd|]. split; [reflexivity|].
  split; [right; discriminate|].
  apply (Adapt_twice_same_table reference_externals [[tag_O3]; [tag_H2O]]
           [100.4%Q; 299.6%Q] full_table);
    [reflexivity | exact Hnd | reflexivity | right; discriminate].
Defined.

(** The grid locator on the grids of the tolerance scenario. *)
Lemma find_new_grid_in_nonempty_old_grid_witness :
  [100%Q; 200%Q; 300%Q] <> []
  /\ ascending [100%Q; 200%Q; 300%Q]
  /\ ascending [100.4%Q; 299.6%Q]
  /\ ((exists pos,
         find_new_grid_in_old_grid [100%Q; 200%Q; 300%Q] [100.4%Q; 299.6%Q]
         = Ok pos
         /\ Forall2 (fun x q => exists o,
                        elem [100%Q; 200%Q; 300%Q] q = Ok o /\ near x o)
                    [100.4%Q; 299.6%Q] pos
         /\ nondecreasing pos)
      \/ (find_new_grid_in_old_grid [100%Q; 200%Q; 300%Q] [100.4%Q; 299.6%Q]
          = Err GridPointNotFound
          /\ exists x, In x [100.4%Q; 299.6%Q]
                       /\ forall o, In o [100%Q; 200%Q; 300%Q] -> ~ near x o)).
Proof.
  assert (Hold : ascending [100%Q; 200%Q; 300%Q]).
  { unfold ascending. repeat constructor; unfold Qle; simpl; lia. }
  assert (Hnew : ascending [100.4%Q; 299.6%Q]).
  { unfold ascending. repeat constructor; unfold Qle; simpl; lia. }
  split; [discriminate|]. split; [exact Hold|]. split; [exact Hnew|].
  apply (find_new_grid_in_nonempty_old_grid [100%Q; 200%Q; 300%Q]
           [100.4%Q; 299.6%Q]); [discriminate | exact Hold | exact Hnew].
Defined.

(** The accepted shape of the table with both optional axes. *)
Lemma Adapt_accepted_shape_witness :
  fst (Adapt reference_externals [[tag_O3]] [100%Q] full_table) = Ok tt
  /\ is_size4 (xsec full_table) (expected_books full_table)
              (expected_pages full_table) (nelem (f_grid full_table))
              (nelem (p_grid full_table)) = true.
Proof.
  split; [reflexivity|].
  apply (Adapt_accepted_shape reference_externals [[tag_O3]] [100%Q] full_table).
  reflexivity.
Defined.

(** The range checks on a grid of three points. *)
Lemma range_checks_in_bounds_witness :
  1 <= nelem [1000%Q; 500%Q; 100%Q]
  /\ (2 <= nelem [1000%Q; 500%Q; 100%Q]
      <-> pressure_range_check [1000%Q; 500%Q; 100%Q] 500%Q <> Fault
          /\ perturbation_range_check [1000%Q; 500%Q; 100%Q] 500%Q
                                      TemperatureOutOfRange <> Fault).
Proof.
  split; [vm_compute; discriminate|].
  apply (range_checks_in_bounds [1000%Q; 500%Q; 100%Q] 500%Q
           TemperatureOutOfRange).
  vm_compute; discriminate.
Defined.

(** ** The further properties at concrete tables *)

(** The grids Adapt leaves for two species and two frequencies of the table
    with both optional axes. *)
Lemma Adapt_selects_grids_witness :
  fst (Adapt reference_externals [[tag_O3]; [tag_H2O]] [100.4%Q; 299.6%Q]
             full_table) = Ok tt
  /\ species (snd (Adapt reference_externals [[tag_O3]; [tag_H2O]]
                         [100.4%Q; 299.6%Q] full_table))
     = [[tag_O3]; [tag_H2O]]
  /\ Forall2 near [100.4%Q; 299.6%Q]
       (GetFgrid (snd (Adapt reference_externals [[tag_O3]; [tag_H2O]]
                             [100.4%Q; 299.6%Q] full_table))).
Proof.
  split; [reflexivity|].
  destruct (Adapt_selects_grids reference_externals [[tag_O3]; [tag_H2O]]
              [100.4%Q; 299.6%Q] full_table) as (Hsp & Hnear & _);
    [reflexivity | split; [exact Hsp | exact Hnear]].
Defined.

(** The nonlinear species asked for in second place: its three pages come
    from the pages 0, 1 and 2 of the original table, behind the page of the
    species asked for first. *)
Lemma Adapt_copies_coefficients_witness :
  fst (Adapt reference_externals [[tag_O3]; [tag_H2O]] [100.4%Q; 299.6%Q]
             full_table) = Ok tt
  /\ exists ics icf,
       mapM (chk_contains (species full_table)) [[tag_O3]; [tag_H2O]] = Ok ics
       /\ find_new_grid_in_old_grid (f_grid full_table) [100.4%Q; 299.6%Q]
          = Ok icf
       /\ forall i k,
            elem ics i = Ok k ->
            pages_of (snd (Adapt reference_externals [[tag_O3]; [tag_H2O]]
                                 [100.4%Q; 299.6%Q] full_table)) i
            = pages_of full_table k
            /\ (forall c,
                  m_get (vmrs_ref (snd (Adapt reference_externals
                                          [[tag_O3]; [tag_H2O]]
                                          [100.4%Q; 299.6%Q] full_table))) i c
                  = m_get (vmrs_ref full_table) k c)
            /\ forall v r j b c,
                 0 <= v < pages_of full_table k ->
                 elem icf r = Ok j ->
                 t4_get (xsec (snd (Adapt reference_externals
                                      [[tag_O3]; [tag_H2O]]
                                      [100.4%Q; 299.6%Q] full_table))) b
                        (first_page (snd (Adapt reference_externals
                                            [[tag_O3]; [tag_H2O]]
                                            [100.4%Q; 299.6%Q] full_table)) i
                         + v) r c
                 = t4_get (xsec full_table) b (first_page full_table k + v) j c.
Proof.
  split; [reflexivity|].
  apply (Adapt_copies_coefficients reference_externals [[tag_O3]; [tag_H2O]]
           [100.4%Q; 299.6%Q] full_table).
  reflexivity.
Defined.

(** Two requested frequencies half a hertz apart: both are found at the
    table frequency 100 Hz. *)
Lemma Adapt_merges_close_frequencies_witness :
  fst (Adapt reference_externals [[tag_O3]] [100%Q; 100.5%Q] full_table) = Ok tt
  /\ elem [100%Q; 100.5%Q] (0 + 1) = Ok 100.5%Q
  /\ elem (GetFgrid (snd (Adapt reference_externals [[tag_O3]]
                                [100%Q; 100.5%Q] full_table))) 0 = Ok 100%Q
  /\ near 100.5%Q 100%Q
  /\ elem (GetFgrid (snd (Adapt reference_externals [[tag_O3]]
                                [100%Q; 100.5%Q] full_table))) (0 + 1)
     = Ok 100%Q.
Proof.
  assert (Hnear : near 100.5%Q 100%Q) by (unfold near; vm_compute; discriminate).
  split; [reflexivity|]. split; [reflexivity|]. split; [reflexivity|].
  split; [exact Hnear|].
  destruct (Adapt_merges_close_frequencies reference_externals [[tag_O3]]
              [100%Q; 100.5%Q] full_table 0 100.5%Q 100%Q) as [Hnext _];
    [reflexivity | reflexivity | reflexivity | exact Hnear | exact Hnext].
Defined.

(** The temperature perturbations of the table with both axes: an offset of
    15 K passes, at half a spacing beyond the last perturbation, and the
    same grid in decreasing order rejects the offset 0 K. *)
Lemma perturbation_range_witness :
  2 <= nelem (t_pert full_table)
  /\ perturbation_range_check (t_pert full_table) 15%Q TemperatureOutOfRange
     = Ok tt
  /\ perturbation_range_check [10%Q; 0%Q; (-10)%Q] 0%Q TemperatureOutOfRange
     = Err TemperatureOutOfRange.
Proof.
  split; [vm_compute; discriminate|]. split.
  - destruct (perturbation_range (t_pert full_table) 15%Q TemperatureOutOfRange)
      as (Hok & _); [vm_compute; discriminate|].
    apply Hok. split; vm_compute; discriminate.
  - destruct (perturbation_range [10%Q; 0%Q; (-10)%Q] 0%Q TemperatureOutOfRange)
      as (_ & _ & _ & Hdec); [vm_compute; discriminate|].
    apply Hdec. reflexivity.
Defined.

(** Extract on the table adapted to its one linear species, for two VMRs of
    that species. *)
Lemma Extract_scales_with_vmr_witness :
  nonlinear_species
    (snd (Adapt reference_externals [[tag_O3]] [100.4%Q; 299.6%Q] full_table))
  = []
  /\ nelem [0.000001%Q] = nelem [0.000002%Q]
  /\ exists sga1 sga2,
       Extract reference_externals
         (snd (Adapt reference_externals [[tag_O3]] [100.4%Q; 299.6%Q]
                     full_table))
         1 1 1 (-1) 600%Q 275%Q [0.000001%Q] = Ok sga1
       /\ Extract reference_externals
            (snd (Adapt reference_externals [[tag_O3]] [100.4%Q; 299.6%Q]
                        full_table))
            1 1 1 (-1) 600%Q 275%Q [0.000002%Q] = Ok sga2
       /\ m_nrows sga2 = m_nrows sga1
       /\ m_ncols sga2 = m_ncols sga1.
Proof.
  split; [reflexivity|]. split; [reflexivity|].
  assert (Hok : match Extract reference_externals
                        (snd (Adapt reference_externals [[tag_O3]]
                                    [100.4%Q; 299.6%Q] full_table))
                        1 1 1 (-1) 600%Q 275%Q [0.000001%Q] with
                | Ok _ => true
                | _ => false
                end = true) by (vm_compute; reflexivity).
  destruct (Extract reference_externals
              (snd (Adapt reference_externals [[tag_O3]] [100.4%Q; 299.6%Q]
                          full_table))
              1 1 1 (-1) 600%Q 275%Q [0.000001%Q]) as [sga1| |] eqn:E;
    try discriminate Hok.
  destruct (Extract_scales_with_vmr reference_externals
              (snd (Adapt reference_externals [[tag_O3]] [100.4%Q; 299.6%Q]
                          full_table))
              1 1 1 (-1) 600%Q 275%Q [0.000001%Q] [0.000002%Q] sga1)
    as (sga2 & H2 & Hr & Hc & _); [reflexivity | reflexivity | exact E |].
  exists sga1, sga2. auto.
Defined.


(** Extract on the adapted table, with linear interpolation in pressure,
    temperature and humidity. *)
Lemma Extract_interpolates_witness :
  exists sga,
    Extract reference_externals adapted_table 1 1 1 (-1) 600%Q 275%Q
            [0.02%Q; 0.000001%Q] = Ok sga
    /\ exists h2o_index pgp (gps : list LevelPositions),
         Extract_checks reference_externals adapted_table 1 1 1
                        [0.02%Q; 0.000001%Q] = Ok h2o_index
         /\ gridpos_poly reference_externals (log_p_grid adapted_table)
                         (log reference_externals 600%Q) 1 = Ok pgp
         /\ Forall2 (fun pi gp =>
                       elem (idx pgp) pi = Ok (lp_level gp)
                       /\ temperature_position reference_externals
                            adapted_table 1 275%Q (lp_level gp)
                          = Ok (lp_tgp gp)
                       /\ humidity_position reference_externals adapted_table
                            1 h2o_index [0.02%Q; 0.000001%Q] (lp_level gp)
                          = Ok (lp_vgp gp))
                    (upto (1 + 1)) gps
         /\ m_ncols sga = nelem (species adapted_table)
         /\ forall f si, 0 <= f < m_nrows sga -> 0 <= si < m_ncols sga ->
              m_get sga f si
              = (pressure_sum
                   (map (fun gp =>
                           interpolated adapted_table 1 1 (lp_tgp gp)
                                        (lp_vgp gp) (lp_level gp)
                                        ((if -1 <? 0 then 0 else -1) + f) si)
                        gps)
                   (w pgp)
                 * (number_density reference_externals 600 275
                    * nth (Z.to_nat si) [0.02; 0.000001] 0))%Q.
Proof.
  assert (Hok : match Extract reference_externals adapted_table 1 1 1 (-1)
                        600%Q 275%Q [0.02%Q; 0.000001%Q] with
                | Ok _ => true
                | _ => false
                end = true) by (vm_compute; reflexivity).
  destruct (Extract reference_externals adapted_table 1 1 1 (-1) 600%Q 275%Q
              [0.02%Q; 0.000001%Q]) as [sga| |] eqn:E;
    try discriminate Hok.
  exists sga. split; [reflexivity|].
  exact (Extract_interpolates reference_externals adapted_table 1 1 1 (-1)
           600%Q 275%Q [0.02%Q; 0.000001%Q] sga E).
Defined.

(** Extract on the table of the order-0 scenario, with linear interpolation
    in pressure between 1000 Pa and 500 Pa. *)
Lemma Extract_without_perturbations_witness :
  t_pert (order0_table reference_externals [tag_O3] [100%Q; 200%Q]
            (fun _ _ => 0.01%Q) 290%Q 270%Q 220%Q
            (fun f => inject_Z (10 + f)) (fun f => inject_Z (20 + f))
            (fun f => inject_Z (30 + f))) = []
  /\ nonlinear_species
       (order0_table reference_externals [tag_O3] [100%Q; 200%Q]
          (fun _ _ => 0.01%Q) 290%Q 270%Q 220%Q
          (fun f => inject_Z (10 + f)) (fun f => inject_Z (20 + f))
          (fun f => inject_Z (30 + f))) = []
  /\ exists sga pgp,
       Extract reference_externals
         (order0_table reference_externals [tag_O3] [100%Q; 200%Q]
            (fun _ _ => 0.01%Q) 290%Q 270%Q 220%Q
            (fun f => inject_Z (10 + f)) (fun f => inject_Z (20 + f))
            (fun f => inject_Z (30 + f)))
         1 0 0 (-1) 600%Q 250%Q [0.0001%Q] = Ok sga
       /\ gridpos_poly reference_externals
            (map (log reference_externals) [1000%Q; 500%Q; 100%Q])
            (log reference_externals 600%Q) 1 = Ok pgp
       /\ m_ncols sga = 1.
Proof.
  split; [reflexivity|]. split; [reflexivity|].
  assert (Hok : match Extract reference_externals
                        (order0_table reference_externals [tag_O3]
                           [100%Q; 200%Q] (fun _ _ => 0.01%Q)
                           290%Q 270%Q 220%Q
                           (fun f => inject_Z (10 + f))
                           (fun f => inject_Z (20 + f))
                           (fun f => inject_Z (30 + f)))
                        1 0 0 (-1) 600%Q 250%Q [0.0001%Q] with
                | Ok _ => true
                | _ => false
                end = true) by (vm_compute; reflexivity).
  destruct (Extract reference_externals
              (order0_table reference_externals [tag_O3] [100%Q; 200%Q]
                 (fun _ _ => 0.01%Q) 290%Q 270%Q 220%Q
                 (fun f => inject_Z (10 + f)) (fun f => inject_Z (20 + f))
                 (fun f => inject_Z (30 + f)))
              1 0 0 (-1) 600%Q 250%Q [0.0001%Q]) as [sga| |] eqn:E;
    try discriminate Hok.
  destruct (Extract_without_perturbations reference_externals
              (order0_table reference_externals [tag_O3] [100%Q; 200%Q]
                 (fun _ _ => 0.01%Q) 290%Q 270%Q 220%Q
                 (fun f => inject_Z (10 + f)) (fun f => inject_Z (20 + f))
                 (fun f => inject_Z (30 + f)))
              1 0 0 (-1) 600%Q 250%Q [0.0001%Q] sga)
    as (pgp & Hpgp & Hcols & _); [reflexivity | reflexivity | exact E |].
  exists sga, pgp. split; [reflexivity|]. split; [exact Hpgp | exact Hcols].
Defined.




Lemma Adapt_range_check_after_write_witness :
  chk_table stray_index_table = Err NonlinearSpeciesOutOfRange
  /\ flag_nonlinear (nelem (species stray_index_table))
                    (nonlinear_species stray_index_table) = Fault
  /\ fst (Adapt reference_externals [[tag_O3]] [200%Q] stray_index_table)
     = Fault.
Proof.
  split; [reflexivity|].
  apply (Adapt_range_check_after_write reference_externals [[tag_O3]] [200%Q]
           stray_index_table).
  reflexivity.
Defined.
